(** * Region-tree analysis core (legion_analysis.cc): a shallow embedding

    The development follows the layout of runtime/legion/legion_analysis.cc:
    field masks and usages, VersionInfo and VersionManager (versioning
    layer), the Restriction / Acquisition tree, LogicalState, FieldState and
    projection epochs (logical analysis), and InstanceRef / InstanceSet
    (boundary to the physical layer).

    Pointers are addresses ([N]); objects reached through pointers live in
    explicit stores ([gmap]) so that sharing and reference counts are
    visible.  Calls the C++ leaves undefined (dereferencing a dangling or
    NULL pointer, indexing out of range) make the embedded function return
    [None]. *)

From stdpp Require Import gmap list option.

Open Scope N_scope.

Set Warnings "-clear-no-such-hyp".

(* ===================================================================== *)
(** ** Field masks *)
(* ===================================================================== *)

Module FieldMasks.

(** A FieldMask is a dense bit-set over field indices.  Only union,
    intersection, difference, emptiness, equality and disjointness are
    used by the code below, none of which leaves the mask's width, so the
    bits are kept in an [N]. *)
Definition FieldMask : Set := N.

(** [a & b] *)
Definition fm_and (a b : FieldMask) : FieldMask := N.land a b.
(** [a | b] *)
Definition fm_or (a b : FieldMask) : FieldMask := N.lor a b.
(** [a - b] *)
Definition fm_diff (a b : FieldMask) : FieldMask := N.ldiff a b.
(** [!a]: no bit is set *)
Definition fm_empty (a : FieldMask) : bool := a =? 0.
(** [a * b]: the masks are disjoint *)
Definition fm_disjoint (a b : FieldMask) : bool := N.land a b =? 0.
(** [a.is_set(i)] *)
Definition fm_is_set (a : FieldMask) (i : N) : bool := N.testbit a i.
(** [a.clear()] *)
Definition fm_clear : FieldMask := 0.

(** [sub ⊆ sup], bit by bit. *)
Definition fm_subset (sub sup : FieldMask) : Prop := N.ldiff sub sup = 0.

End FieldMasks.

Export FieldMasks.

(* ===================================================================== *)
(** ** Region usages and the privilege tests *)
(* ===================================================================== *)

Module Usage.

(** Modelled from the spec: the privilege enumeration is declared in a
    header that is not among the sources; these are the five privileges of
    the data model (NoAccess, ReadOnly, ReadWrite, WriteDiscard, Reduce). *)
Inductive PrivilegeMode : Set :=
| NO_ACCESS | READ_ONLY | READ_WRITE | WRITE_DISCARD | REDUCE.

(** Modelled from the spec: the exclusivity of a usage, declared in the same
    header; the sources name EXCLUSIVE only. *)
Inductive CoherenceProperty : Set :=
| EXCLUSIVE | ATOMIC | SIMULTANEOUS | RELAXED.

Definition ReductionOpID : Set := N.

(** [RegionUsage(privilege, prop, redop)] *)
Record RegionUsage : Set := mkUsage {
  privilege : PrivilegeMode;
  prop : CoherenceProperty;
  redop : ReductionOpID
}.

(** The privilege tests IS_READ_ONLY, IS_WRITE, IS_REDUCE and HAS_WRITE are
    macros of a header that is not among the sources.  The sources use
    them as distinct tests: the FieldState constructor asks IS_READ_ONLY,
    then IS_WRITE, then IS_REDUCE, and only its last branch opens a
    reduction state and records the redop; VersionState::initialize asks
    HAS_WRITE to mark fields dirty.  So IS_WRITE holds of the privileges
    that carry the write bit, IS_REDUCE of a reduction, and HAS_WRITE of
    both. *)

(** Modelled from the spec: IS_READ_ONLY, the privilege does not go beyond
    reading. *)
Definition IS_READ_ONLY (u : RegionUsage) : bool :=
  match privilege u with NO_ACCESS | READ_ONLY => true | _ => false end.

(** Modelled from the spec: IS_WRITE, the privilege carries the write bit
    (ReadWrite, WriteDiscard). *)
Definition IS_WRITE (u : RegionUsage) : bool :=
  match privilege u with READ_WRITE | WRITE_DISCARD => true | _ => false end.

(** Modelled from the spec: IS_REDUCE, the privilege is a reduction. *)
Definition IS_REDUCE (u : RegionUsage) : bool :=
  match privilege u with REDUCE => true | _ => false end.

(** Modelled from the spec: HAS_WRITE, the privilege writes or reduces. *)
Definition HAS_WRITE (u : RegionUsage) : bool :=
  match privilege u with
  | READ_WRITE | WRITE_DISCARD | REDUCE => true
  | _ => false
  end.

(** The classification in the words of the versioning contract: a usage
    is "writing" when it is ReadWrite, WriteDiscard or reducing. *)
Definition spec_writing (u : RegionUsage) : bool :=
  match privilege u with
  | READ_WRITE | WRITE_DISCARD | REDUCE => true
  | _ => false
  end.

End Usage.

Export Usage.

(* ===================================================================== *)
(** ** Versioning layer: reference counts, VersionInfo, VersionManager *)
(* ===================================================================== *)

Module Versioning.

(** An [EquivalenceSet*]: the address of the set. *)
Definition EquivalenceSet : Set := N.

Inductive ReferenceSource : Set := VERSION_INFO_REF | VERSION_MANAGER_REF.

(** Modelled from the spec: the reference-counting base class of
    EquivalenceSet (add_base_resource_ref, remove_base_resource_ref) is
    not among the sources.  Every set carries a reference count per
    source of references; removing a reference reports [true] when no
    reference of any source is left, and the caller then deletes the
    set. *)
Record Collectable : Set := mkCollectable {
  info_refs : nat;      (* VERSION_INFO_REF *)
  manager_refs : nat    (* VERSION_MANAGER_REF *)
}.

(** The live equivalence sets, by address. *)
Abbreviation Store := (gmap EquivalenceSet Collectable).

(** The count of one source, and its update. *)
Definition count (k : ReferenceSource) (c : Collectable) : nat :=
  match k with
  | VERSION_INFO_REF => info_refs c
  | VERSION_MANAGER_REF => manager_refs c
  end.

Definition set_count (k : ReferenceSource) (n : nat) (c : Collectable)
  : Collectable :=
  match k with
  | VERSION_INFO_REF => mkCollectable n (manager_refs c)
  | VERSION_MANAGER_REF => mkCollectable (info_refs c) n
  end.

(** Modelled from the spec: [set->add_base_resource_ref(k)] adds one
    reference of source [k] to a live set. *)
Definition add_base_resource_ref (h : Store) (e : EquivalenceSet)
    (k : ReferenceSource) : option Store :=
  c ← h !! e;
  Some (<[e := set_count k (S (count k c)) c]> h).

(** Modelled from the spec: [set->remove_base_resource_ref(k)] removes one
    reference of source [k] from a live set that holds one, and reports
    whether no reference of any source is left. *)
Definition remove_base_resource_ref (h : Store) (e : EquivalenceSet)
    (k : ReferenceSource) : option (bool * Store) :=
  c ← h !! e;
  match count k c with
  | O => None
  | S n =>
      let c' := set_count k n c in
      Some (bool_decide (info_refs c' = O ∧ manager_refs c' = O),
            <[e := c']> h)
  end.

(** [if (set->remove_base_resource_ref(k)) delete set;] *)
Definition release (k : ReferenceSource) (h : Store) (e : EquivalenceSet)
  : option Store :=
  '(gone, h') ← remove_base_resource_ref h e k;
  Some (if gone : bool then delete e h' else h').

(** The loop over [equivalence_sets] shared by VersionInfo::clear and
    VersionManager::reset. *)
Fixpoint release_all (k : ReferenceSource) (l : list EquivalenceSet)
    (h : Store) : option Store :=
  match l with
  | [] => Some h
  | e :: l' => h' ← release k h e; release_all k l' h'
  end.

(** How many references of source [k] the set at address [e] holds; a set
    that is not live holds none. *)
Definition refs_of (k : ReferenceSource) (h : Store) (e : EquivalenceSet)
  : nat :=
  match h !! e with Some c => count k c | None => O end.

(** *** VersionInfo *)

Record VersionInfo : Type := mkVersionInfo {
  equivalence_sets : gset EquivalenceSet
}.

(** [VersionInfo::VersionInfo(void)] *)
Definition VersionInfo_new : VersionInfo := mkVersionInfo ∅.

(** [VersionInfo::record_equivalence_set] *)
Definition record_equivalence_set (set : EquivalenceSet)
    (s : VersionInfo * Store) : option (VersionInfo * Store) :=
  let '(vi, h) := s in
  if decide (set ∈ equivalence_sets vi) then Some (vi, h)
  else
    h' ← add_base_resource_ref h set VERSION_INFO_REF;
    Some (mkVersionInfo ({[set]} ∪ equivalence_sets vi), h').

(** One call [request_valid_copy(ready_mask, exclusive, ...)] on a set. *)
Record ValidCopyRequest : Set := mkRequest {
  req_set : EquivalenceSet;
  req_mask : FieldMask;
  req_exclusive : bool
}.

(** [VersionInfo::make_ready]: the calls it issues, one per recorded
    set.  The calls go to different objects; their order is that of
    [elements].  [make_ready_with] leaves open what IS_WRITE computes. *)
Definition make_ready_with (is_write : RegionUsage → bool)
    (usage : RegionUsage) (ready_mask : FieldMask)
    (vi : VersionInfo) : list ValidCopyRequest :=
  let exclusive := is_write usage in
  (λ e, mkRequest e ready_mask exclusive) <$> elements (equivalence_sets vi).

Definition make_ready : RegionUsage → FieldMask → VersionInfo →
                        list ValidCopyRequest :=
  make_ready_with IS_WRITE.

(** [VersionInfo::clear] *)
Definition clear (s : VersionInfo * Store) : option (VersionInfo * Store) :=
  let '(vi, h) := s in
  if decide (equivalence_sets vi = ∅) then Some (vi, h)
  else
    h' ← release_all VERSION_INFO_REF (elements (equivalence_sets vi)) h;
    Some (mkVersionInfo ∅, h').

(** A client's calls on one VersionInfo. *)
Inductive Call : Set := RecordSet (e : EquivalenceSet) | Clear.

Definition call (c : Call) (s : VersionInfo * Store)
  : option (VersionInfo * Store) :=
  match c with
  | RecordSet e => record_equivalence_set e s
  | Clear => clear s
  end.

Fixpoint run (cs : list Call) (s : VersionInfo * Store)
  : option (VersionInfo * Store) :=
  match cs with
  | [] => Some s
  | c :: cs' => s' ← call c s; run cs' s'
  end.

(** *** VersionManager *)

Definition ContextID : Set := N.
Definition RegionTreeNode : Set := N.
Definition InnerContext : Set := N.
Definition RtUserEvent : Set := N.
(** [RtUserEvent::NO_RT_USER_EVENT] *)
Definition NO_RT_USER_EVENT : RtUserEvent := 0.

Record VersionManager : Type := mkVersionManager {
  ctx : ContextID;
  node : RegionTreeNode;
  current_context : option InnerContext;
  is_owner : bool;
  vm_equivalence_sets : gset EquivalenceSet;
  equivalence_sets_ready : RtUserEvent;
  has_equivalence_sets : bool
}.

(** [VersionManager::VersionManager(n, c)] *)
Definition VersionManager_new (n : RegionTreeNode) (c : ContextID)
  : VersionManager :=
  mkVersionManager c n None false ∅ NO_RT_USER_EVENT false.

(** [VersionManager::reset] *)
Definition reset (s : VersionManager * Store)
  : option (VersionManager * Store) :=
  let '(vm, h) := s in
  h' ← (if decide (vm_equivalence_sets vm = ∅) then Some h
        else release_all VERSION_MANAGER_REF
               (elements (vm_equivalence_sets vm)) h);
  Some (mkVersionManager (ctx vm) (node vm) None false ∅
          NO_RT_USER_EVENT false, h').

(** *** Predicates of the statements *)

(** The VERSION_INFO_REF count of every set is what it was in [h0], plus
    one exactly for the sets the VersionInfo stores. *)
Definition balanced (h0 : Store) (s : VersionInfo * Store) : Prop :=
  ∀ e, refs_of VERSION_INFO_REF s.2 e =
       (refs_of VERSION_INFO_REF h0 e +
        if decide (e ∈ equivalence_sets s.1) then 1 else 0)%nat.

(** Another holder (the owning VersionManager) keeps the set alive. *)
Definition pinned (h : Store) (e : EquivalenceSet) : Prop :=
  (0 < refs_of VERSION_MANAGER_REF h e)%nat.

(** The sets that calls leave stored in a VersionInfo that stored [acc]:
    every set recorded since the last clear. *)
Fixpoint recorded (cs : list Call) (acc : gset EquivalenceSet)
  : gset EquivalenceSet :=
  match cs with
  | [] => acc
  | RecordSet e :: cs' => recorded cs' ({[e]} ∪ acc)
  | Clear :: cs' => recorded cs' ∅
  end.

(** *** VersioningSet *)

(** A [VersionState*]: the address of the state. *)
Definition VersionState : Set := N.

(** The storage of a VersioningSet: the flag [single] with the union
    [versions], which holds [single_version] (NULL is [None]) when the
    flag is set and the pointer to the map [multi_versions], owned by the
    set, when it is not.  Flag and union are always written together. *)
Inductive Versions : Type :=
| single_version (v : option VersionState)
| multi_versions (m : gmap VersionState FieldMask).

Record VersioningSet : Type := mkVersioningSet {
  versions : Versions;
  vs_valid_fields : FieldMask
}.

(** The calls made on the version states:
    [state->add_base_valid_ref(REF_KIND, mutator)] and
    [if (state->remove_base_valid_ref(REF_KIND)) delete state]. *)
Inductive RefCall : Set :=
| AddValidRef (state : VersionState)
| RemoveValidRef (state : VersionState).

(** [VersioningSet::VersioningSet(void)] *)
Definition VersioningSet_new : VersioningSet :=
  mkVersioningSet (single_version None) 0.

Section RefKind.

(** [REF_KIND != LAST_SOURCE_REF]: the set holds a reference on each of
    its states. *)
Variable counted : bool.

(** [bool VersioningSet::insert(state, mask, mutator)]: the result, the
    set, and the calls made. *)
Definition VersioningSet_insert (this : VersioningSet) (state : VersionState)
    (mask : FieldMask) : bool * VersioningSet * list RefCall :=
  let valid_fields := vs_valid_fields this in
  let add := if counted then [AddValidRef state] else [] in
  match versions this with
  | single_version None =>
      (true, mkVersioningSet (single_version (Some state)) mask, add)
  | single_version (Some s) =>
      if bool_decide (s = state)
      then (false,
            mkVersioningSet (single_version (Some s))
              (fm_or valid_fields mask), [])
      else (true,
            mkVersioningSet
              (multi_versions (<[state := mask]> (<[s := valid_fields]> ∅)))
              (fm_or valid_fields mask), add)
  | multi_versions m =>
      match m !! state with
      | None =>
          (true,
           mkVersioningSet (multi_versions (<[state := mask]> m))
             (fm_or valid_fields mask), add)
      | Some f =>
          (false,
           mkVersioningSet (multi_versions (<[state := fm_or f mask]> m))
             (fm_or valid_fields mask), [])
      end
  end.

(** [VersioningSet::erase].  In single storage the state held is erased
    whatever [to_erase] is (the assertion that they agree is compiled in
    under DEBUG_LEGION only).  In the map, [finder] is dereferenced
    whether or not the state was found; the test
    [multi_versions->size() == 1] is the match on the list of the entries
    left, whose one entry is [multi_versions->begin()]. *)
Definition VersioningSet_erase (this : VersioningSet)
    (to_erase : VersionState) : option (VersioningSet * list RefCall) :=
  let remove := if counted then [RemoveValidRef to_erase] else [] in
  match versions this with
  | single_version _ =>
      Some (mkVersioningSet (single_version None) fm_clear, remove)
  | multi_versions m =>
      f ← m !! to_erase;
      let valid_fields := fm_diff (vs_valid_fields this) f in
      let m := delete to_erase m in
      match map_to_list m with
      | [(first, f1)] =>
          Some (mkVersioningSet (single_version (Some first)) f1, remove)
      | _ => Some (mkVersioningSet (multi_versions m) valid_fields, remove)
      end
  end.

(** [VersioningSet::clear] *)
Definition VersioningSet_clear (this : VersioningSet)
  : VersioningSet * list RefCall :=
  (mkVersioningSet (single_version None) fm_clear,
   if counted then
     match versions this with
     | single_version None => []
     | single_version (Some s) => [RemoveValidRef s]
     | multi_versions m => (λ kv, RemoveValidRef kv.1) <$> map_to_list m
     end
   else []).

End RefKind.

(** [VersioningSet::size] *)
Definition VersioningSet_size (this : VersioningSet) : nat :=
  match versions this with
  | single_version None => 0
  | single_version (Some _) => 1
  | multi_versions m => size m
  end.

(** [VersioningSet::operator[]]: in single storage the state is not
    looked at (the assertion is compiled in under DEBUG_LEGION only). *)
Definition VersioningSet_get (this : VersioningSet) (state : VersionState)
  : option FieldMask :=
  match versions this with
  | single_version _ => Some (vs_valid_fields this)
  | multi_versions m => m !! state
  end.

(** *** Predicates of the statements *)

(** The states of a set with their fields, whatever the storage. *)
Definition entries (this : VersioningSet) : gmap VersionState FieldMask :=
  match versions this with
  | single_version None => ∅
  | single_version (Some s) => {[s := vs_valid_fields this]}
  | multi_versions m => m
  end.

(** [valid_fields] is the union of the fields of the states, and the map
    is in use only for two states or more. *)
Definition vs_wf (this : VersioningSet) : Prop :=
  (∀ i, N.testbit (vs_valid_fields this) i = true ↔
        ∃ (s : VersionState) (f : FieldMask),
          entries this !! s = Some f ∧ N.testbit f i = true) ∧
  match versions this with
  | single_version _ => True
  | multi_versions m => (2 ≤ size m)%nat
  end.

(** What sanity_check asserts: each field exists once. *)
Definition each_field_once (this : VersioningSet) : Prop :=
  ∀ (s1 s2 : VersionState) (f1 f2 : FieldMask),
    entries this !! s1 = Some f1 → entries this !! s2 = Some f2 →
    s1 ≠ s2 → fm_and f1 f2 = 0.

(** The references the calls add to a state, less those they remove. *)
Definition ref_delta (s : VersionState) (c : RefCall) : Z :=
  match c with
  | AddValidRef s' => if bool_decide (s' = s) then 1%Z else 0%Z
  | RemoveValidRef s' => if bool_decide (s' = s) then (-1)%Z else 0%Z
  end.

Definition net_references (calls : list RefCall) (s : VersionState) : Z :=
  foldr (λ c acc, (ref_delta s c + acc)%Z) 0%Z calls.

(** The references a set holds on a state. *)
Definition held (counted : bool) (this : VersioningSet) (s : VersionState)
  : Z :=
  if counted then
    match entries this !! s with Some _ => 1%Z | None => 0%Z end
  else 0%Z.

(** *** VersionManager: the response of the owner *)

Definition DistributedID : Set := N.

(** Modelled from the spec: Serializer and Deserializer are not among the
    sources.  A message is the sequence of the values serialized, in
    order; the pointer to the remote manager, the number of sets and the
    distributed ids are all kept as numbers. *)
Definition Message : Set := list N.

Section Responses.

(** [set->did] *)
Variable did : EquivalenceSet → DistributedID.
(** [runtime->find_or_request_equivalence_set(did, ready)]; the events
    the caller waits for are not tracked. *)
Variable find_or_request_equivalence_set : DistributedID → EquivalenceSet.

(** [VersionManager::send_response]: the message sent to the target. *)
Definition send_response (vm : VersionManager) (remote_manager : N)
  : Message :=
  remote_manager
  :: N.of_nat (size (vm_equivalence_sets vm))
  :: (did <$> elements (vm_equivalence_sets vm)).

(** The loop [for (idx < num_sets)] of process_response: the sets, and
    the rest of the message; [None] when the message ends early. *)
Fixpoint receive_sets (num_sets : nat) (derez : Message)
    (sets : gset EquivalenceSet) : option (gset EquivalenceSet * Message) :=
  match num_sets with
  | O => Some (sets, derez)
  | S n =>
      match derez with
      | d :: derez =>
          receive_sets n derez
            ({[find_or_request_equivalence_set d]} ∪ sets)
      | [] => None
      end
  end.

(** The loop that adds a VERSION_MANAGER_REF to every set. *)
Fixpoint reference_all (l : list EquivalenceSet) (h : Store)
  : option Store :=
  match l with
  | [] => Some h
  | e :: l' =>
      h' ← add_base_resource_ref h e VERSION_MANAGER_REF;
      reference_all l' h'
  end.

(** [VersionManager::process_response]: the manager, the reference store
    and the rest of the message.  Waiting for the sets requested and
    triggering [equivalence_sets_ready] change neither. *)
Definition process_response (derez : Message) (s : VersionManager * Store)
  : option (VersionManager * Store * Message) :=
  let '(vm, h) := s in
  match derez with
  | num_sets :: derez =>
      '(sets, derez) ←
        receive_sets (N.to_nat num_sets) derez (vm_equivalence_sets vm);
      h' ← reference_all (elements sets) h;
      Some (mkVersionManager (ctx vm) (node vm) (current_context vm)
              (is_owner vm) sets (equivalence_sets_ready vm)
              (has_equivalence_sets vm),
            h', derez)
  | [] => None
  end.

(** [VersionManager::handle_response]: the manager the message names is
    looked up among the managers of the node, by address. *)
Definition handle_response (derez : Message)
    (managers : gmap N VersionManager) (h : Store)
  : option (gmap N VersionManager * Store * Message) :=
  match derez with
  | local_manager :: derez =>
      vm ← managers !! local_manager;
      '(vm', h', derez) ← process_response derez (vm, h);
      Some (<[local_manager := vm']> managers, h', derez)
  | [] => None
  end.

End Responses.

(** *** Examples *)

(** A set in single storage: state 5 with fields 0 and 1. *)
Definition single_versions_ex : VersioningSet :=
  mkVersioningSet (single_version (Some 5)) 3.

(** Sets in map storage: state 5 with fields 0 and 1 and state 6 with
    field 2; and the same with state 7 and field 3 besides. *)
Definition two_versions_ex : VersioningSet :=
  mkVersioningSet (multi_versions {[ 5 := 3; 6 := 4 ]}) 7.
Definition three_versions_ex : VersioningSet :=
  mkVersioningSet (multi_versions {[ 5 := 3; 6 := 4; 7 := 8 ]}) 15.

(** Two live equivalence sets, at addresses 3 and 4, found under the
    distributed ids 13 and 14. *)
Definition store_ex : Store :=
  {[ 3 := mkCollectable 1 0; 4 := mkCollectable 0 0 ]}.
Definition set_did_ex (e : EquivalenceSet) : DistributedID := e + 10.
Definition find_set_ex (d : DistributedID) : EquivalenceSet := d - 10.

End Versioning.

(* ===================================================================== *)
(** ** Restrictions and acquisitions *)
(* ===================================================================== *)

Module Restrictions.

(** A [RegionNode*], a [PhysicalManager*]: addresses. *)
Definition RegionNode : Set := N.
Definition PhysicalManager : Set := N.
Definition RegionTreeID : Set := N.

Inductive LegionError : Set :=
| ERROR_ILLEGAL_PARTIAL_ACQUIRE
| ERROR_ILLEGAL_INTERFERING_RESTRICTON
| ERROR_ILLEGAL_INTERFERING_ACQUIRE
| ERROR_ILLEGAL_PARTIAL_RESTRICTION.

(** Modelled from the spec: the REPORT_LEGION_ERROR macro is not among the
    sources.  The errors it reports here are fatal for the operation: the
    call stops there and nothing it would have done afterwards happens. *)
Inductive Outcome (A : Type) : Type :=
| Done (a : A)
| Fatal (e : LegionError).
Arguments Done {A} a.
Arguments Fatal {A} e.

(** A Restriction owns its acquisitions ([std::set<Acquisition*>]) and an
    Acquisition owns the restrictions nested in it.  The sets are kept as
    lists in iteration order, which is the order of the addresses; a new
    object is taken to iterate last.
    The reference counts taken on the instances' managers are not
    tracked here. *)
Inductive Restriction : Type :=
| mkRestriction (tree_id : RegionTreeID) (local_node : RegionNode)
    (restricted_fields : FieldMask)
    (instances : gmap PhysicalManager FieldMask)
    (acquisitions : list Acquisition)
with Acquisition : Type :=
| mkAcquisition (local_node : RegionNode) (acquired_fields : FieldMask)
    (restrictions : list Restriction).

Definition tree_id (r : Restriction) : RegionTreeID :=
  let '(mkRestriction t _ _ _ _) := r in t.
Definition restricted_fields (r : Restriction) : FieldMask :=
  let '(mkRestriction _ _ f _ _) := r in f.
Definition instances (r : Restriction) : gmap PhysicalManager FieldMask :=
  let '(mkRestriction _ _ _ i _) := r in i.
Definition acquisitions (r : Restriction) : list Acquisition :=
  let '(mkRestriction _ _ _ _ a) := r in a.
Definition r_local_node (r : Restriction) : RegionNode :=
  let '(mkRestriction _ n _ _ _) := r in n.
Definition acquired_fields (a : Acquisition) : FieldMask :=
  let '(mkAcquisition _ f _) := a in f.
Definition restrictions (a : Acquisition) : list Restriction :=
  let '(mkAcquisition _ _ r) := a in r.
Definition a_local_node (a : Acquisition) : RegionNode :=
  let '(mkAcquisition n _ _) := a in n.

(** The loop
    [for (it ...) { it->f(..., fields); if (!fields) return; }]
    over owned children: every child visited may change, and the loop
    stops after the first call that leaves no field. *)
Definition offer_each {A : Type}
    (f : A → FieldMask → Outcome (A * FieldMask))
  : list A → FieldMask → Outcome (list A * FieldMask) :=
  fix go (l : list A) (fields : FieldMask) :=
    match l with
    | [] => Done ([], fields)
    | x :: l' =>
        match f x fields with
        | Fatal e => Fatal e
        | Done (x', fields') =>
            if fm_empty fields' then Done (x' :: l', fields')
            else
              match go l' fields' with
              | Fatal e => Fatal e
              | Done (l'', fields'') => Done (x' :: l'', fields'')
              end
        end
    end.

(** The same loop for calls that cannot fail. *)
Definition pass_each {A : Type} (f : A → FieldMask → A * FieldMask)
  : list A → FieldMask → list A * FieldMask :=
  fix go (l : list A) (fields : FieldMask) :=
    match l with
    | [] => ([], fields)
    | x :: l' =>
        let '(x', fields') := f x fields in
        if fm_empty fields' then (x' :: l', fields')
        else let '(l'', fields'') := go l' fields' in (x' :: l'', fields'')
    end.

(** The loop of the two remove_ methods that delete matching children:
    [if (it->matches(..)) to_delete.push_back(it);
     else if (!!remaining) it->remove(..);
     if (!remaining) break;]
    followed by the erasure of the children in [to_delete].  [matches]
    updates the child in place before [remove] runs on it: [descend]
    receives the child as it was, on which the recursion is structural,
    and the child as [matches] left it. *)
Definition sweep_each {A : Type}
    (matches : A → FieldMask → bool * A * FieldMask)
    (descend : A → A → FieldMask → A * FieldMask)
  : list A → FieldMask → list A * FieldMask :=
  fix go (l : list A) (remaining : FieldMask) :=
    match l with
    | [] => ([], remaining)
    | x :: l' =>
        let '(matched, x1, rem1) := matches x remaining in
        let '(keep, rem2) :=
          if matched : bool then ([], rem1)
          else if negb (fm_empty rem1)
               then let '(x2, r2) := descend x x1 rem1 in ([x2], r2)
               else ([x1], rem1) in
        if fm_empty rem2 then (keep ++ l', rem2)
        else let '(l'', rem3) := go l' rem2 in (keep ++ l'', rem3)
    end.

(** [overlap -= child.fields; if (!overlap) return false;] over the
    children, as in the two matches methods: [None] stands for the early
    [return false]. *)
Fixpoint strip_each (child_fields : list FieldMask) (overlap : FieldMask)
  : option FieldMask :=
  match child_fields with
  | [] => Some overlap
  | f :: l' =>
      let overlap' := fm_diff overlap f in
      if fm_empty overlap' then None else strip_each l' overlap'
  end.

(** [Acquisition::matches] *)
Definition Acquisition_matches (a : Acquisition) (node : RegionNode)
    (remaining_fields : FieldMask) : bool * Acquisition * FieldMask :=
  let '(mkAcquisition local_node acquired rs) := a in
  if negb (bool_decide (local_node = node)) then (false, a, remaining_fields)
  else
    let overlap := fm_and remaining_fields acquired in
    if fm_empty overlap then (false, a, remaining_fields)
    else
      match strip_each (restricted_fields <$> rs) overlap with
      | None => (false, a, remaining_fields)
      | Some overlap =>
          let remaining_fields := fm_diff remaining_fields overlap in
          let acquired := fm_diff acquired overlap in
          (fm_empty acquired, mkAcquisition local_node acquired rs,
           remaining_fields)
      end.

(** The filter of [instances] at the end of Restriction::matches. *)
Definition filter_instances (overlap : FieldMask)
    (insts : gmap PhysicalManager FieldMask)
  : gmap PhysicalManager FieldMask :=
  filter (λ kv, fm_empty kv.2 = false) ((λ m, fm_diff m overlap) <$> insts).

(** [Restriction::matches] *)
Definition Restriction_matches (r : Restriction) (node : RegionNode)
    (remaining_fields : FieldMask) : bool * Restriction * FieldMask :=
  let '(mkRestriction tid local_node restricted insts acqs) := r in
  if negb (bool_decide (local_node = node)) then (false, r, remaining_fields)
  else
    let overlap := fm_and remaining_fields restricted in
    if fm_empty overlap then (false, r, remaining_fields)
    else
      match strip_each (acquired_fields <$> acqs) overlap with
      | None => (false, r, remaining_fields)
      | Some overlap =>
          let remaining_fields := fm_diff remaining_fields overlap in
          let restricted := fm_diff restricted overlap in
          if fm_empty restricted
          then (true, mkRestriction tid local_node restricted insts acqs,
                remaining_fields)
          else (false,
                mkRestriction tid local_node restricted
                  (filter_instances overlap insts) acqs,
                remaining_fields)
      end.

Section Forest.

(** The region forest: [a->dominates(b)] and [a->intersects_with(b)]. *)
Variable dominates : RegionNode → RegionNode → bool.
Variable intersects_with : RegionNode → RegionNode → bool.

(** [Restriction::add_acquisition] and [Acquisition::add_acquisition] *)
Fixpoint Restriction_add_acquisition (r : Restriction) (node : RegionNode)
    (remaining_fields : FieldMask) {struct r}
  : Outcome (Restriction * FieldMask) :=
  let '(mkRestriction tid local_node restricted insts acqs) := r in
  let overlap := fm_and restricted remaining_fields in
  if fm_empty overlap then Done (r, remaining_fields)
  else if negb (dominates local_node node)
  then
    if intersects_with local_node node
    then Fatal ERROR_ILLEGAL_PARTIAL_ACQUIRE
    else Done (r, remaining_fields)
  else
    let remaining_fields := fm_diff remaining_fields overlap in
    match offer_each (λ a m, Acquisition_add_acquisition a node m)
            acqs overlap with
    | Fatal e => Fatal e
    | Done (acqs', overlap) =>
        if fm_empty overlap
        then Done (mkRestriction tid local_node restricted insts acqs',
                   remaining_fields)
        else Done (mkRestriction tid local_node restricted insts
                     (acqs' ++ [mkAcquisition node overlap []]),
                   remaining_fields)
    end
with Acquisition_add_acquisition (a : Acquisition) (node : RegionNode)
    (remaining_fields : FieldMask) {struct a}
  : Outcome (Acquisition * FieldMask) :=
  let '(mkAcquisition local_node acquired rs) := a in
  if fm_disjoint acquired remaining_fields then Done (a, remaining_fields)
  else if negb (intersects_with local_node node)
  then Done (a, remaining_fields)
  else
    match offer_each (λ r m, Restriction_add_acquisition r node m)
            rs remaining_fields with
    | Fatal e => Fatal e
    | Done (rs', remaining_fields) =>
        if fm_empty remaining_fields
        then Done (mkAcquisition local_node acquired rs', remaining_fields)
        else Fatal ERROR_ILLEGAL_INTERFERING_ACQUIRE
    end.

(** [Restriction::remove_acquisition] and
    [Acquisition::remove_acquisition].  The latter runs on a child whose
    [acquired_fields] Acquisition::matches may just have reduced: the
    current mask is passed next to the child. *)
Fixpoint Restriction_remove_acquisition (r : Restriction)
    (node : RegionNode) (remaining_fields : FieldMask) {struct r}
  : Restriction * FieldMask :=
  let '(mkRestriction tid local_node restricted insts acqs) := r in
  if fm_disjoint restricted remaining_fields then (r, remaining_fields)
  else if negb (intersects_with local_node node)
  then (r, remaining_fields)
  else
    let '(acqs', remaining_fields) :=
      sweep_each (λ a m, Acquisition_matches a node m)
        (λ a a1 m,
           Acquisition_remove_acquisition_at a (acquired_fields a1) node m)
        acqs remaining_fields in
    (mkRestriction tid local_node restricted insts acqs', remaining_fields)
with Acquisition_remove_acquisition_at (a : Acquisition)
    (acquired : FieldMask) (node : RegionNode)
    (remaining_fields : FieldMask) {struct a}
  : Acquisition * FieldMask :=
  let '(mkAcquisition local_node _ rs) := a in
  if fm_disjoint acquired remaining_fields
  then (mkAcquisition local_node acquired rs, remaining_fields)
  else if negb (dominates local_node node)
  then (mkAcquisition local_node acquired rs, remaining_fields)
  else
    let '(rs', remaining_fields) :=
      pass_each (λ r m, Restriction_remove_acquisition r node m)
        rs remaining_fields in
    (mkAcquisition local_node acquired rs', remaining_fields).

Definition Acquisition_remove_acquisition (a : Acquisition)
    (node : RegionNode) (remaining_fields : FieldMask)
  : Acquisition * FieldMask :=
  Acquisition_remove_acquisition_at a (acquired_fields a) node
    remaining_fields.

(** [Restriction::remove_restriction] and
    [Acquisition::remove_restriction].  The former runs on a child whose
    [restricted_fields] and [instances] Restriction::matches may just
    have reduced: both are passed next to the child. *)
Fixpoint Restriction_remove_restriction_at (r : Restriction)
    (restricted : FieldMask) (insts : gmap PhysicalManager FieldMask)
    (node : RegionNode) (remaining_fields : FieldMask) {struct r}
  : Restriction * FieldMask :=
  let '(mkRestriction tid local_node _ _ acqs) := r in
  if fm_disjoint restricted remaining_fields
  then (mkRestriction tid local_node restricted insts acqs,
        remaining_fields)
  else if negb (dominates local_node node)
  then (mkRestriction tid local_node restricted insts acqs,
        remaining_fields)
  else
    let '(acqs', remaining_fields) :=
      pass_each (λ a m, Acquisition_remove_restriction a node m)
        acqs remaining_fields in
    (mkRestriction tid local_node restricted insts acqs', remaining_fields)
with Acquisition_remove_restriction (a : Acquisition) (node : RegionNode)
    (remaining_fields : FieldMask) {struct a}
  : Acquisition * FieldMask :=
  let '(mkAcquisition local_node acquired rs) := a in
  if fm_disjoint acquired remaining_fields then (a, remaining_fields)
  else if negb (intersects_with local_node node)
  then (a, remaining_fields)
  else
    let '(rs', remaining_fields) :=
      sweep_each (λ r m, Restriction_matches r node m)
        (λ r r1 m,
           Restriction_remove_restriction_at r (restricted_fields r1)
             (instances r1) node m)
        rs remaining_fields in
    (mkAcquisition local_node acquired rs', remaining_fields).

Definition Restriction_remove_restriction (r : Restriction)
    (node : RegionNode) (remaining_fields : FieldMask)
  : Restriction * FieldMask :=
  Restriction_remove_restriction_at r (restricted_fields r) (instances r)
    node remaining_fields.

(** Modelled from the spec: the per-context coordinator that owns the
    top-level restrictions is not among the sources.  It keeps them in
    a list and offers each operation to every restriction in turn, with
    the fields still unaccounted for, until none is left: an acquire
    through add_acquisition, a release through remove_acquisition, and
    a detach through matches, deleting the restriction when matches
    returns true and descending with remove_restriction otherwise. *)
Definition record_acquire (tracker : list Restriction) (node : RegionNode)
    (fields : FieldMask) : Outcome (list Restriction * FieldMask) :=
  offer_each (λ r m, Restriction_add_acquisition r node m) tracker fields.

Definition record_release (tracker : list Restriction) (node : RegionNode)
    (fields : FieldMask) : list Restriction * FieldMask :=
  pass_each (λ r m, Restriction_remove_acquisition r node m)
    tracker fields.

Definition record_detach (tracker : list Restriction) (node : RegionNode)
    (fields : FieldMask) : list Restriction * FieldMask :=
  sweep_each (λ r m, Restriction_matches r node m)
    (λ r r1 m,
       Restriction_remove_restriction_at r (restricted_fields r1)
         (instances r1) node m)
    tracker fields.


End Forest.

(** *** RestrictInfo *)

(** [RestrictInfo]: the restricted instances found for a region
    requirement, with the fields each one restricts.  The cache
    [restricted_instances] that get_instances fills and the reference
    counts taken on the managers are not tracked here. *)
Record RestrictInfo : Type := mkRestrictInfo {
  ri_restrictions : gmap PhysicalManager FieldMask
}.

(** [RestrictInfo::RestrictInfo(void)] *)
Definition RestrictInfo_new : RestrictInfo := mkRestrictInfo ∅.

(** [RestrictInfo::record_restriction] *)
Definition record_restriction (info : RestrictInfo) (inst : PhysicalManager)
    (mask : FieldMask) : RestrictInfo :=
  match ri_restrictions info !! inst with
  | None => mkRestrictInfo (<[inst := mask]> (ri_restrictions info))
  | Some m => mkRestrictInfo (<[inst := fm_or m mask]> (ri_restrictions info))
  end.

(** [Restriction::add_restricted_instance] *)
Definition add_restricted_instance (r : Restriction) (inst : PhysicalManager)
    (inst_fields : FieldMask) : Restriction :=
  let '(mkRestriction tid local_node restricted insts acqs) := r in
  mkRestriction tid local_node (fm_or restricted inst_fields)
    (match insts !! inst with
     | None => <[inst := inst_fields]> insts
     | Some m => <[inst := fm_or m inst_fields]> insts
     end)
    acqs.

(** The loop over [instances] that records the restrictions in
    [Restriction::find_restrictions]. *)
Definition record_overlaps (restricted : FieldMask)
    (insts : gmap PhysicalManager FieldMask) (info : RestrictInfo)
  : RestrictInfo :=
  map_fold
    (λ inst m info,
       let overlap := fm_and m restricted in
       if fm_empty overlap then info
       else record_restriction info inst overlap)
    info insts.

(** The loop
    [for (it ...) { it->find_restrictions(node, possibly_restricted, info);
                    if (!possibly_restricted) return; }]. *)
Definition find_each {A : Type}
    (f : A → FieldMask → RestrictInfo → FieldMask * RestrictInfo)
  : list A → FieldMask → RestrictInfo → FieldMask * RestrictInfo :=
  fix go (l : list A) (possibly_restricted : FieldMask)
      (info : RestrictInfo) :=
    match l with
    | [] => (possibly_restricted, info)
    | x :: l' =>
        let '(possibly_restricted, info) := f x possibly_restricted info in
        if fm_empty possibly_restricted then (possibly_restricted, info)
        else go l' possibly_restricted info
    end.

Section Attach.

Variable dominates : RegionNode → RegionNode → bool.
Variable intersects_with : RegionNode → RegionNode → bool.
(** [n->handle.get_tree_id()] *)
Variable get_tree_id : RegionNode → RegionTreeID.

(** [Restriction::Restriction(RegionNode *n)] *)
Definition Restriction_new (n : RegionNode) : Restriction :=
  mkRestriction (get_tree_id n) n 0 ∅ [].

(** [Restriction::find_restrictions] and [Acquisition::find_restrictions]:
    what is left of [possibly_restricted], and [restrict_info]. *)
Fixpoint Restriction_find_restrictions (r : Restriction) (node : RegionNode)
    (possibly_restricted : FieldMask) (restrict_info : RestrictInfo)
    {struct r} : FieldMask * RestrictInfo :=
  let '(mkRestriction tid local_node restricted_fields insts acqs) := r in
  if negb (intersects_with local_node node)
  then (possibly_restricted, restrict_info)
  else
    let '(possibly_restricted, restrict_info) :=
      find_each (λ a m i, Acquisition_find_restrictions a node m i)
        acqs possibly_restricted restrict_info in
    if fm_empty possibly_restricted
    then (possibly_restricted, restrict_info)
    else
      let restricted := fm_and possibly_restricted restricted_fields in
      if negb (fm_empty restricted)
      then (fm_diff possibly_restricted restricted,
            record_overlaps restricted insts restrict_info)
      else (possibly_restricted, restrict_info)
with Acquisition_find_restrictions (a : Acquisition) (node : RegionNode)
    (possibly_restricted : FieldMask) (restrict_info : RestrictInfo)
    {struct a} : FieldMask * RestrictInfo :=
  let '(mkAcquisition local_node acquired rs) := a in
  if fm_disjoint acquired possibly_restricted
  then (possibly_restricted, restrict_info)
  else if negb (intersects_with local_node node)
  then (possibly_restricted, restrict_info)
  else
    let '(possibly_restricted, restrict_info) :=
      find_each (λ r m i, Restriction_find_restrictions r node m i)
        rs possibly_restricted restrict_info in
    if fm_empty possibly_restricted
    then (possibly_restricted, restrict_info)
    else
      let overlap := fm_and acquired possibly_restricted in
      if negb (fm_empty overlap) && dominates local_node node
      then (fm_diff possibly_restricted overlap, restrict_info)
      else (possibly_restricted, restrict_info).

(** [Restriction::add_restriction] and [Acquisition::add_restriction] *)
Fixpoint Restriction_add_restriction (r : Restriction) (node : RegionNode)
    (inst : PhysicalManager) (remaining_fields : FieldMask) {struct r}
  : Outcome (Restriction * FieldMask) :=
  let '(mkRestriction tid local_node restricted insts acqs) := r in
  if fm_disjoint restricted remaining_fields then Done (r, remaining_fields)
  else if negb (intersects_with local_node node)
  then Done (r, remaining_fields)
  else
    match offer_each (λ a m, Acquisition_add_restriction a node inst m)
            acqs remaining_fields with
    | Fatal e => Fatal e
    | Done (acqs', remaining_fields) =>
        if fm_empty remaining_fields
        then Done (mkRestriction tid local_node restricted insts acqs',
                   remaining_fields)
        else Fatal ERROR_ILLEGAL_INTERFERING_RESTRICTON
    end
with Acquisition_add_restriction (a : Acquisition) (node : RegionNode)
    (manager : PhysicalManager) (remaining_fields : FieldMask) {struct a}
  : Outcome (Acquisition * FieldMask) :=
  let '(mkAcquisition local_node acquired rs) := a in
  let overlap := fm_and remaining_fields acquired in
  if fm_empty overlap then Done (a, remaining_fields)
  else if negb (dominates local_node node)
  then
    if intersects_with local_node node
    then Fatal ERROR_ILLEGAL_PARTIAL_RESTRICTION
    else Done (a, remaining_fields)
  else
    let remaining_fields := fm_diff remaining_fields overlap in
    match offer_each (λ r m, Restriction_add_restriction r node manager m)
            rs overlap with
    | Fatal e => Fatal e
    | Done (rs', overlap) =>
        if fm_empty overlap
        then Done (mkAcquisition local_node acquired rs', remaining_fields)
        else
          let restriction :=
            add_restricted_instance (Restriction_new node) manager overlap in
          Done (mkAcquisition local_node acquired (rs' ++ [restriction]),
                remaining_fields)
    end.

End Attach.

(** *** Predicates of the statements *)

(** Field [i] is reported restricted in [info]. *)
Definition reported (info : RestrictInfo) (i : N) : Prop :=
  ∃ (inst : PhysicalManager) (m : FieldMask),
    ri_restrictions info !! inst = Some m ∧ N.testbit m i = true.

(** [info'] holds everything [info] holds. *)
Definition info_grows (info info' : RestrictInfo) : Prop :=
  ∀ (inst : PhysicalManager) (m : FieldMask),
    ri_restrictions info !! inst = Some m →
    ∃ m' : FieldMask,
      ri_restrictions info' !! inst = Some m' ∧ fm_subset m m'.

(** The restricted fields of a restriction are the fields of its
    instances, and every instance has a field. *)
Definition covered_by_instances (r : Restriction) : Prop :=
  (∀ i, N.testbit (restricted_fields r) i = true ↔
        ∃ (inst : PhysicalManager) (m : FieldMask),
          instances r !! inst = Some m ∧ N.testbit m i = true) ∧
  (∀ (inst : PhysicalManager) (m : FieldMask),
     instances r !! inst = Some m → m ≠ 0).

(** One call of find_restrictions, from [possibly_restricted] and [info]
    to what it leaves: no field is added to the mask, nothing recorded is
    lost, and a field newly reported was in the mask and has left it. *)
Definition find_step (pr : FieldMask) (info : RestrictInfo)
    (pr' : FieldMask) (info' : RestrictInfo) : Prop :=
  fm_subset pr' pr ∧ info_grows info info' ∧
  ∀ i, reported info' i →
       reported info i ∨
       (N.testbit pr i = true ∧ N.testbit pr' i = false).

(** A restriction that holds none of the fields [f], neither restricted
    nor acquired under it. *)
Definition holds_none (r : Restriction) (f : FieldMask) : Prop :=
  fm_disjoint (restricted_fields r) f = true ∧
  ∀ a, a ∈ acquisitions r → fm_disjoint (acquired_fields a) f = true.

(** *** Examples *)

(** A forest for the examples: a node dominates, and intersects, itself
    only; every node lies in tree 0. *)
Definition same_node (a b : RegionNode) : bool := bool_decide (a = b).
Definition tree_zero (n : RegionNode) : RegionTreeID := 0.

(** A restriction at node 1 on fields 0, 1 and 2, through instance 8 with
    fields 0 and 1 and instance 9 with fields 1 and 2. *)
Definition restriction_ex : Restriction :=
  mkRestriction 0 1 7 {[ 8 := 3; 9 := 6 ]} [].

End Restrictions.

(* ===================================================================== *)
(** ** Logical analysis: field states, projection epochs, logical state *)
(* ===================================================================== *)

Module Logical.

Definition LegionColor : Set := N.
(** A [ProjectionFunction*], an [IndexSpaceNode*], an [Operation*]:
    addresses; NULL is [None] where a field may be NULL. *)
Definition ProjectionFunction : Set := N.
Definition IndexSpaceNode : Set := N.
Definition Operation : Set := N.
Definition GenerationID : Set := N.
Definition RegionTreeNode : Set := N.

Inductive OpenState : Set :=
| NOT_OPEN
| OPEN_READ_ONLY
| OPEN_READ_WRITE
| OPEN_SINGLE_REDUCE
| OPEN_MULTI_REDUCE
| OPEN_READ_ONLY_PROJ
| OPEN_READ_WRITE_PROJ
| OPEN_READ_WRITE_PROJ_DISJOINT_SHALLOW
| OPEN_REDUCE_PROJ
| OPEN_REDUCE_PROJ_DIRTY.

#[export] Instance OpenState_eq_dec : EqDecision OpenState.
Proof. solve_decision. Defined.

(** [GenericUser] *)
Record GenericUser : Set := mkGenericUser {
  usage : RegionUsage;
  field_mask : FieldMask
}.

(** [LogicalUser] *)
Record LogicalUser : Set := mkLogicalUser {
  lu_user : GenericUser;
  op : Operation;
  idx : N;
  gen : GenerationID;
  timeout : N
}.

(** [FieldState] (with the members of its base ChildState) *)
Record FieldState : Type := mkFieldState {
  valid_fields : FieldMask;
  open_children : gmap LegionColor FieldMask;
  open_state : OpenState;
  fs_redop : ReductionOpID;
  projection : option ProjectionFunction;
  projection_space : option IndexSpaceNode;
  rebuild_timeout : N
}.

(** [FieldState::FieldState(void)] *)
Definition FieldState_default : FieldState :=
  mkFieldState 0 ∅ NOT_OPEN 0 None None 1.

Section PrivilegeTests.

(** The three tests of the constructor below, whatever they compute. *)
Variables is_read_only is_write is_reduce : RegionUsage → bool.
(** The constructor leaves [open_state] unset when no test holds. *)
Variable unset : OpenState.

(** [FieldState::FieldState(const GenericUser &user, const FieldMask &m,
    const LegionColor c)] *)
Definition FieldState_of_user_with (user : GenericUser) (m : FieldMask)
    (c : LegionColor) : FieldState :=
  let '(st, r) :=
    if is_read_only (usage user) then (OPEN_READ_ONLY, 0)
    else if is_write (usage user) then (OPEN_READ_WRITE, 0)
    else if is_reduce (usage user)
         then (OPEN_SINGLE_REDUCE, redop (usage user))
         else (unset, 0) in
  mkFieldState m {[c := m]} st r None None 1.

End PrivilegeTests.

Definition FieldState_of_user : GenericUser → FieldMask → LegionColor →
                                FieldState :=
  FieldState_of_user_with IS_READ_ONLY IS_WRITE IS_REDUCE NOT_OPEN.

(** The open states the assertions of [overlaps] admit next to a non-zero
    redop. *)
Definition reduce_state (s : OpenState) : bool :=
  match s with
  | OPEN_SINGLE_REDUCE | OPEN_MULTI_REDUCE
  | OPEN_REDUCE_PROJ | OPEN_REDUCE_PROJ_DIRTY => true
  | _ => false
  end.

(** [FieldState::overlaps] (the assertions are compiled in under
    DEBUG_LEGION only) *)
Definition overlaps (this rhs : FieldState) : bool :=
  if negb (bool_decide (fs_redop this = fs_redop rhs)) then false
  else if negb (bool_decide (projection this = projection rhs)) then false
  else if bool_decide (projection this ≠ None)
          && negb (bool_decide (projection_space this = projection_space rhs))
  then false
  else if bool_decide (fs_redop this = 0)
  then bool_decide (open_state this = open_state rhs)
  else bool_decide (valid_fields this = valid_fields rhs).

(** *** Projection epochs *)

Definition ProjectionEpochID : Set := N.

(** Modelled from the spec: the typedef of ProjectionEpochID is not among
    the sources.  The id is an unsigned 64-bit counter, and this is
    [epoch_id + 1] in it. *)
Definition epoch_succ (k : ProjectionEpochID) : ProjectionEpochID :=
  (k + 1) mod 2 ^ 64.

Record ProjectionEpoch : Type := mkProjectionEpoch {
  epoch_id : ProjectionEpochID;
  pe_valid_fields : FieldMask;
  write_projections : gmap ProjectionFunction (gset IndexSpaceNode)
}.

(** [ProjectionEpoch::ProjectionEpoch(id, m)] *)
Definition ProjectionEpoch_new (id : ProjectionEpochID) (m : FieldMask)
  : ProjectionEpoch := mkProjectionEpoch id m ∅.

Definition with_fields (e : ProjectionEpoch) (m : FieldMask)
  : ProjectionEpoch :=
  mkProjectionEpoch (epoch_id e) m (write_projections e).

(** [std::map<ProjectionEpochID,ProjectionEpoch*> to_add]: the entries in
    ascending order of their keys. *)
Definition EpochMap : Type := list (ProjectionEpochID * ProjectionEpoch).

(** [to_add.find(id)] *)
Fixpoint epoch_find (id : ProjectionEpochID) (m : EpochMap)
  : option ProjectionEpoch :=
  match m with
  | [] => None
  | (k, e) :: m' => if bool_decide (k = id) then Some e else epoch_find id m'
  end.

(** [to_add[id] = e] for an id that [find] did not find: the entry goes
    before the first larger key. *)
Fixpoint epoch_insert (id : ProjectionEpochID) (e : ProjectionEpoch)
    (m : EpochMap) : EpochMap :=
  match m with
  | [] => [(id, e)]
  | (k, e') :: m' =>
      if bool_decide (id < k)%N then (id, e) :: (k, e') :: m'
      else (k, e') :: epoch_insert id e m'
  end.

(** [finder->second->valid_fields |= overlap] for the entry [find]
    found. *)
Fixpoint epoch_update (id : ProjectionEpochID) (overlap : FieldMask)
    (m : EpochMap) : EpochMap :=
  match m with
  | [] => []
  | (k, e) :: m' =>
      if bool_decide (k = id)
      then (k, with_fields e (fm_or (pe_valid_fields e) overlap)) :: m'
      else (k, e) :: epoch_update id overlap m'
  end.

(** The first loop of [advance_projection_epochs]: the epochs that stay
    in the list, and [to_add]. *)
Fixpoint advance_loop (advance_mask : FieldMask) (l : list ProjectionEpoch)
    (to_add : EpochMap) : list ProjectionEpoch * EpochMap :=
  match l with
  | [] => ([], to_add)
  | e :: l' =>
      let overlap := fm_and (pe_valid_fields e) advance_mask in
      if fm_empty overlap
      then let '(kept, to_add) := advance_loop advance_mask l' to_add in
           (e :: kept, to_add)
      else
        let next_epoch_id := epoch_succ (epoch_id e) in
        let to_add :=
          match epoch_find next_epoch_id to_add with
          | None =>
              epoch_insert next_epoch_id
                (ProjectionEpoch_new (epoch_succ (epoch_id e)) overlap) to_add
          | Some _ => epoch_update next_epoch_id overlap to_add
          end in
        let e' := with_fields e (fm_diff (pe_valid_fields e) overlap) in
        if fm_empty (pe_valid_fields e')
        then advance_loop advance_mask l' to_add
        else let '(kept, to_add) := advance_loop advance_mask l' to_add in
             (e' :: kept, to_add)
  end.

(** *** LogicalState *)

Record LogicalState : Type := mkLogicalState {
  owner : RegionTreeNode;
  field_states : list FieldState;
  curr_epoch_users : list LogicalUser;
  prev_epoch_users : list LogicalUser;
  reduction_fields : FieldMask;
  outstanding_reductions : gmap ReductionOpID FieldMask;
  projection_epochs : list ProjectionEpoch
}.

(** [LogicalState::LogicalState(node, ctx)] *)
Definition LogicalState_new (node : RegionTreeNode) : LogicalState :=
  mkLogicalState node [] [] [] 0 ∅ [].

(** One call [op->remove_mapping_reference(gen)]. *)
Definition MappingRelease : Set := (Operation * GenerationID)%type.

(** [LogicalState::clear_logical_users]: the state, and the calls made
    on the users' operations, in order. *)
Definition clear_logical_users (st : LogicalState)
  : LogicalState * list MappingRelease :=
  let calls_curr := (λ u, (op u, gen u)) <$> curr_epoch_users st in
  let calls_prev := (λ u, (op u, gen u)) <$> prev_epoch_users st in
  (mkLogicalState (owner st) (field_states st) [] []
     (reduction_fields st) (outstanding_reductions st)
     (projection_epochs st),
   calls_curr ++ calls_prev).

(** [LogicalState::reset] *)
Definition reset (st : LogicalState) : LogicalState * list MappingRelease :=
  let st := mkLogicalState (owner st) [] (curr_epoch_users st)
              (prev_epoch_users st) (reduction_fields st)
              (outstanding_reductions st) (projection_epochs st) in
  let '(st, calls) := clear_logical_users st in
  (mkLogicalState (owner st) (field_states st) (curr_epoch_users st)
     (prev_epoch_users st) fm_clear ∅ [],
   calls).

(** [LogicalState::advance_projection_epochs] *)
Definition advance_projection_epochs (st : LogicalState)
    (advance_mask : FieldMask) : LogicalState :=
  let '(kept, to_add) :=
    advance_loop advance_mask (projection_epochs st) [] in
  mkLogicalState (owner st) (field_states st) (curr_epoch_users st)
    (prev_epoch_users st) (reduction_fields st) (outstanding_reductions st)
    (kept ++ to_add.*2).

(** *** Predicates of the statements *)

(** Mergeable in the words of the data model: same open_state, same
    redop, same projection and, when there is a projection, same
    projection space. *)
Definition spec_mergeable (a b : FieldState) : Prop :=
  open_state a = open_state b ∧ fs_redop a = fs_redop b ∧
  projection a = projection b ∧
  (projection a ≠ None → projection_space a = projection_space b).

(** Every epoch disagrees, on every field, with every later epoch of the
    list that has the same id. *)
Fixpoint no_shared_field (l : list ProjectionEpoch) : Prop :=
  match l with
  | [] => True
  | e :: l' =>
      (∀ e', e' ∈ l' → epoch_id e = epoch_id e' →
             fm_and (pe_valid_fields e) (pe_valid_fields e') = 0) ∧
      no_shared_field l'
  end.

(** The invariant of the list of projection epochs. *)
Definition epochs_wf (l : list ProjectionEpoch) : Prop :=
  (∀ e, e ∈ l → pe_valid_fields e ≠ 0) ∧ no_shared_field l.

(** Field [f] lies in an epoch with id [k]. *)
Definition in_epoch (l : list ProjectionEpoch) (f : N)
    (k : ProjectionEpochID) : Prop :=
  ∃ e, e ∈ l ∧ epoch_id e = k ∧ N.testbit (pe_valid_fields e) f = true.

(** What the loop leaves of an epoch: its fields outside the mask. *)
Definition shrink (mask : FieldMask) (e : ProjectionEpoch)
  : ProjectionEpoch :=
  with_fields e (fm_diff (pe_valid_fields e) mask).

(** The invariant of [to_add]: one entry per key, and each entry is an
    epoch with the key as id and with fields, all of them in the mask. *)
Definition to_add_ok (mask : FieldMask) (t : EpochMap) : Prop :=
  NoDup t.*1 ∧
  ∀ k e, (k, e) ∈ t →
         epoch_id e = k ∧ pe_valid_fields e ≠ 0 ∧
         fm_and (pe_valid_fields e) mask = pe_valid_fields e.

(** [to_add] after the loop has handled an epoch that overlaps the
    mask. *)
Definition to_add_next (mask : FieldMask) (e : ProjectionEpoch)
    (t : EpochMap) : EpochMap :=
  match epoch_find (epoch_succ (epoch_id e)) t with
  | None =>
      epoch_insert (epoch_succ (epoch_id e))
        (ProjectionEpoch_new (epoch_succ (epoch_id e))
           (fm_and (pe_valid_fields e) mask)) t
  | Some _ =>
      epoch_update (epoch_succ (epoch_id e))
        (fm_and (pe_valid_fields e) mask) t
  end.

(** [it->second -= deleted_mask] on every entry of a map of masks,
    followed by the erasure of the entries left without a field. *)
Definition subtract_fields `{Countable K} (deleted_mask : FieldMask)
    (m : gmap K FieldMask) : gmap K FieldMask :=
  filter (λ kv, fm_empty kv.2 = false) ((λ f, fm_diff f deleted_mask) <$> m).

(** The loop of [clear_deleted_state] over [field_states]. *)
Fixpoint clear_deleted_field_states (deleted_mask : FieldMask)
    (l : list FieldState) : list FieldState :=
  match l with
  | [] => []
  | fs :: l' =>
      let valid := fm_diff (valid_fields fs) deleted_mask in
      if fm_empty valid then clear_deleted_field_states deleted_mask l'
      else
        let children := subtract_fields deleted_mask (open_children fs) in
        if bool_decide (children = ∅)
        then clear_deleted_field_states deleted_mask l'
        else
          mkFieldState valid children (open_state fs) (fs_redop fs)
            (projection fs) (projection_space fs) (rebuild_timeout fs)
          :: clear_deleted_field_states deleted_mask l'
  end.

(** [LogicalState::clear_deleted_state] *)
Definition clear_deleted_state (st : LogicalState) (deleted_mask : FieldMask)
  : LogicalState :=
  mkLogicalState (owner st)
    (clear_deleted_field_states deleted_mask (field_states st))
    (curr_epoch_users st) (prev_epoch_users st)
    (fm_diff (reduction_fields st) deleted_mask)
    (subtract_fields deleted_mask (outstanding_reductions st))
    (projection_epochs st).

(** The loop of [update_projection_epochs]: what is left of
    [capture_mask], [None] standing for the early [return]. *)
Fixpoint capture_loop (l : list ProjectionEpoch) (capture_mask : FieldMask)
  : option FieldMask :=
  match l with
  | [] => Some capture_mask
  | e :: l' =>
      let overlap := fm_and (pe_valid_fields e) capture_mask in
      if fm_empty overlap then capture_loop l' capture_mask
      else
        let capture_mask := fm_diff capture_mask overlap in
        if fm_empty capture_mask then None
        else capture_loop l' capture_mask
  end.

Section FirstEpoch.

(** [ProjectionEpoch::first_epoch]; its value is set in the class
    declaration. *)
Variable first_epoch : ProjectionEpochID.

(** [LogicalState::update_projection_epochs]; the epoch made by [new]
    goes to the back of the list. *)
Definition update_projection_epochs (st : LogicalState)
    (capture_mask : FieldMask) : LogicalState :=
  match capture_loop (projection_epochs st) capture_mask with
  | None => st
  | Some capture_mask =>
      mkLogicalState (owner st) (field_states st) (curr_epoch_users st)
        (prev_epoch_users st) (reduction_fields st)
        (outstanding_reductions st)
        (projection_epochs st
         ++ [ProjectionEpoch_new first_epoch capture_mask])
  end.

End FirstEpoch.

Section ProjectionDepth.

(** [projection->depth] *)
Variable depth : ProjectionFunction → N.

(** [FieldState::FieldState(usage, m, proj, proj_space, disjoint,
    dirty_reduction)].  [proj] is a projection function, not NULL: the
    last test reads [projection->depth], and the assertion before it is
    compiled in under DEBUG_LEGION only. *)
Definition FieldState_of_projection (usage : RegionUsage) (m : FieldMask)
    (proj : ProjectionFunction) (proj_space : option IndexSpaceNode)
    (disjoint dirty_reduction : bool) : FieldState :=
  let '(st, r) :=
    if IS_READ_ONLY usage then (OPEN_READ_ONLY_PROJ, 0)
    else if IS_REDUCE usage
    then (if dirty_reduction then OPEN_REDUCE_PROJ_DIRTY
          else OPEN_REDUCE_PROJ, redop usage)
    else if disjoint && bool_decide (depth proj = 0)
    then (OPEN_READ_WRITE_PROJ_DISJOINT_SHALLOW, 0)
    else (OPEN_READ_WRITE_PROJ, 0) in
  mkFieldState m ∅ st r (Some proj) proj_space 1.

End ProjectionDepth.

(** The loop of [FieldState::merge] over [rhs.open_children]. *)
Definition merge_children (this rhs : gmap LegionColor FieldMask)
  : gmap LegionColor FieldMask :=
  map_fold
    (λ c m acc,
       match acc !! c with
       | None => <[c := m]> acc
       | Some m0 => <[c := fm_or m0 m]> acc
       end)
    this rhs.

(** [FieldState::merge]; [all_children_disjoint] is what
    [node->are_all_children_disjoint()] answers. *)
Definition merge (this rhs : FieldState) (all_children_disjoint : bool)
  : FieldState :=
  let valid := fm_or (valid_fields this) (valid_fields rhs) in
  let children := merge_children (open_children this) (open_children rhs) in
  let '(st, r) :=
    if bool_decide (0 < fs_redop this)
    then
      if all_children_disjoint then (OPEN_READ_WRITE, 0)
      else if bool_decide (size children = 1%nat)
           then (OPEN_SINGLE_REDUCE, fs_redop this)
           else (OPEN_MULTI_REDUCE, fs_redop this)
    else (open_state this, fs_redop this) in
  mkFieldState valid children st r (projection this) (projection_space this)
    (rebuild_timeout this).

(** The open children of a field state hold fields of the state only. *)
Definition children_covered (fs : FieldState) : Prop :=
  ∀ c m, open_children fs !! c = Some m → fm_subset m (valid_fields fs).

(** No trace of the fields of [mask] is left in a map of masks, and no
    entry without a field. *)
Definition free_of `{Countable K} (mask : FieldMask) (m : gmap K FieldMask)
  : Prop :=
  ∀ k f, m !! k = Some f → f ≠ 0 ∧ fm_and f mask = 0.

(** *** Examples *)

(** A state open for reading on child 0 with fields 0 and 1, and one for
    a reduction with operator 7 on child 1 with field 2. *)
Definition read_state_ex : FieldState :=
  FieldState_of_user (mkGenericUser (mkUsage READ_ONLY EXCLUSIVE 0) 3) 3 0.
Definition reduce_state_ex : FieldState :=
  FieldState_of_user (mkGenericUser (mkUsage REDUCE EXCLUSIVE 7) 4) 4 1.

End Logical.

(* ===================================================================== *)
(** ** InstanceRef and InstanceSet *)
(* ===================================================================== *)

Module Instances.

Definition PhysicalManager : Set := N.
Definition DistributedID : Set := N.
Definition ApEvent : Set := N.
Definition RtEvent : Set := N.
(** [ApEvent::NO_AP_EVENT], and the default [RtEvent], which does not
    exist. *)
Definition NO_AP_EVENT : ApEvent := 0.
Definition NO_RT_EVENT : RtEvent := 0.
(** [e.exists()] *)
Definition exists_ (e : RtEvent) : bool := negb (e =? 0).

Record InstanceRef : Set := mkInstanceRef {
  valid_fields : FieldMask;
  ready_event : ApEvent;
  manager : option PhysicalManager;   (* [None]: NULL *)
  local : bool
}.

(** [InstanceRef::InstanceRef(bool comp)] *)
Definition InstanceRef_default : InstanceRef :=
  mkInstanceRef 0 NO_AP_EVENT None true.

(** [InstanceRef::InstanceRef(man, m, r)] *)
Definition InstanceRef_new (man : option PhysicalManager) (m : FieldMask)
    (r : ApEvent) : InstanceRef := mkInstanceRef m r man true.

(** [InstanceRef::operator==] *)
Definition InstanceRef_eq (this rhs : InstanceRef) : bool :=
  if negb (bool_decide (valid_fields this = valid_fields rhs)) then false
  else if negb (bool_decide (ready_event this = ready_event rhs)) then false
  else if negb (bool_decide (manager this = manager rhs)) then false
  else true.

(** [InstanceRef::operator!=] *)
Definition InstanceRef_neq (this rhs : InstanceRef) : bool :=
  negb (InstanceRef_eq this rhs).

(** Modelled from the spec: the declarations of CollectableRef, InternalSet
    and their Collectable base are in a header that is not among the
    sources.  They are the two kinds of reference-counted storage behind
    an InstanceSet: a [CollectableRef] is one InstanceRef and an
    [InternalSet] a vector of them, each with the count that
    add_reference increments and remove_reference decrements, the latter
    reporting whether the count has reached zero. *)
Inductive Cell : Set :=
| CollectableRef (r : InstanceRef) (references : nat)
| InternalSet (vector : list InstanceRef) (references : nat).

(** The heap: the live cells by address. *)
Abbreviation Heap := (gmap N Cell).

Definition references (c : Cell) : nat :=
  match c with CollectableRef _ n | InternalSet _ n => n end.

Definition with_references (c : Cell) (n : nat) : Cell :=
  match c with
  | CollectableRef r _ => CollectableRef r n
  | InternalSet v _ => InternalSet v n
  end.

(** The handle.  [refs] is a union of the two pointers, so one field holds
    whichever is current, [None] being NULL; [shared] is mutable. *)
Record InstanceSet : Set := mkInstanceSet {
  single : bool;
  shared : bool;
  refs : option N
}.

(** [new T(...)] followed by [add_reference()] *)
Definition new_cell (h : Heap) (c : Cell) : N * Heap :=
  let p := fresh (dom h) in (p, <[p := with_references c 1]> h).

(** Modelled from the spec: [p->add_reference()] of the Collectable
    base. *)
Definition add_reference (h : Heap) (p : N) : option Heap :=
  c ← h !! p;
  Some (<[p := with_references c (S (references c))]> h).

(** Modelled from the spec: [if (p->remove_reference()) delete p;], where
    remove_reference of the Collectable base reports that the count has
    reached zero. *)
Definition drop_reference (h : Heap) (p : N) : option Heap :=
  c ← h !! p;
  match references c with
  | O => None
  | S O => Some (delete p h)
  | S n => Some (<[p := with_references c n]> h)
  end.

(** [*(refs.single)] *)
Definition load_single (h : Heap) (p : N) : option InstanceRef :=
  match h !! p with Some (CollectableRef r _) => Some r | _ => None end.

(** [refs.multi->vector] *)
Definition load_multi (h : Heap) (p : N) : option (list InstanceRef) :=
  match h !! p with Some (InternalSet v _) => Some v | _ => None end.

(** Writing through [*(refs.single)] and [refs.multi->vector]. *)
Definition store_single (h : Heap) (p : N) (r : InstanceRef) : option Heap :=
  match h !! p with
  | Some (CollectableRef _ n) => Some (<[p := CollectableRef r n]> h)
  | _ => None
  end.

Definition store_multi (h : Heap) (p : N) (v : list InstanceRef)
  : option Heap :=
  match h !! p with
  | Some (InternalSet _ n) => Some (<[p := InternalSet v n]> h)
  | _ => None
  end.

(** [std::vector::resize(n)] *)
Definition vector_resize (v : list InstanceRef) (n : nat)
  : list InstanceRef :=
  take n v ++ replicate (n - length v) InstanceRef_default.

(** [InstanceSet::InstanceSet(size_t init_size)] *)
Definition InstanceSet_new (init_size : nat) (h : Heap)
  : InstanceSet * Heap :=
  match init_size with
  | O => (mkInstanceSet true false None, h)
  | S O =>
      let '(p, h) := new_cell h (CollectableRef InstanceRef_default 0) in
      (mkInstanceSet true false (Some p), h)
  | _ =>
      let '(p, h) :=
        new_cell h (InternalSet (replicate init_size InstanceRef_default) 0)
      in (mkInstanceSet false false (Some p), h)
  end.

(** [InstanceSet::InstanceSet(const InstanceSet &rhs)]: the new handle,
    [rhs] (whose [shared] flag the constructor sets) and the heap. *)
Definition copy_construct (rhs : InstanceSet) (h : Heap)
  : option (InstanceSet * InstanceSet * Heap) :=
  if single rhs then
    match refs rhs with
    | None => Some (mkInstanceSet true false None, rhs, h)
    | Some p =>
        h ← add_reference h p;
        Some (mkInstanceSet true true (Some p),
              mkInstanceSet (single rhs) true (refs rhs), h)
    end
  else
    p ← refs rhs;
    h ← add_reference h p;
    Some (mkInstanceSet false true (Some p),
          mkInstanceSet (single rhs) true (refs rhs), h).

(** The release of the current storage that opens [operator=], and that
    resize, clear and unpack_references repeat. *)
Definition release_storage (this : InstanceSet) (h : Heap) : option Heap :=
  if single this then
    match refs this with
    | None => Some h
    | Some p => drop_reference h p
    end
  else p ← refs this; drop_reference h p.

(** [InstanceSet::operator=] *)
Definition copy_assign (this rhs : InstanceSet) (h : Heap)
  : option (InstanceSet * InstanceSet * Heap) :=
  h ← release_storage this h;
  if single rhs then
    match refs rhs with
    | Some p =>
        h ← add_reference h p;
        Some (mkInstanceSet true true (Some p),
              mkInstanceSet (single rhs) true (refs rhs), h)
    | None => Some (mkInstanceSet true false None, rhs, h)
    end
  else
    p ← refs rhs;
    h ← add_reference h p;
    Some (mkInstanceSet false true (Some p),
          mkInstanceSet (single rhs) true (refs rhs), h).

(** [InstanceSet::make_copy] *)
Definition make_copy (this : InstanceSet) (h : Heap)
  : option (InstanceSet * Heap) :=
  if single this then
    match refs this with
    | Some p =>
        r ← load_single h p;
        let '(next, h) := new_cell h (CollectableRef r 0) in
        h ← drop_reference h p;
        Some (mkInstanceSet true false (Some next), h)
    | None => Some (mkInstanceSet true false None, h)
    end
  else
    p ← refs this;
    v ← load_multi h p;
    let '(next, h) := new_cell h (InternalSet v 0) in
    h ← drop_reference h p;
    Some (mkInstanceSet false false (Some next), h).

(** [InstanceSet::operator==] *)
Definition InstanceSet_eq (this rhs : InstanceSet) (h : Heap)
  : option bool :=
  if negb (bool_decide (single this = single rhs)) then Some false
  else if single this then
    if bool_decide (refs this = refs rhs) then Some true
    else
      match refs this, refs rhs with
      | None, Some _ | Some _, None => Some false
      | Some p, Some q =>
          a ← load_single h p; b ← load_single h q;
          Some (InstanceRef_eq a b)
      | None, None => Some true
      end
  else
    p ← refs this; q ← refs rhs;
    a ← load_multi h p; b ← load_multi h q;
    if negb (bool_decide (length a = length b)) then Some false
    else Some (forallb (λ ab, negb (InstanceRef_neq ab.1 ab.2)) (zip a b)).

(** [const InstanceRef& InstanceSet::operator[](idx) const] *)
Definition get_at (this : InstanceSet) (idx : nat) (h : Heap)
  : option InstanceRef :=
  if single this then p ← refs this; load_single h p
  else p ← refs this; v ← load_multi h p; v !! idx.

(** [InstanceSet::size] *)
Definition size (this : InstanceSet) (h : Heap) : option nat :=
  if single this then
    match refs this with None => Some O | Some _ => Some 1%nat end
  else
    match refs this with
    | None => Some O
    | Some p => v ← load_multi h p; Some (length v)
    end.

(** [InstanceSet::empty] *)
Definition empty (this : InstanceSet) (h : Heap) : option bool :=
  if single this then Some (bool_decide (refs this = None))
  else p ← refs this; v ← load_multi h p; Some (bool_decide (v = [])).

(** What a client can read from a handle through [size] and the const
    [operator[]]: the elements in order. *)
Definition contents (this : InstanceSet) (h : Heap)
  : option (list InstanceRef) :=
  if single this then
    match refs this with
    | None => Some []
    | Some p => r ← load_single h p; Some [r]
    end
  else p ← refs this; load_multi h p.

(** [set[idx] = r] through the non-const [operator[]], which makes the
    storage unique first.  In single storage the index is not looked at:
    the assertion [idx == 0] is compiled in under DEBUG_LEGION only. *)
Definition assign_at (this : InstanceSet) (idx : nat) (r : InstanceRef)
    (h : Heap) : option (InstanceSet * Heap) :=
  '(this, h) ← (if shared this then make_copy this h else Some (this, h));
  if single this then
    p ← refs this;
    h ← store_single h p r;
    Some (this, h)
  else
    p ← refs this;
    v ← load_multi h p;
    if bool_decide (idx < length v)%nat
    then h ← store_multi h p (<[idx := r]> v); Some (this, h)
    else None.

(** [InstanceSet::resize] *)
Definition resize (this : InstanceSet) (new_size : nat) (h : Heap)
  : option (InstanceSet * Heap) :=
  if single this then
    match new_size with
    | O =>
        h ← release_storage this h;
        Some (mkInstanceSet true false None, h)
    | S O =>
        match refs this with
        | None =>
            let '(next, h) :=
              new_cell h (CollectableRef InstanceRef_default 0) in
            Some (mkInstanceSet true false (Some next), h)
        | Some _ => Some (this, h)
        end
    | _ =>
        let v := replicate new_size InstanceRef_default in
        match refs this with
        | Some p =>
            r ← load_single h p;
            let '(next, h) := new_cell h (InternalSet (<[O := r]> v) 0) in
            h ← drop_reference h p;
            Some (mkInstanceSet false false (Some next), h)
        | None =>
            let '(next, h) := new_cell h (InternalSet v 0) in
            Some (mkInstanceSet false false (Some next), h)
        end
    end
  else
    p ← refs this;
    match new_size with
    | O =>
        h ← drop_reference h p;
        Some (mkInstanceSet true false None, h)
    | S O =>
        v ← load_multi h p;
        r ← v !! O;
        let '(next, h) := new_cell h (CollectableRef r 0) in
        h ← drop_reference h p;
        Some (mkInstanceSet true false (Some next), h)
    | _ =>
        v ← load_multi h p;
        if bool_decide (length v ≠ new_size) then
          if shared this then
            let '(next, h) :=
              new_cell h (InternalSet (vector_resize v new_size) 0) in
            h ← drop_reference h p;
            Some (mkInstanceSet false false (Some next), h)
          else
            h ← store_multi h p (vector_resize v new_size);
            Some (this, h)
        else Some (this, h)
    end.

(** [InstanceSet::clear] *)
Definition clear (this : InstanceSet) (h : Heap)
  : option (InstanceSet * Heap) :=
  if single this then
    h ← release_storage this h;
    Some (mkInstanceSet true false None, h)
  else
    p ← refs this;
    if shared this then
      c ← h !! p;
      match c with
      | InternalSet _ (S O) =>
          Some (mkInstanceSet false false (Some p),
                <[p := InternalSet [] 1]> h)
      | InternalSet _ (S n) =>
          Some (mkInstanceSet true false None,
                <[p := with_references c n]> h)
      | _ => None
      end
    else
      v ← load_multi h p;
      h ← store_multi h p [];
      Some (mkInstanceSet false false (Some p), h).

(** [InstanceSet::add_instance] *)
Definition add_instance (this : InstanceSet) (ref : InstanceRef) (h : Heap)
  : option (InstanceSet * Heap) :=
  if single this then
    match refs this with
    | Some p =>
        r ← load_single h p;
        let '(next, h) := new_cell h (InternalSet [r; ref] 0) in
        h ← drop_reference h p;
        Some (mkInstanceSet false false (Some next), h)
    | None =>
        let '(next, h) := new_cell h (CollectableRef ref 0) in
        Some (mkInstanceSet (single this) (shared this) (Some next), h)
    end
  else
    '(this, h) ← (if shared this then make_copy this h else Some (this, h));
    p ← refs this;
    v ← load_multi h p;
    h ← store_multi h p (v ++ [ref]);
    Some (this, h).

(** *** Wire format *)

(** Modelled from the spec: Serializer and Deserializer are not among the
    sources.  A message is the sequence of the values serialized, in
    order, each read back at the type it was written at. *)
Inductive WireItem : Set :=
| W_size (n : nat)
| W_mask (m : FieldMask)
| W_event (e : ApEvent)
| W_did (d : DistributedID).

Section Runtime.

(** [manager->did] *)
Variable did : PhysicalManager → DistributedID.
(** [runtime->find_or_request_physical_manager(did, ready)]: the
    manager, and the event left in [ready]. *)
Variable find_or_request_physical_manager :
  DistributedID → PhysicalManager * RtEvent.

(** [InstanceRef::pack_reference] *)
Definition pack_reference (this : InstanceRef) : list WireItem :=
  [W_mask (valid_fields this); W_event (ready_event this);
   W_did (match manager this with Some m => did m | None => 0 end)].

(** [InstanceRef::unpack_reference]: the reference, [ready], and the
    rest of the message. *)
Definition unpack_reference (this : InstanceRef) (derez : list WireItem)
  : option (InstanceRef * RtEvent * list WireItem) :=
  match derez with
  | W_mask m :: W_event e :: W_did d :: derez =>
      if bool_decide (d = 0)
      then Some (mkInstanceRef m e (manager this) (local this),
                 NO_RT_EVENT, derez)
      else
        let '(man, ready) := find_or_request_physical_manager d in
        Some (mkInstanceRef m e (Some man) false, ready, derez)
  | _ => None
  end.

(** [InstanceSet::pack_references] *)
Definition pack_references (this : InstanceSet) (h : Heap)
  : option (list WireItem) :=
  if single this then
    match refs this with
    | None => Some [W_size 0]
    | Some p => r ← load_single h p; Some (W_size 1 :: pack_reference r)
    end
  else
    p ← refs this;
    v ← load_multi h p;
    Some (W_size (length v) :: concat (pack_reference <$> v)).

(** [if (ready.exists()) ready_events.insert(ready);] *)
Definition note_ready (ready : RtEvent) (ready_events : gset RtEvent)
  : gset RtEvent :=
  if exists_ ready then {[ready]} ∪ ready_events else ready_events.

(** The loop [for (idx < num_refs) vector[idx].unpack_reference(...)]. *)
Fixpoint unpack_each (v : list InstanceRef) (derez : list WireItem)
    (ready_events : gset RtEvent)
  : option (list InstanceRef * list WireItem * gset RtEvent) :=
  match v with
  | [] => Some ([], derez, ready_events)
  | r :: v' =>
      '(r', ready, derez) ← unpack_reference r derez;
      '(v'', derez, ready_events) ←
        unpack_each v' derez (note_ready ready ready_events);
      Some (r' :: v'', derez, ready_events)
  end.

(** [InstanceSet::unpack_references]: the handle, the heap, the rest of
    the message and [ready_events]. *)
Definition unpack_references (this : InstanceSet) (h : Heap)
    (derez : list WireItem) (ready_events : gset RtEvent)
  : option (InstanceSet * Heap * list WireItem * gset RtEvent) :=
  match derez with
  | W_size num_refs :: derez =>
      match num_refs with
      | O =>
          if single this then
            h ← release_storage this h;
            Some (mkInstanceSet true false None, h, derez, ready_events)
          else
            p ← refs this;
            h ← drop_reference h p;
            Some (mkInstanceSet true false (refs this), h, derez,
                  ready_events)
      | S O =>
          '(this, h) ←
            (if negb (single this) then
               p ← refs this;
               h ← drop_reference h p;
               Some (mkInstanceSet true (shared this) None, h)
             else Some (this, h));
          let '(p, h) :=
            match refs this with
            | None => new_cell h (CollectableRef InstanceRef_default 0)
            | Some p => (p, h)
            end in
          r ← load_single h p;
          '(r, ready, derez) ← unpack_reference r derez;
          h ← store_single h p r;
          Some (mkInstanceSet true false (Some p), h, derez,
                note_ready ready ready_events)
      | _ =>
          '(p, h) ←
            (if single this then
               h ← release_storage this h;
               Some (new_cell h
                       (InternalSet
                          (replicate num_refs InstanceRef_default) 0))
             else
               p ← refs this;
               v ← load_multi h p;
               h ← store_multi h p (vector_resize v num_refs);
               Some (p, h));
          v ← load_multi h p;
          '(v, derez, ready_events) ← unpack_each v derez ready_events;
          h ← store_multi h p v;
          Some (mkInstanceSet false false (Some p), h, derez, ready_events)
      end
  | _ => None
  end.

(** The manager of a reference, if it has one, has a non-zero
    distributed id under which the runtime finds it again. *)
Definition manager_found (r : InstanceRef) : Prop :=
  ∀ m, manager r = Some m →
       did m ≠ 0 ∧ (find_or_request_physical_manager (did m)).1 = m.

End Runtime.

(** *** Predicates of the statements *)

(** A handle is well formed in a heap when its storage is live, of the
    kind its [single] flag announces, and counts at least the handle's own
    reference. *)
Definition wf (this : InstanceSet) (h : Heap) : Prop :=
  match refs this with
  | None => single this = true
  | Some p =>
      if single this
      then ∃ r n, h !! p = Some (CollectableRef r (S n))
      else ∃ v n, h !! p = Some (InternalSet v (S n))
  end.

(** The payload of a cell: what it stores, without its count. *)
Definition same_payload (c c' : Cell) : Prop :=
  ∃ n, c' = with_references c n.

(** The operations that mutate a set, for the frame property below. *)
Inductive Mutation : Set :=
| AssignAt (idx : nat) (r : InstanceRef)
| AddInstance (r : InstanceRef)
| Resize (new_size : nat).

Definition mutate (m : Mutation) (this : InstanceSet) (h : Heap)
  : option (InstanceSet * Heap) :=
  match m with
  | AssignAt idx r => assign_at this idx r h
  | AddInstance r => add_instance this r h
  | Resize n => resize this n h
  end.

(** A runtime for the examples: a manager's distributed id is its
    address plus 100, and every manager is found at once. *)
Definition did_ex (m : PhysicalManager) : DistributedID := m + 100.
Definition find_ex (d : DistributedID) : PhysicalManager * RtEvent :=
  (d - 100, NO_RT_EVENT).

(** The heap before anything is allocated. *)
Definition empty_heap : Heap := ∅.

(** *** Virtual mappings *)

Section VirtualManagers.

(** [manager->is_virtual_manager()] *)
Variable is_virtual_manager : PhysicalManager → bool.

(** [InstanceRef::is_virtual_ref] *)
Definition is_virtual_ref (this : InstanceRef) : bool :=
  match manager this with
  | None => true
  | Some m => is_virtual_manager m
  end.

(** [InstanceSet::is_virtual_mapping].  The last line reads
    [refs.single] whatever the storage is; on a vector of one reference
    that is the other member of the union, and no answer is defined. *)
Definition is_virtual_mapping (this : InstanceSet) (h : Heap) : option bool :=
  e ← empty this h;
  if e : bool then Some true
  else
    n ← size this h;
    if bool_decide (1 < n)%nat then Some false
    else p ← refs this; r ← load_single h p; Some (is_virtual_ref r).

End VirtualManagers.

(** *** Examples *)

Definition r1_ex : InstanceRef := InstanceRef_new (Some 9) 3 5.
Definition r2_ex : InstanceRef := InstanceRef_new None 4 0.
(** A heap with a vector of two references at address 1, shared by two
    handles, and a single reference at address 2. *)
Definition heap_ex : Heap :=
  {[ 1 := InternalSet [r1_ex; r2_ex] 2; 2 := CollectableRef r1_ex 1 ]}.
Definition vector_set_ex : InstanceSet := mkInstanceSet false true (Some 1).
Definition single_set_ex : InstanceSet := mkInstanceSet true false (Some 2).

End Instances.

(* ===================================================================== *)
(** * Properties *)
(* ===================================================================== *)

Module FieldMaskFacts.

Lemma fm_empty_true a : fm_empty a = true ↔ a = 0.
Proof. unfold fm_empty. apply N.eqb_eq. Qed.

Lemma fm_empty_false a : fm_empty a = false ↔ a ≠ 0.
Proof. unfold fm_empty. apply N.eqb_neq. Qed.

(** [a - a = ∅] *)
Lemma fm_diff_diag a : fm_diff a a = 0.
Proof. apply N.ldiff_diag. Qed.

(** [a & a = a] *)
Lemma fm_and_diag a : fm_and a a = a.
Proof. apply N.land_diag. Qed.

(** Equations between masks, bit by bit: [mask_bits H i] turns an equation
    [H] between masks into the equation between their bits at [i]. *)
Lemma mask_bits (a b : FieldMask) (i : N) :
  a = b → N.testbit a i = N.testbit b i.
Proof. by intros ->. Qed.

Ltac mask_eq i :=
  apply N.bits_inj; intros i;
  repeat (rewrite N.land_spec || rewrite N.lor_spec
          || rewrite N.ldiff_spec || rewrite N.bits_0).

Ltac mask_hyp H i :=
  apply (mask_bits _ _ i) in H;
  repeat (rewrite N.land_spec in H || rewrite N.lor_spec in H
          || rewrite N.ldiff_spec in H || rewrite N.bits_0 in H).

Lemma fm_diff_overlap a m : fm_diff a (fm_and a m) = fm_diff a m.
Proof.
  unfold fm_diff, fm_and. mask_eq i.
  destruct (N.testbit a i), (N.testbit m i); done.
Qed.

Lemma fm_diff_disjoint a m : fm_and a m = 0 → fm_diff a m = a.
Proof.
  unfold fm_diff, fm_and. intros H. mask_eq i. mask_hyp H i.
  destruct (N.testbit a i), (N.testbit m i); done.
Qed.

Lemma fm_diff_keeps_disjoint a b m :
  fm_and a b = 0 → fm_and (fm_diff a m) (fm_diff b m) = 0.
Proof.
  unfold fm_diff, fm_and. intros H. mask_eq i. mask_hyp H i.
  destruct (N.testbit a i), (N.testbit b i), (N.testbit m i); done.
Qed.

Lemma fm_inside_outside n a m :
  fm_and n m = n → fm_and n (fm_diff a m) = 0.
Proof.
  unfold fm_diff, fm_and. intros H. mask_eq i. mask_hyp H i.
  destruct (N.testbit n i), (N.testbit a i), (N.testbit m i); done.
Qed.

Lemma fm_and_inside a m : fm_and (fm_and a m) m = fm_and a m.
Proof.
  unfold fm_and. mask_eq i.
  destruct (N.testbit a i), (N.testbit m i); done.
Qed.

Lemma fm_or_inside a b m :
  fm_and a m = a → fm_and b m = b → fm_and (fm_or a b) m = fm_or a b.
Proof.
  unfold fm_and, fm_or. intros Ha Hb. mask_eq i.
  mask_hyp Ha i. mask_hyp Hb i.
  destruct (N.testbit a i), (N.testbit b i), (N.testbit m i); done.
Qed.

Lemma fm_or_nonzero_r a b : b ≠ 0 → fm_or a b ≠ 0.
Proof. unfold fm_or. intros Hb H. apply N.lor_eq_0_iff in H. tauto. Qed.

End FieldMaskFacts.

Export FieldMaskFacts.

(* ===================================================================== *)
(** ** VersionInfo and VersionManager *)
(* ===================================================================== *)

Module VersioningFacts.
Import Versioning.

(** *** make_ready *)

Lemma make_ready_with_requests is_write usage mask vi q :
  q ∈ make_ready_with is_write usage mask vi ↔
  req_set q ∈ equivalence_sets vi ∧ req_mask q = mask ∧
  req_exclusive q = is_write usage.
Proof.
  unfold make_ready_with. rewrite list_elem_of_fmap. split.
  - intros (e & -> & He). apply elem_of_elements in He. done.
  - intros (He & Hm & Hx). exists (req_set q). split.
    + destruct q; simpl in *; congruence.
    + by apply elem_of_elements.
Qed.

Lemma make_ready_requests usage mask vi q :
  q ∈ make_ready usage mask vi ↔
  req_set q ∈ equivalence_sets vi ∧ req_mask q = mask ∧
  req_exclusive q = IS_WRITE usage.
Proof. apply make_ready_with_requests. Qed.

Lemma make_ready_one_per_set usage mask vi :
  NoDup (req_set <$> make_ready usage mask vi).
Proof.
  unfold make_ready, make_ready_with. rewrite <- list_fmap_compose.
  replace (elements (equivalence_sets vi))
    with (id <$> elements (equivalence_sets vi)) at 1
    by apply list_fmap_id.
  rewrite <- list_fmap_compose. simpl.
  rewrite list_fmap_id. apply NoDup_elements.
Qed.

(** C1 (as the code has it): make_ready issues exactly one
    request_valid_copy per recorded equivalence set, each with the given
    mask, and the request is exclusive exactly when IS_WRITE holds of the
    usage, that is for a ReadWrite or WriteDiscard privilege; a NoAccess,
    ReadOnly or reducing usage requests shared access. *)
Theorem make_ready_exclusive_iff_is_write usage mask vi :
  NoDup (req_set <$> make_ready usage mask vi) ∧
  (∀ e, e ∈ equivalence_sets vi ↔
        mkRequest e mask (IS_WRITE usage) ∈ make_ready usage mask vi) ∧
  (∀ q, q ∈ make_ready usage mask vi →
        req_mask q = mask ∧
        (req_exclusive q = true ↔
         privilege usage = READ_WRITE ∨ privilege usage = WRITE_DISCARD)).
Proof.
  split; [apply make_ready_one_per_set|]. split.
  - intros e. rewrite make_ready_requests. simpl. tauto.
  - intros q Hq. apply make_ready_requests in Hq as (_ & Hm & Hx).
    split; [done|]. rewrite Hx. unfold IS_WRITE.
    destruct (privilege usage); intuition discriminate.
Qed.

(** C1 (as stated) fails: a reduction with redop 3 counts as writing in
    the words of the versioning contract, yet the one recorded set is
    asked for a shared copy. *)
Lemma make_ready_reduce_is_shared :
  let usage := mkUsage REDUCE EXCLUSIVE 3 in
  spec_writing usage = true ∧
  make_ready usage 1 (mkVersionInfo {[ 7 ]}) = [mkRequest 7 1 false].
Proof. split; reflexivity. Qed.


(** *** Reference counts *)

Lemma refs_of_insert k h e c e' :
  refs_of k (<[e := c]> h) e' =
  if decide (e = e') then count k c else refs_of k h e'.
Proof.
  unfold refs_of. destruct (decide (e = e')) as [->|Hne].
  - by rewrite lookup_insert_eq.
  - by rewrite lookup_insert_ne.
Qed.

Lemma refs_of_delete k h e e' :
  refs_of k (delete e h) e' = if decide (e = e') then O else refs_of k h e'.
Proof.
  unfold refs_of. destruct (decide (e = e')) as [->|Hne].
  - by rewrite lookup_delete_eq.
  - by rewrite lookup_delete_ne.
Qed.

Lemma count_set_count k n c : count k (set_count k n c) = n.
Proof. by destruct k. Qed.

Lemma add_base_resource_ref_refs k h e h' :
  add_base_resource_ref h e k = Some h' →
  ∀ e', refs_of k h' e' =
        (refs_of k h e' + if decide (e = e') then 1 else 0)%nat.
Proof.
  unfold add_base_resource_ref. intros H e'.
  destruct (h !! e) as [c|] eqn:Hc; simplify_eq/=.
  rewrite refs_of_insert. destruct (decide (e = e')) as [->|].
  - rewrite count_set_count. unfold refs_of. rewrite Hc. lia.
  - lia.
Qed.

Lemma release_refs k h e h' :
  release k h e = Some h' →
  ∀ e', refs_of k h e' =
        (refs_of k h' e' + if decide (e = e') then 1 else 0)%nat.
Proof.
  unfold release, remove_base_resource_ref. intros H e'.
  destruct (h !! e) as [c|] eqn:Hc; simplify_eq/=.
  destruct (count k c) as [|n] eqn:Hn; simplify_eq/=.
  case_bool_decide as Hz.
  - rewrite refs_of_delete. destruct (decide (e = e')) as [->|].
    + unfold refs_of. rewrite Hc, Hn.
      destruct Hz as [Hi Hm]. destruct k; simpl in *; subst; lia.
    + rewrite refs_of_insert. rewrite decide_False by done. lia.
  - rewrite refs_of_insert. destruct (decide (e = e')) as [->|].
    + rewrite count_set_count. unfold refs_of. rewrite Hc, Hn. lia.
    + lia.
Qed.

Lemma release_is_Some k h e :
  (0 < refs_of k h e)%nat → is_Some (release k h e).
Proof.
  unfold refs_of, release, remove_base_resource_ref. intros H.
  destruct (h !! e) as [c|]; [|lia]. simpl.
  destruct (count k c); [lia|]. simpl. eauto.
Qed.

Lemma release_all_refs k l h h' :
  NoDup l → release_all k l h = Some h' →
  ∀ e, refs_of k h e =
       (refs_of k h' e + if decide (e ∈ l) then 1 else 0)%nat.
Proof.
  intros Hnd. revert h. induction Hnd as [|x l Hx Hnd IH]; intros h H e.
  - simplify_eq/=. lia.
  - simpl in H. destruct (release k h x) as [h1|] eqn:H1; simplify_eq/=.
    rewrite (release_refs _ _ _ _ H1 e), (IH _ H e).
    repeat case_decide; simplify_eq; try lia; set_solver.
Qed.

Lemma release_all_is_Some k l h :
  NoDup l → (∀ e, e ∈ l → (0 < refs_of k h e)%nat) →
  is_Some (release_all k l h).
Proof.
  intros Hnd. revert h. induction Hnd as [|x l Hx Hnd IH]; intros h Hl.
  - simpl. eauto.
  - simpl. destruct (release_is_Some k h x) as [h1 H1];
      [apply Hl; set_solver|].
    rewrite H1. simpl. apply IH. intros e He.
    pose proof (release_refs _ _ _ _ H1 e) as Hr.
    rewrite decide_False in Hr by (intros ->; done).
    assert (0 < refs_of k h e)%nat by (apply Hl; set_solver). lia.
Qed.


Lemma count_set_count_ne k k' n c : k ≠ k' → count k' (set_count k n c) = count k' c.
Proof. by destruct k, k'. Qed.

Lemma add_base_resource_ref_other k k' h e h' :
  add_base_resource_ref h e k = Some h' → k ≠ k' →
  ∀ e', refs_of k' h' e' = refs_of k' h e'.
Proof.
  unfold add_base_resource_ref. intros H Hk e'.
  destruct (h !! e) as [c|] eqn:Hc; simplify_eq/=.
  rewrite refs_of_insert. case_decide; [subst|done].
  rewrite count_set_count_ne by done. unfold refs_of. by rewrite Hc.
Qed.

Lemma release_other k k' h e h' :
  release k h e = Some h' → k ≠ k' →
  ∀ e', refs_of k' h' e' = refs_of k' h e'.
Proof.
  unfold release, remove_base_resource_ref. intros H Hk e'.
  destruct (h !! e) as [c|] eqn:Hc; simplify_eq/=.
  destruct (count k c) as [|n] eqn:Hn; simplify_eq/=.
  case_bool_decide as Hz.
  - rewrite refs_of_delete. case_decide; [subst|].
    + unfold refs_of. rewrite Hc. destruct Hz.
      destruct k, k'; simpl in *; congruence.
    + rewrite refs_of_insert. by rewrite decide_False.
  - rewrite refs_of_insert. case_decide; [subst|done].
    rewrite count_set_count_ne by done. unfold refs_of. by rewrite Hc.
Qed.

Lemma release_all_other k k' l h h' :
  release_all k l h = Some h' → k ≠ k' →
  ∀ e', refs_of k' h' e' = refs_of k' h e'.
Proof.
  revert h. induction l as [|x l IH]; intros h H Hk e'; simplify_eq/=.
  - done.
  - destruct (release k h x) as [h1|] eqn:H1; simplify_eq/=.
    rewrite (IH _ H Hk). by eapply release_other.
Qed.

(** *** The references a VersionInfo holds *)

Lemma record_balanced h0 e s s' :
  balanced h0 s → record_equivalence_set e s = Some s' → balanced h0 s'.
Proof.
  destruct s as [vi h]. unfold record_equivalence_set. intros Hb H.
  case_decide as Hin; simplify_eq/=; [done|].
  destruct (add_base_resource_ref h e VERSION_INFO_REF) as [h1|] eqn:H1;
    simplify_eq/=.
  intros e'. simpl. rewrite (add_base_resource_ref_refs _ _ _ _ H1 e').
  pose proof (Hb e') as Hbe. simpl in Hbe. rewrite Hbe.
  repeat case_decide; simplify_eq; try lia; set_solver.
Qed.

Lemma record_twice e s s' :
  record_equivalence_set e s = Some s' →
  record_equivalence_set e s' = Some s'.
Proof.
  destruct s as [vi h]. unfold record_equivalence_set. intros H.
  case_decide as Hin; simplify_eq/=.
  - by rewrite decide_True.
  - destruct (add_base_resource_ref h e VERSION_INFO_REF) as [h1|];
      simplify_eq/=.
    rewrite decide_True by set_solver. done.
Qed.

Lemma clear_balanced h0 s s' :
  balanced h0 s → clear s = Some s' →
  s'.1 = VersionInfo_new ∧
  ∀ e, refs_of VERSION_INFO_REF s'.2 e = refs_of VERSION_INFO_REF h0 e.
Proof.
  destruct s as [[sets] h]. unfold clear. simpl. intros Hb H.
  case_decide as Hemp; simplify_eq/=.
  - split; [done|]. intros e. pose proof (Hb e) as Hbe. simpl in Hbe.
    rewrite Hbe. rewrite decide_False by set_solver. lia.
  - destruct (release_all VERSION_INFO_REF (elements sets) h) as [h1|] eqn:H1;
      simplify_eq/=.
    split; [done|]. intros e.
    pose proof (release_all_refs _ _ _ _ (NoDup_elements sets) H1 e) as Hr.
    pose proof (Hb e) as Hbe. simpl in Hbe.
    repeat case_decide; try lia; set_solver.
Qed.

Lemma clear_is_Some h0 s : balanced h0 s → is_Some (clear s).
Proof.
  destruct s as [[sets] h]. unfold clear. simpl. intros Hb.
  case_decide; [eauto|].
  destruct (release_all_is_Some VERSION_INFO_REF (elements sets) h)
    as [h1 H1].
  - apply NoDup_elements.
  - intros e He. pose proof (Hb e) as Hbe. simpl in Hbe.
    rewrite decide_True in Hbe by set_solver. lia.
  - rewrite H1. simpl. eauto.
Qed.

Lemma call_balanced h0 c s s' :
  balanced h0 s → call c s = Some s' → balanced h0 s'.
Proof.
  destruct c as [e|]; simpl; intros Hb H.
  - by eapply record_balanced.
  - destruct (clear_balanced _ _ _ Hb H) as [Hv Hr].
    intros e. rewrite Hr, Hv. simpl.
    rewrite decide_False by set_solver. lia.
Qed.

Lemma run_balanced h0 cs s s' :
  balanced h0 s → run cs s = Some s' → balanced h0 s'.
Proof.
  revert s. induction cs as [|c cs IH]; intros s Hb H; simplify_eq/=.
  - done.
  - destruct (call c s) as [s1|] eqn:H1; simplify_eq/=.
    eapply IH; [|done]. by eapply call_balanced.
Qed.

Lemma call_pinned c s s' :
  call c s = Some s' →
  ∀ e, refs_of VERSION_MANAGER_REF s'.2 e = refs_of VERSION_MANAGER_REF s.2 e.
Proof.
  destruct s as [vi h]. destruct c as [x|]; simpl.
  - unfold record_equivalence_set. intros H e.
    case_decide; simplify_eq/=; [done|].
    destruct (add_base_resource_ref h x VERSION_INFO_REF) as [h1|] eqn:H1;
      simplify_eq/=.
    by eapply add_base_resource_ref_other.
  - unfold clear. intros H e. case_decide; simplify_eq/=; [done|].
    destruct (release_all VERSION_INFO_REF (elements (equivalence_sets vi)) h)
      as [h1|] eqn:H1; simplify_eq/=.
    by eapply release_all_other.
Qed.

Lemma record_is_Some e s :
  pinned s.2 e → is_Some (record_equivalence_set e s).
Proof.
  destruct s as [vi h]. unfold pinned, record_equivalence_set, refs_of.
  simpl. intros Hp. case_decide; [eauto|].
  unfold add_base_resource_ref.
  destruct (h !! e); [simpl; eauto|lia].
Qed.

Lemma run_is_Some h0 cs s :
  balanced h0 s → (∀ e, RecordSet e ∈ cs → pinned s.2 e) →
  is_Some (run cs s).
Proof.
  revert s. induction cs as [|c cs IH]; intros s Hb Hp; simpl; [eauto|].
  assert (is_Some (call c s)) as [s1 H1].
  { destruct c as [e|]; simpl.
    - apply record_is_Some, Hp. set_solver.
    - by eapply clear_is_Some. }
  rewrite H1. simpl. apply IH.
  - by eapply call_balanced.
  - intros e He. unfold pinned. rewrite (call_pinned _ _ _ H1).
    apply Hp. set_solver.
Qed.

Lemma run_pinned cs s s' :
  run cs s = Some s' →
  ∀ e, refs_of VERSION_MANAGER_REF s'.2 e = refs_of VERSION_MANAGER_REF s.2 e.
Proof.
  revert s. induction cs as [|c cs IH]; intros s H e; simplify_eq/=; [done|].
  destruct (call c s) as [s1|] eqn:H1; simplify_eq/=.
  rewrite (IH _ H). by apply (call_pinned c).
Qed.

Lemma balanced_init h0 : balanced h0 (VersionInfo_new, h0).
Proof. intros e. simpl. rewrite decide_False by set_solver. lia. Qed.

Lemma record_stores e vi h vi' h' :
  record_equivalence_set e (vi, h) = Some (vi', h') →
  equivalence_sets vi' = {[e]} ∪ equivalence_sets vi ∧
  ∀ e', refs_of VERSION_INFO_REF h' e' =
        (refs_of VERSION_INFO_REF h e' +
         if decide (e' = e ∧ e ∉ equivalence_sets vi) then 1 else 0)%nat.
Proof.
  unfold record_equivalence_set. intros H.
  case_decide as Hin; simplify_eq/=.
  - split; [set_solver|]. intros e'.
    rewrite decide_False by tauto. lia.
  - destruct (add_base_resource_ref h e VERSION_INFO_REF) as [h1|] eqn:H1;
      simplify_eq/=.
    split; [done|]. intros e'.
    rewrite (add_base_resource_ref_refs _ _ _ _ H1 e').
    repeat case_decide; try lia; naive_solver.
Qed.

Lemma clear_stores s s' :
  clear s = Some s' → equivalence_sets s'.1 = ∅.
Proof.
  destruct s as [vi h]. unfold clear. intros H.
  case_decide as Hemp; simplify_eq/=; [done|].
  destruct (release_all VERSION_INFO_REF (elements (equivalence_sets vi)) h);
    by simplify_eq/=.
Qed.

Lemma run_stores cs s s' :
  run cs s = Some s' →
  equivalence_sets s'.1 = recorded cs (equivalence_sets s.1).
Proof.
  revert s. induction cs as [|c cs IH]; intros s H; simplify_eq/=; [done|].
  destruct (call c s) as [s1|] eqn:H1; simplify_eq/=.
  rewrite (IH _ H). destruct c as [e|]; simpl in H1.
  - destruct s as [vi h], s1 as [vi1 h1]. simpl.
    by destruct (record_stores _ _ _ _ _ H1) as [-> _].
  - simpl. by rewrite (clear_stores _ _ H1).
Qed.

(** C10: after any sequence of record_equivalence_set and clear calls on
    a fresh VersionInfo, the sets stored are the sets recorded since the
    last clear, every stored set holds exactly one VERSION_INFO_REF
    reference more than before the sequence and every other set holds
    what it held; the references of the managers are as they were.  A
    further record_equivalence_set of a live set
    succeeds; it leaves stored the set with the sets stored before, adds
    one reference to the set if it was not stored and none if it was,
    changes the count of no other set, and recording the set again
    changes nothing.  clear succeeds, empties the snapshot, removes one
    reference from each stored set and none from any other, and so leaves
    every count as it was before the sequence.  The sequence runs to its
    end whenever the sets recorded are live, which a reference of their
    manager guarantees. *)
Theorem version_info_references_balanced (cs : list Call) (h0 : Store) :
  (∀ vi h, run cs (VersionInfo_new, h0) = Some (vi, h) →
     equivalence_sets vi = recorded cs ∅ ∧
     (∀ e, refs_of VERSION_INFO_REF h e =
           (refs_of VERSION_INFO_REF h0 e +
            if decide (e ∈ equivalence_sets vi) then 1 else 0)%nat) ∧
     (∀ e, refs_of VERSION_MANAGER_REF h e =
           refs_of VERSION_MANAGER_REF h0 e) ∧
     (∀ e, pinned h e → is_Some (record_equivalence_set e (vi, h))) ∧
     (∀ e vi' h',
        record_equivalence_set e (vi, h) = Some (vi', h') →
        equivalence_sets vi' = {[e]} ∪ equivalence_sets vi ∧
        (∀ e', refs_of VERSION_INFO_REF h' e' =
               (refs_of VERSION_INFO_REF h e' +
                if decide (e' = e ∧ e ∉ equivalence_sets vi)
                then 1 else 0)%nat)) ∧
     (∀ e, e ∈ equivalence_sets vi →
           record_equivalence_set e (vi, h) = Some (vi, h)) ∧
     (∀ e s', record_equivalence_set e (vi, h) = Some s' →
              record_equivalence_set e s' = Some s') ∧
     (∃ h', clear (vi, h) = Some (VersionInfo_new, h') ∧
            (∀ e, refs_of VERSION_INFO_REF h' e =
                  refs_of VERSION_INFO_REF h0 e) ∧
            (∀ e, refs_of VERSION_INFO_REF h e =
                  (refs_of VERSION_INFO_REF h' e +
                   if decide (e ∈ equivalence_sets vi)
                   then 1 else 0)%nat))) ∧
  ((∀ e, RecordSet e ∈ cs → pinned h0 e) →
   is_Some (run cs (VersionInfo_new, h0))).
Proof.
  split.
  - intros vi h Hrun.
    pose proof (run_balanced h0 cs _ _ (balanced_init h0) Hrun) as Hb.
    split; [exact (run_stores _ _ _ Hrun)|].
    split; [exact Hb|].
    split; [exact (run_pinned _ _ _ Hrun)|].
    split; [intros e; apply (record_is_Some e (vi, h))|].
    split; [intros e vi' h'; apply record_stores|].
    split; [|split].
    + intros e He. unfold record_equivalence_set. by rewrite decide_True.
    + intros e s'. apply (record_twice e (vi, h)).
    + destruct (clear_is_Some _ _ Hb) as [[vi' h'] Hc].
      destruct (clear_balanced _ _ _ Hb Hc) as [Hv Hr]. simpl in *.
      subst vi'. exists h'. split; [done|]. split; [done|].
      intros e. rewrite Hr. apply (Hb e).
  - intros Hp. apply (run_is_Some h0); [apply balanced_init|done].
Qed.

(** A run that records two sets (one of them twice), clears, and records
    one again; the second set already holds two references of other
    VersionInfos.  Recording the first set afterwards stores both sets
    and adds one reference to the first. *)
Lemma version_info_references_balanced_witness :
  let h0 : Store := {[ 7 := mkCollectable 0 1; 9 := mkCollectable 2 1 ]} in
  let cs := [RecordSet 7; RecordSet 9; RecordSet 7; Clear; RecordSet 9] in
  ∃ vi h, run cs (VersionInfo_new, h0) = Some (vi, h) ∧
          equivalence_sets vi = {[ 9 ]} ∧
          refs_of VERSION_INFO_REF h 9 = 3%nat ∧
          refs_of VERSION_INFO_REF h 7 = 0%nat ∧
          ∃ vi' h', record_equivalence_set 7 (vi, h) = Some (vi', h') ∧
                    equivalence_sets vi' = {[ 7; 9 ]} ∧
                    refs_of VERSION_INFO_REF h' 7 = 1%nat ∧
                    refs_of VERSION_INFO_REF h' 9 = 3%nat.
Proof.
  intros h0 cs.
  destruct (version_info_references_balanced cs h0) as [Hsafe Htotal].
  assert (is_Some (run cs (VersionInfo_new, h0))) as [[vi h] Hrun].
  { apply Htotal. intros e He. unfold pinned.
    assert (e = 7 ∨ e = 9) as [->| ->];
      [|vm_compute; lia|vm_compute; lia].
    subst cs. set_solver. }
  exists vi, h. split; [exact Hrun|].
  destruct (Hsafe vi h Hrun) as (Hvi & Hb & Hman & Hlive & Hrec & _).
  assert (recorded cs ∅ = {[ 9 ]}) as Hcs by (subst cs; simpl; set_solver).
  rewrite Hcs in Hvi.
  assert (refs_of VERSION_INFO_REF h 9 = 3%nat) as H9.
  { rewrite (Hb 9), Hvi. rewrite decide_True by set_solver. reflexivity. }
  assert (refs_of VERSION_INFO_REF h 7 = 0%nat) as H7.
  { rewrite (Hb 7), Hvi. rewrite decide_False by set_solver. reflexivity. }
  do 3 (split; [done|]).
  destruct (Hlive 7) as [[vi' h'] Hr].
  { unfold pinned. rewrite (Hman 7). vm_compute. lia. }
  exists vi', h'. split; [exact Hr|].
  destruct (Hrec 7 vi' h' Hr) as [Hs Hc]. split; [by rewrite Hs, Hvi|].
  rewrite (Hc 7), (Hc 9), H7, H9, Hvi.
  rewrite decide_True by set_solver. rewrite decide_False by set_solver.
  done.
Defined.

End VersioningFacts.

(* ===================================================================== *)
(** ** Context invalidation *)
(* ===================================================================== *)

Module InvalidationFacts.
Import Versioning VersioningFacts.

Lemma logical_reset_state (st : Logical.LogicalState) :
  Logical.reset st =
  (Logical.LogicalState_new (Logical.owner st),
   ((λ u, (Logical.op u, Logical.gen u)) <$> Logical.curr_epoch_users st)
   ++ ((λ u, (Logical.op u, Logical.gen u)) <$> Logical.prev_epoch_users st)).
Proof. reflexivity. Qed.

Lemma manager_reset_state vm h vm' h' :
  reset (vm, h) = Some (vm', h') →
  vm' = VersionManager_new (node vm) (ctx vm).
Proof.
  unfold reset. intros H.
  destruct (if decide (vm_equivalence_sets vm = ∅) then Some h else _)
    as [h1|]; by simplify_eq/=.
Qed.

Lemma manager_reset_is_Some vm h :
  (∀ e, e ∈ vm_equivalence_sets vm →
        (0 < refs_of VERSION_MANAGER_REF h e)%nat) →
  is_Some (reset (vm, h)).
Proof.
  intros Hl. unfold reset. case_decide; [simpl; eauto|].
  destruct (release_all_is_Some VERSION_MANAGER_REF
              (elements (vm_equivalence_sets vm)) h) as [h1 H1].
  - apply NoDup_elements.
  - intros e He. apply Hl. set_solver.
  - rewrite H1. simpl. eauto.
Qed.

Lemma manager_reset_twice s s' : reset s = Some s' → reset s' = Some s'.
Proof.
  destruct s as [vm h], s' as [vm' h']. intros H.
  rewrite (manager_reset_state _ _ _ _ H). reflexivity.
Qed.

(** C9: reset applied to a LogicalState leaves no field state, no user,
    no reduction field, no outstanding reduction and no projection epoch,
    and a second reset returns the same state and releases no mapping
    reference; reset applied to a VersionManager whose equivalence sets
    are live succeeds and leaves no equivalence set, no ready event and
    has_equivalence_sets false, and a second reset returns the same
    manager and the same store of references, as it does after any first
    reset that returned. *)
Theorem reset_idempotent :
  (∀ st : Logical.LogicalState,
     let st1 := (Logical.reset st).1 in
     Logical.reset st1 = (st1, []) ∧
     Logical.field_states st1 = [] ∧
     Logical.curr_epoch_users st1 = [] ∧
     Logical.prev_epoch_users st1 = [] ∧
     Logical.reduction_fields st1 = 0 ∧
     Logical.outstanding_reductions st1 = ∅ ∧
     Logical.projection_epochs st1 = []) ∧
  (∀ (vm : VersionManager) (h : Store),
     (∀ e, e ∈ vm_equivalence_sets vm →
           (0 < refs_of VERSION_MANAGER_REF h e)%nat) →
     ∃ vm1 h1,
       reset (vm, h) = Some (vm1, h1) ∧
       reset (vm1, h1) = Some (vm1, h1) ∧
       vm_equivalence_sets vm1 = ∅ ∧
       equivalence_sets_ready vm1 = NO_RT_USER_EVENT ∧
       has_equivalence_sets vm1 = false) ∧
  (∀ s s' : VersionManager * Store,
     reset s = Some s' → reset s' = Some s').
Proof.
  split_and!.
  - intros st st1. subst st1. rewrite !logical_reset_state. simpl. done.
  - intros vm h Hl.
    destruct (manager_reset_is_Some vm h Hl) as [[vm1 h1] H1].
    exists vm1, h1. split; [done|].
    split; [by eapply manager_reset_twice|].
    by rewrite (manager_reset_state _ _ _ _ H1).
  - apply manager_reset_twice.
Qed.

(** A manager holding two live sets, one of which dies with the reset. *)
Lemma reset_idempotent_witness :
  let vm := mkVersionManager 1 5 (Some 2) true {[ 7; 9 ]} 33 true in
  let h : Store := {[ 7 := mkCollectable 0 1; 9 := mkCollectable 1 1 ]} in
  ∃ vm1 h1,
    reset (vm, h) = Some (vm1, h1) ∧ reset (vm1, h1) = Some (vm1, h1) ∧
    h1 = {[ 9 := mkCollectable 1 0 ]}.
Proof.
  intros vm h.
  destruct (proj1 (proj2 reset_idempotent) vm h)
    as (vm1 & h1 & H1 & H2 & _).
  - intros e He. assert (e = 7 ∨ e = 9) as [->| ->];
      [|vm_compute; lia|vm_compute; lia].
    subst vm. simpl in He. set_solver.
  - exists vm1, h1. split; [exact H1|]. split; [exact H2|].
    vm_compute in H1. by simplify_eq.
Defined.

End InvalidationFacts.

(* ===================================================================== *)
(** ** Field states *)
(* ===================================================================== *)

Module FieldStateFacts.
Import Logical.

(** Whatever the three privilege tests compute, the constructor opens
    OPEN_SINGLE_REDUCE only for a usage that IS_WRITE rejects and
    IS_REDUCE accepts: a reduction is not a write for IS_WRITE. *)
Lemma FieldState_reduce_not_is_write
    (is_read_only is_write is_reduce : RegionUsage → bool)
    (unset : OpenState) user m c :
  unset ≠ OPEN_SINGLE_REDUCE →
  open_state (FieldState_of_user_with is_read_only is_write is_reduce
                unset user m c) = OPEN_SINGLE_REDUCE →
  is_read_only (usage user) = false ∧ is_write (usage user) = false ∧
  is_reduce (usage user) = true.
Proof.
  unfold FieldState_of_user_with. intros Hu.
  destruct (is_read_only (usage user)); [done|].
  destruct (is_write (usage user)); [done|].
  destruct (is_reduce (usage user)); simpl; [done|congruence].
Qed.

(** So the usages for which logical analysis opens a reduction state get a
    shared copy from make_ready, whatever the privilege tests compute. *)
Lemma reduction_requests_shared_copy
    (is_read_only is_write is_reduce : RegionUsage → bool)
    (unset : OpenState) user m c mask vi q :
  unset ≠ OPEN_SINGLE_REDUCE →
  open_state (FieldState_of_user_with is_read_only is_write is_reduce
                unset user m c) = OPEN_SINGLE_REDUCE →
  q ∈ Versioning.make_ready_with is_write (usage user) mask vi →
  Versioning.req_exclusive q = false.
Proof.
  intros Hu Ho Hq.
  destruct (FieldState_reduce_not_is_write _ _ _ _ _ _ _ Hu Ho) as (_ & Hw & _).
  apply VersioningFacts.make_ready_with_requests in Hq as (_ & _ & ->).
  exact Hw.
Qed.

Example FieldState_of_reduce_user :
  FieldState_of_user
    (mkGenericUser (mkUsage REDUCE EXCLUSIVE 3) 1) 1 0
  = mkFieldState 1 {[ 0 := 1 ]} OPEN_SINGLE_REDUCE 3 None None 1.
Proof. reflexivity. Qed.

(** C3 (as the code has it): overlaps returns true exactly when the two
    states have the same redop, the same projection function, the same
    projection space when a projection is present, and then the same
    open_state if the redop is 0, the same valid_fields if it is not. *)
Theorem overlaps_iff (a b : FieldState) :
  overlaps a b = true ↔
  fs_redop a = fs_redop b ∧
  projection a = projection b ∧
  (projection a ≠ None → projection_space a = projection_space b) ∧
  (fs_redop a = 0 → open_state a = open_state b) ∧
  (fs_redop a ≠ 0 → valid_fields a = valid_fields b).
Proof.
  unfold overlaps.
  repeat (case_bool_decide; simpl); intuition congruence.
Qed.

(** C3 (as stated) fails: two states opened by reductions with the same
    redop on different fields agree on the four components, and overlaps
    returns false. *)
Lemma overlaps_same_components_false :
  let a := mkFieldState 1 {[ 0 := 1 ]} OPEN_SINGLE_REDUCE 3 None None 1 in
  let b := mkFieldState 2 {[ 0 := 2 ]} OPEN_SINGLE_REDUCE 3 None None 1 in
  spec_mergeable a b ∧ overlaps a b = false.
Proof. split; [by repeat split|reflexivity]. Qed.

(** The other direction fails too: with the same redop and the same
    fields, overlaps returns true for different open states. *)
Lemma overlaps_different_open_state_true :
  let a := mkFieldState 1 {[ 0 := 1 ]} OPEN_SINGLE_REDUCE 3 None None 1 in
  let b := mkFieldState 1 {[ 0 := 1; 1 := 1 ]} OPEN_MULTI_REDUCE 3 None None 1 in
  reduce_state (open_state a) = true ∧ reduce_state (open_state b) = true ∧
  ¬ spec_mergeable a b ∧ overlaps a b = true.
Proof.
  repeat split; try reflexivity. intros (H & _). discriminate H.
Qed.

End FieldStateFacts.

(* ===================================================================== *)
(** ** Projection epochs *)
(* ===================================================================== *)

Module ProjectionEpochFacts.
Import Logical.

Lemma fm_and_comm a b : fm_and a b = fm_and b a.
Proof. apply N.land_comm. Qed.

Lemma no_shared_field_app l1 l2 :
  no_shared_field (l1 ++ l2) ↔
  no_shared_field l1 ∧ no_shared_field l2 ∧
  ∀ a b, a ∈ l1 → b ∈ l2 → epoch_id a = epoch_id b →
         fm_and (pe_valid_fields a) (pe_valid_fields b) = 0.
Proof.
  induction l1 as [|e l1 IH]; simpl.
  - split; [intros H; split_and!; [done|done|]|tauto].
    intros a b Ha. by apply elem_of_nil in Ha.
  - rewrite IH. split.
    + intros (He & H1 & H2 & H12). split_and!; try done.
      * intros e' He'. apply He. set_solver.
      * intros a b Ha Hb. apply elem_of_cons in Ha as [->|Ha].
        -- apply He. set_solver.
        -- by apply H12.
    + intros ((He & H1) & H2 & H12). split_and!; try done.
      * intros e' He'. apply elem_of_app in He' as [He'|He'].
        -- by apply He.
        -- apply H12; set_solver.
      * intros a b Ha Hb. apply H12; set_solver.
Qed.

(** *** The epochs that stay *)

Lemma with_fields_same e : with_fields e (pe_valid_fields e) = e.
Proof. by destruct e. Qed.

Lemma no_shared_field_shrink mask l :
  no_shared_field l →
  no_shared_field (filter (λ e, pe_valid_fields e ≠ 0) (shrink mask <$> l)).
Proof.
  induction l as [|e l IH]; [done|]. intros (He & Hl). simpl.
  assert (∀ e', e' ∈ filter (λ e, pe_valid_fields e ≠ 0) (shrink mask <$> l) →
                epoch_id (shrink mask e) = epoch_id e' →
                fm_and (pe_valid_fields (shrink mask e))
                  (pe_valid_fields e') = 0) as Hhead.
  { intros e' He' Hid. apply list_elem_of_filter in He' as [_ He'].
    apply list_elem_of_fmap in He' as (e0 & -> & He0). simpl in *.
    apply fm_diff_keeps_disjoint. by apply He. }
  rewrite filter_cons. case_decide; [|by apply IH].
  simpl. split; [exact Hhead|by apply IH].
Qed.

(** *** The epochs to add *)

Lemma epoch_find_Some k t e : epoch_find k t = Some e → (k, e) ∈ t.
Proof.
  induction t as [|[k' e'] t IH]; simpl; [done|].
  case_bool_decide; intros ?; simplify_eq; set_solver.
Qed.

Lemma epoch_find_None k t : epoch_find k t = None → k ∉ t.*1.
Proof.
  induction t as [|[k' e'] t IH]; simpl; [set_solver|].
  case_bool_decide; intros ?; simplify_eq. set_solver.
Qed.

Lemma elem_of_epoch_insert k e t k' e' :
  (k', e') ∈ epoch_insert k e t ↔ (k' = k ∧ e' = e) ∨ (k', e') ∈ t.
Proof.
  induction t as [|[k0 e0] t IH]; simpl.
  - set_solver.
  - case_bool_decide; set_solver.
Qed.

Lemma epoch_insert_keys k e t k' :
  k' ∈ (epoch_insert k e t).*1 ↔ k' = k ∨ k' ∈ t.*1.
Proof.
  induction t as [|[k0 e0] t IH]; simpl.
  - set_solver.
  - case_bool_decide; set_solver.
Qed.

Lemma epoch_insert_NoDup k e t :
  k ∉ t.*1 → NoDup t.*1 → NoDup (epoch_insert k e t).*1.
Proof.
  induction t as [|[k0 e0] t IH]; simpl.
  - intros _ _. apply NoDup_singleton.
  - intros Hk Hnd. apply list.NoDup_cons in Hnd as [Hk0 Ht].
    case_bool_decide; simpl.
    + apply list.NoDup_cons. split; [done|by apply list.NoDup_cons].
    + apply list.NoDup_cons. split; [|apply IH; set_solver].
      rewrite epoch_insert_keys. set_solver.
Qed.

Lemma epoch_update_keys k ov t : (epoch_update k ov t).*1 = t.*1.
Proof.
  induction t as [|[k0 e0] t IH]; simpl; [done|].
  case_bool_decide; simpl; [done|]. f_equal. exact IH.
Qed.

Lemma elem_of_epoch_update k ov t k' e' :
  (k', e') ∈ epoch_update k ov t →
  (k' = k ∧ ∃ e0, (k, e0) ∈ t ∧
                  e' = with_fields e0 (fm_or (pe_valid_fields e0) ov)) ∨
  (k', e') ∈ t.
Proof.
  induction t as [|[k0 e0] t IH]; simpl.
  - set_solver.
  - case_bool_decide as Hk; subst.
    + intros [Hin|Hin]%elem_of_cons; simplify_eq.
      * left. split; [done|]. exists e0. split; [set_solver|done].
      * right. set_solver.
    + intros [Hin|Hin]%elem_of_cons; simplify_eq; [right; set_solver|].
      destruct (IH Hin) as [(-> & e1 & H1 & ->)|H1].
      * left. split; [done|]. exists e1. split; [set_solver|done].
      * right. set_solver.
Qed.

Lemma epoch_update_found k ov t e :
  (k, e) ∈ t → NoDup t.*1 →
  (k, with_fields e (fm_or (pe_valid_fields e) ov)) ∈ epoch_update k ov t.
Proof.
  induction t as [|[k0 e0] t IH]; simpl; [set_solver|].
  intros Hin Hnd. apply list.NoDup_cons in Hnd as [Hk0 Ht].
  apply elem_of_cons in Hin as [Hin|Hin]; simplify_eq.
  - rewrite bool_decide_true by done. set_solver.
  - case_bool_decide; subst.
    + exfalso. apply Hk0. apply list_elem_of_fmap. by exists (k, e).
    + apply elem_of_cons. right. by apply IH.
Qed.

Lemma epoch_update_other k ov t k' e' :
  (k', e') ∈ t → k' ≠ k → (k', e') ∈ epoch_update k ov t.
Proof.
  induction t as [|[k0 e0] t IH]; simpl; [set_solver|].
  intros Hin Hk. case_bool_decide; subst.
  - apply elem_of_cons in Hin as [Hin|Hin]; simplify_eq. set_solver.
  - apply elem_of_cons in Hin as [Hin|Hin]; simplify_eq; set_solver.
Qed.

Lemma to_add_ok_step mask e t :
  fm_and (pe_valid_fields e) mask ≠ 0 →
  to_add_ok mask t → to_add_ok mask (to_add_next mask e t).
Proof.
  intros Hov [Hnd Hok]. unfold to_add_next.
  destruct (epoch_find _ t) as [ne|] eqn:Hfind.
  - split; [by rewrite epoch_update_keys|].
    intros k e' Hk.
    apply elem_of_epoch_update in Hk as [(-> & e0 & H0 & ->)|Hk];
      [|by apply Hok].
    destruct (Hok _ _ H0) as (Hid & Hne & Hin).
    simpl. split_and!; [done|by apply fm_or_nonzero_r|].
    apply fm_or_inside; [done|apply fm_and_inside].
  - apply epoch_find_None in Hfind.
    split; [by apply epoch_insert_NoDup|].
    intros k e' Hk. apply elem_of_epoch_insert in Hk as [[-> ->]|Hk];
      [|by apply Hok].
    simpl. split_and!; [done|done|apply fm_and_inside].
Qed.

Lemma advance_loop_cons mask e l t :
  advance_loop mask (e :: l) t =
  if fm_empty (fm_and (pe_valid_fields e) mask)
  then (e :: (advance_loop mask l t).1, (advance_loop mask l t).2)
  else
    let r := advance_loop mask l (to_add_next mask e t) in
    if fm_empty (fm_diff (pe_valid_fields e) mask)
    then r else (shrink mask e :: r.1, r.2).
Proof.
  simpl. destruct (fm_empty (fm_and _ _)).
  - by destruct (advance_loop mask l t).
  - rewrite fm_diff_overlap. fold (to_add_next mask e t).
    destruct (fm_empty (fm_diff _ _)); [done|].
    by destruct (advance_loop mask l (to_add_next mask e t)).
Qed.

Lemma advance_loop_kept mask l t :
  (∀ e, e ∈ l → pe_valid_fields e ≠ 0) →
  (advance_loop mask l t).1 =
  filter (λ e, pe_valid_fields e ≠ 0) (shrink mask <$> l).
Proof.
  revert t. induction l as [|e l IH]; intros t Hne; [done|].
  assert (∀ e, e ∈ l → pe_valid_fields e ≠ 0) as Hl
    by (intros; apply Hne; set_solver).
  assert (pe_valid_fields e ≠ 0) as He by (apply Hne; set_solver).
  rewrite advance_loop_cons. simpl.
  destruct (fm_empty (fm_and _ _)) eqn:Hov.
  - apply fm_empty_true in Hov. simpl.
    rewrite filter_cons_True by (simpl; by rewrite (fm_diff_disjoint _ _ Hov)).
    unfold shrink at 1. rewrite (fm_diff_disjoint _ _ Hov).
    by rewrite with_fields_same, IH.
  - destruct (fm_empty (fm_diff _ _)) eqn:Hrest.
    + apply fm_empty_true in Hrest.
      rewrite filter_cons_False by (simpl; intros H; by apply H).
      by apply IH.
    + apply fm_empty_false in Hrest. simpl.
      rewrite filter_cons_True by done. by rewrite IH.
Qed.

Lemma advance_loop_to_add_ok mask l t :
  to_add_ok mask t → to_add_ok mask (advance_loop mask l t).2.
Proof.
  revert t. induction l as [|e l IH]; intros t Ht; [done|].
  rewrite advance_loop_cons. destruct (fm_empty (fm_and _ _)) eqn:Hov.
  - by apply IH.
  - apply fm_empty_false in Hov.
    pose proof (to_add_ok_step mask e t Hov Ht) as Ht1. simpl.
    destruct (fm_empty (fm_diff _ _)); by apply IH.
Qed.

Lemma to_add_no_shared_field mask t :
  to_add_ok mask t → no_shared_field t.*2.
Proof.
  intros [Hnd Hok]. induction t as [|[k e] t IH]; [done|].
  simpl in *. apply list.NoDup_cons in Hnd as [Hk Hnd]. split.
  - intros e' He' Hid. exfalso. apply Hk.
    apply list_elem_of_fmap in He' as ([k' e0] & -> & Hin). simpl in *.
    destruct (Hok k e) as (Hke & _); [set_solver|].
    destruct (Hok k' e0) as (Hke' & _); [set_solver|].
    apply list_elem_of_fmap. exists (k', e0). split; [simpl; congruence|done].
  - apply IH; [done|]. intros k' e' Hin. apply Hok. set_solver.
Qed.

(** Entries of [to_add] persist through the loop, their fields growing. *)
Lemma to_add_step_mono mask x (t : EpochMap) k e f :
  NoDup t.*1 →
  (k, e) ∈ t → N.testbit (pe_valid_fields e) f = true →
  ∃ e1, (k, e1) ∈ to_add_next mask x t ∧
        N.testbit (pe_valid_fields e1) f = true.
Proof.
  intros Hnd Hin Hf. unfold to_add_next.
  destruct (decide (k = epoch_succ (epoch_id x))) as [->|Hk].
  - destruct (epoch_find _ t) as [ne|] eqn:Hfind.
    + eexists. split; [by apply epoch_update_found|]. simpl.
      unfold fm_or. rewrite N.lor_spec. by rewrite Hf.
    + apply epoch_find_None in Hfind. exfalso. apply Hfind.
      apply list_elem_of_fmap. by exists (epoch_succ (epoch_id x), e).
  - exists e. split; [|done].
    destruct (epoch_find _ t).
    + by apply epoch_update_other.
    + apply elem_of_epoch_insert. by right.
Qed.

Lemma advance_loop_to_add_mono mask l t k e f :
  to_add_ok mask t →
  (k, e) ∈ t → N.testbit (pe_valid_fields e) f = true →
  ∃ e', (k, e') ∈ (advance_loop mask l t).2 ∧
        N.testbit (pe_valid_fields e') f = true.
Proof.
  revert t e. induction l as [|x l IH]; intros t e Ht Hin Hf; [by eauto|].
  rewrite advance_loop_cons. destruct (fm_empty (fm_and _ _)) eqn:Hov.
  - by apply (IH t e).
  - apply fm_empty_false in Hov.
    pose proof (to_add_ok_step mask x t Hov Ht) as Ht1.
    destruct (to_add_step_mono mask x t k e f (proj1 Ht) Hin Hf)
      as (e1 & Hin1 & Hf1).
    simpl. destruct (fm_empty (fm_diff _ _)); by apply (IH _ e1).
Qed.

(** A field of the mask that lies in an epoch of the list lies, after the
    loop, in the entry of [to_add] for the next id. *)
Lemma advance_loop_advances mask l t e f :
  to_add_ok mask t →
  e ∈ l → N.testbit (pe_valid_fields e) f = true →
  N.testbit mask f = true →
  ∃ e', (epoch_succ (epoch_id e), e') ∈ (advance_loop mask l t).2 ∧
        N.testbit (pe_valid_fields e') f = true.
Proof.
  revert t. induction l as [|x l IH]; intros t Ht Hin Hf Hm;
    [by apply elem_of_nil in Hin|].
  rewrite advance_loop_cons. destruct (fm_empty (fm_and _ _)) eqn:Hov.
  - apply fm_empty_true in Hov.
    apply elem_of_cons in Hin as [->|Hin]; [|by apply (IH t)].
    exfalso. unfold fm_and in Hov. mask_hyp Hov f.
    rewrite Hf, Hm in Hov. done.
  - apply fm_empty_false in Hov.
    pose proof (to_add_ok_step mask x t Hov Ht) as Ht1.
    assert (∃ e', (epoch_succ (epoch_id e), e') ∈
                    (advance_loop mask l (to_add_next mask x t)).2 ∧
                  N.testbit (pe_valid_fields e') f = true) as Hgoal.
    { apply elem_of_cons in Hin as [->|Hin]; [|by apply IH].
      assert (∃ e1, (epoch_succ (epoch_id x), e1) ∈ to_add_next mask x t ∧
                    N.testbit (pe_valid_fields e1) f = true)
        as (e1 & Hin1 & Hf1).
      { unfold to_add_next.
        destruct (epoch_find _ t) as [ne|] eqn:Hfind.
        - apply epoch_find_Some in Hfind. eexists.
          split; [apply epoch_update_found; [done|apply Ht]|].
          simpl. unfold fm_or, fm_and.
          rewrite N.lor_spec, N.land_spec, Hf, Hm. by rewrite orb_true_r.
        - eexists. split; [apply elem_of_epoch_insert; by left|].
          simpl. unfold fm_and. by rewrite N.land_spec, Hf, Hm. }
      by eapply advance_loop_to_add_mono. }
    simpl. by destruct (fm_empty (fm_diff _ _)).
Qed.


Lemma advance_projection_epochs_list st mask :
  projection_epochs (advance_projection_epochs st mask) =
  (advance_loop mask (projection_epochs st) []).1
  ++ (advance_loop mask (projection_epochs st) []).2.*2.
Proof.
  unfold advance_projection_epochs.
  by destruct (advance_loop mask (projection_epochs st) []).
Qed.

Lemma to_add_ok_nil mask : to_add_ok mask [].
Proof. split; [constructor|]. intros k e H. by apply elem_of_nil in H. Qed.

Lemma bit_nonzero (a : FieldMask) f : N.testbit a f = true → a ≠ 0.
Proof. intros H ->. by rewrite N.bits_0 in H. Qed.

Lemma elem_of_kept mask (l : list ProjectionEpoch) e' :
  e' ∈ filter (λ e, pe_valid_fields e ≠ 0) (shrink mask <$> l) ↔
  pe_valid_fields e' ≠ 0 ∧ ∃ e, e ∈ l ∧ e' = shrink mask e.
Proof.
  rewrite list_elem_of_filter, list_elem_of_fmap. naive_solver.
Qed.

(** C8: advance_projection_epochs preserves the invariant of the list of
    projection epochs (every epoch has fields, and no two epochs with the
    same id share a field); every field of the advance mask that lay in
    an epoch with id k lies afterwards in an epoch with the next id; and
    a field outside the advance mask lies in an epoch with id k
    afterwards exactly when it did before. *)
Theorem advance_projection_epochs_invariant (st : LogicalState)
    (advance_mask : FieldMask) :
  epochs_wf (projection_epochs st) →
  let st' := advance_projection_epochs st advance_mask in
  epochs_wf (projection_epochs st') ∧
  (∀ f k, N.testbit advance_mask f = true →
          in_epoch (projection_epochs st) f k →
          in_epoch (projection_epochs st') f (epoch_succ k)) ∧
  (∀ f k, N.testbit advance_mask f = false →
          (in_epoch (projection_epochs st) f k ↔
           in_epoch (projection_epochs st') f k)).
Proof.
  intros [Hne Hns] st'. subst st'.
  rewrite advance_projection_epochs_list.
  set (l := projection_epochs st) in *.
  rewrite (advance_loop_kept advance_mask l [] Hne).
  pose proof (advance_loop_to_add_ok advance_mask l []
                (to_add_ok_nil advance_mask)) as Hok.
  set (T := (advance_loop advance_mask l []).2) in *.
  assert (∀ e, e ∈ T.*2 →
               pe_valid_fields e ≠ 0 ∧
               fm_and (pe_valid_fields e) advance_mask = pe_valid_fields e ∧
               (epoch_id e, e) ∈ T) as HT.
  { intros e He. apply list_elem_of_fmap in He as ([k e0] & -> & Hin).
    destruct (proj2 Hok _ _ Hin) as (Hid & Hnz & Hsub). simpl in *.
    by subst. }
  split; [split|split].
  - intros e He. apply elem_of_app in He as [He|He].
    + by apply elem_of_kept in He as [He _].
    + by apply HT.
  - apply no_shared_field_app. split_and!.
    + by apply no_shared_field_shrink.
    + by eapply to_add_no_shared_field.
    + intros a b Ha Hb _. apply elem_of_kept in Ha as (_ & e & _ & ->).
      destruct (HT _ Hb) as (_ & Hsub & _). simpl.
      rewrite fm_and_comm. by apply fm_inside_outside.
  - intros f k Hm (e & He & Hid & Hf).
    destruct (advance_loop_advances advance_mask l [] e f
                (to_add_ok_nil advance_mask) He Hf Hm) as (e' & He' & Hf').
    destruct (proj2 Hok _ _ He') as (Hid' & _). subst k.
    exists e'. split_and!; [|done|done].
    apply elem_of_app. right. apply list_elem_of_fmap.
    by exists (epoch_succ (epoch_id e), e').
  - intros f k Hm. split.
    + intros (e & He & Hid & Hf).
      assert (N.testbit (pe_valid_fields (shrink advance_mask e)) f = true)
        as Hf'.
      { simpl. unfold fm_diff. by rewrite N.ldiff_spec, Hf, Hm. }
      exists (shrink advance_mask e). split_and!; [|done|done].
      apply elem_of_app. left. apply elem_of_kept.
      split; [by eapply bit_nonzero|by exists e].
    + intros (e' & He' & Hid & Hf). apply elem_of_app in He' as [He'|He'].
      * apply elem_of_kept in He' as (_ & e & He & ->).
        exists e. split_and!; [done|done|].
        simpl in Hf. unfold fm_diff in Hf. rewrite N.ldiff_spec in Hf.
        by apply andb_true_iff in Hf as [Hf _].
      * exfalso. destruct (HT _ He') as (_ & Hsub & _).
        unfold fm_and in Hsub. mask_hyp Hsub f.
        rewrite Hf, Hm in Hsub. done.
Qed.

(** Three epochs, two of which are advanced into the same next epoch
    while one of them keeps a field. *)
Lemma advance_projection_epochs_invariant_witness :
  let st :=
    mkLogicalState 0 [] [] [] 0 ∅
      [ProjectionEpoch_new 1 3; ProjectionEpoch_new 1 4;
       ProjectionEpoch_new 2 1] in
  epochs_wf (projection_epochs (advance_projection_epochs st 5)) ∧
  projection_epochs (advance_projection_epochs st 5) =
  [ProjectionEpoch_new 1 2; ProjectionEpoch_new 2 5;
   ProjectionEpoch_new 3 1].
Proof.
  intros st. split; [|reflexivity].
  apply (advance_projection_epochs_invariant st 5).
  split.
  - intros e He. subst st. simpl in He.
    repeat (apply elem_of_cons in He as [->|He]; [done|]).
    by apply elem_of_nil in He.
  - subst st. simpl. split_and!; try done;
      intros e' He' Hid;
      repeat (apply elem_of_cons in He' as [->|He'];
              [first [reflexivity | discriminate Hid]|]);
      by apply elem_of_nil in He'.
Defined.

(** Away from the largest id, the next id is the id plus one. *)
Lemma epoch_succ_plus_one k : (k + 1 < 2 ^ 64)%N → epoch_succ k = (k + 1)%N.
Proof. intros H. unfold epoch_succ. by apply N.mod_small. Qed.

End ProjectionEpochFacts.

(* ===================================================================== *)
(** ** Restrictions and acquisitions *)
(* ===================================================================== *)

Module RestrictionFacts.
Import Restrictions.

(** The remove_ methods run on the child as matches left it. *)
Lemma Acquisition_remove_acquisition_at_updated dom int a f node rem :
  Acquisition_remove_acquisition_at dom int a f node rem =
  Acquisition_remove_acquisition dom int
    (mkAcquisition (a_local_node a) f (restrictions a)) node rem.
Proof. by destruct a. Qed.

Lemma Restriction_remove_restriction_at_updated dom int r f i node rem :
  Restriction_remove_restriction_at dom int r f i node rem =
  Restriction_remove_restriction dom int
    (mkRestriction (tree_id r) (r_local_node r) f i (acquisitions r))
    node rem.
Proof. by destruct r. Qed.

(** *** The loops *)

Lemma strip_each_inside fs ov ov' :
  strip_each fs ov = Some ov' → fm_diff ov' ov = 0 ∧ ov' ≠ 0 ∨ fs = [] ∧ ov' = ov.
Proof.
  revert ov. induction fs as [|f fs IH]; intros ov; simpl.
  - intros ?; simplify_eq. by right.
  - destruct (fm_empty (fm_diff ov f)) eqn:He; [done|]. intros H.
    apply fm_empty_false in He. left.
    destruct (IH _ H) as [[Hin Hnz]|[-> ->]].
    + split; [|done]. unfold fm_diff in *. mask_eq i. mask_hyp Hin i.
      destruct (N.testbit ov' i), (N.testbit ov i), (N.testbit f i); done.
    + split; [|done]. unfold fm_diff. mask_eq i.
      destruct (N.testbit ov i), (N.testbit f i); done.
Qed.

Lemma strip_each_subset fs ov ov' :
  strip_each fs ov = Some ov' → fm_subset ov' ov.
Proof.
  intros H. destruct (strip_each_inside _ _ _ H) as [[? _]|[_ ->]]; [done|].
  apply fm_diff_diag.
Qed.

Lemma strip_each_untouched fs ov :
  ov ≠ 0 → (∀ f, f ∈ fs → fm_and f ov = 0) → strip_each fs ov = Some ov.
Proof.
  intros Hnz. induction fs as [|f fs IH]; intros Hd; [done|]. simpl.
  assert (fm_diff ov f = ov) as ->.
  { apply fm_diff_disjoint. rewrite <- (Hd f) by set_solver.
    apply N.land_comm. }
  apply fm_empty_false in Hnz. rewrite Hnz. apply IH.
  intros f' Hf'. apply Hd. set_solver.
Qed.

Lemma offer_each_inert {A} (f : A → FieldMask → Outcome (A * FieldMask))
    (l : list A) (m : FieldMask) :
  (∀ x, x ∈ l → f x m = Done (x, m)) → fm_empty m = false →
  offer_each f l m = Done (l, m).
Proof.
  intros Hf Hm. induction l as [|x l IH]; [done|]. simpl.
  rewrite Hf by set_solver. rewrite Hm.
  rewrite IH; [done|]. intros y Hy. apply Hf. set_solver.
Qed.

(** *** Release: Acquisition::matches *)

(** matches returns true only at the acquisition's own node and only
    when the release mask covers every acquired field. *)
Lemma Acquisition_matches_true a node remaining :
  (Acquisition_matches a node remaining).1.1 = true →
  a_local_node a = node ∧ fm_subset (acquired_fields a) remaining.
Proof.
  destruct a as [ln acq rs]. unfold Acquisition_matches. simpl.
  case_bool_decide as Hn; simpl; [|done].
  destruct (fm_empty (fm_and remaining acq)); [done|].
  destruct (strip_each _ _) as [ov|] eqn:Hs; [|done]. simpl.
  intros He%fm_empty_true. split; [done|].
  apply strip_each_subset in Hs. unfold fm_subset, fm_diff, fm_and in *.
  mask_eq i. mask_hyp Hs i. mask_hyp He i.
  destruct (N.testbit acq i), (N.testbit remaining i), (N.testbit ov i);
    done.
Qed.

Lemma Acquisition_matches_overlap a node remaining :
  a_local_node a = node →
  fm_and remaining (acquired_fields a) ≠ 0 →
  (∀ r, r ∈ restrictions a →
        fm_and (restricted_fields r)
          (fm_and remaining (acquired_fields a)) = 0) →
  Acquisition_matches a node remaining =
  (fm_empty (fm_diff (acquired_fields a) remaining),
   mkAcquisition (a_local_node a)
     (fm_diff (acquired_fields a) remaining) (restrictions a),
   fm_diff remaining (acquired_fields a)).
Proof.
  destruct a as [ln acq rs]. simpl. intros -> Hov Hrs.
  rewrite bool_decide_true by done. simpl.
  apply fm_empty_false in Hov as Hov'. rewrite Hov'.
  rewrite strip_each_untouched; [|done|].
  - rewrite fm_diff_overlap.
    replace (fm_diff acq (fm_and remaining acq)) with (fm_diff acq remaining);
      [done|].
    unfold fm_diff, fm_and. mask_eq i.
    destruct (N.testbit acq i), (N.testbit remaining i); done.
  - intros f Hf. apply list_elem_of_fmap in Hf as (r & -> & Hr).
    by apply Hrs.
Qed.

(** C2 (as the code has it): at the acquisition's own node, for a release
    mask that overlaps the acquired fields where no restriction nested
    below holds them, Acquisition::matches takes the overlapping fields
    out of both the release mask and acquired_fields; it returns true, so
    that Restriction::remove_acquisition deletes the acquisition, exactly
    when the mask covers every acquired field; a mask that covers only
    part of the acquired fields releases that part: matches returns
    false and the acquisition stays with the fields that are left. *)
Theorem Acquisition_matches_release (a : Acquisition) (node : RegionNode)
    (remaining : FieldMask) :
  a_local_node a = node →
  fm_and remaining (acquired_fields a) ≠ 0 →
  (∀ r, r ∈ restrictions a →
        fm_and (restricted_fields r)
          (fm_and remaining (acquired_fields a)) = 0) →
  let '(matched, a', remaining') := Acquisition_matches a node remaining in
  acquired_fields a' = fm_diff (acquired_fields a) remaining ∧
  remaining' = fm_diff remaining (acquired_fields a) ∧
  a_local_node a' = a_local_node a ∧ restrictions a' = restrictions a ∧
  (matched = true ↔ fm_subset (acquired_fields a) remaining) ∧
  (fm_subset remaining (acquired_fields a) →
   remaining ≠ acquired_fields a →
   matched = false ∧ acquired_fields a' ≠ 0 ∧
   acquired_fields a' ≠ acquired_fields a ∧ remaining' = 0).
Proof.
  intros Hn Hov Hrs.
  rewrite (Acquisition_matches_overlap a node remaining Hn Hov Hrs).
  simpl. split_and!; try done.
  - apply fm_empty_true.
  - intros Hsub Hne.
    assert (fm_diff (acquired_fields a) remaining ≠ 0) as Hleft.
    { intros Hz. apply Hne. unfold fm_subset, fm_diff in *. mask_eq i.
      mask_hyp Hsub i. mask_hyp Hz i.
      destruct (N.testbit remaining i), (N.testbit (acquired_fields a) i);
        done. }
    split_and!; [by apply fm_empty_false|done| |exact Hsub].
    intros Heq. apply Hov. unfold fm_subset, fm_diff, fm_and in *.
    mask_eq i. mask_hyp Heq i. mask_hyp Hsub i.
    destruct (N.testbit remaining i), (N.testbit (acquired_fields a) i);
      done.
Qed.

Lemma Acquisition_matches_release_witness :
  Acquisition_matches (mkAcquisition 1 6 [mkRestriction 0 1 8 ∅ []]) 1 2
  = (false, mkAcquisition 1 4 [mkRestriction 0 1 8 ∅ []], 0).
Proof.
  pose proof (Acquisition_matches_release
                (mkAcquisition 1 6 [mkRestriction 0 1 8 ∅ []]) 1 2) as H.
  destruct (Acquisition_matches _ 1 2) as [[matched a'] remaining'].
  destruct H as (Ha & Hr & Hn & Hrs & _ & Hpart).
  - reflexivity.
  - vm_compute. discriminate.
  - intros r Hr. apply list_elem_of_singleton in Hr as ->. reflexivity.
  - destruct Hpart as (Hm & _ & _ & Hz).
    + reflexivity.
    + vm_compute. discriminate.
    + destruct a' as [n f rs]. simpl in *. by subst.
Defined.

(** C2 (as stated) fails: a release of field 0 at an acquisition holding
    fields 0 and 1 does not leave acquired_fields unchanged, it leaves
    field 1 only. *)
Lemma partial_release_changes_acquired_fields :
  let a := mkAcquisition 1 3 [] in
  fm_subset 1 (acquired_fields a) ∧ 1 ≠ acquired_fields a ∧
  Acquisition_matches a 1 1 = (false, mkAcquisition 1 2 [], 0).
Proof. split_and!; [reflexivity|discriminate|reflexivity]. Qed.

(** The acquisition that matches is deleted by
    Restriction::remove_acquisition, one that is released in part
    stays. *)
Example remove_acquisition_deletes_matched :
  Restriction_remove_acquisition N.eqb N.eqb
    (mkRestriction 0 1 3 ∅ [mkAcquisition 1 3 []]) 1 3
  = (mkRestriction 0 1 3 ∅ [], 0).
Proof. reflexivity. Qed.

Example remove_acquisition_keeps_partly_released :
  Restriction_remove_acquisition N.eqb N.eqb
    (mkRestriction 0 1 3 ∅ [mkAcquisition 1 3 []]) 1 1
  = (mkRestriction 0 1 3 ∅ [mkAcquisition 1 2 []], 0).
Proof. reflexivity. Qed.


(** *** Acquire: Restriction::add_acquisition *)

Section Forest.

Variable dominates : RegionNode → RegionNode → bool.
Variable intersects_with : RegionNode → RegionNode → bool.

Abbreviation add_to_restriction :=
  (Restriction_add_acquisition dominates intersects_with).
Abbreviation add_to_acquisition :=
  (Acquisition_add_acquisition dominates intersects_with).




(** *** Attach, acquire, release, detach *)

(** C5: on a tracker that holds one restriction at region R for the
    fields f and nothing else, acquire(R, f) succeeds and leaves one
    acquisition at R for f under the restriction (add_acquisition),
    release(R, f) removes that acquisition (Acquisition::matches returns
    true in remove_acquisition), and detach(R, f) removes the restriction
    (Restriction::matches returns true): the tracker is empty, and each
    operation has used up its fields.  R dominates and intersects itself,
    and f has at least one field. *)
Theorem acquire_release_detach_empties_tracker (tid : RegionTreeID)
    (R : RegionNode) (f : FieldMask)
    (insts : gmap PhysicalManager FieldMask) :
  f ≠ 0 → dominates R R = true → intersects_with R R = true →
  let attached := mkRestriction tid R f insts [] in
  let acquired := mkRestriction tid R f insts [mkAcquisition R f []] in
  add_to_restriction attached R f = Done (acquired, 0) ∧
  Acquisition_matches (mkAcquisition R f []) R f
    = (true, mkAcquisition R 0 [], 0) ∧
  Restriction_remove_acquisition dominates intersects_with acquired R f
    = (attached, 0) ∧
  Restriction_matches attached R f
    = (true, mkRestriction tid R 0 insts [], 0) ∧
  record_acquire dominates intersects_with [attached] R f
    = Done ([acquired], 0) ∧
  record_release dominates intersects_with [acquired] R f
    = ([attached], 0) ∧
  record_detach dominates intersects_with [attached] R f = ([], 0).
Proof.
  intros Hf Hd Hi attached acquired. subst attached acquired.
  apply fm_empty_false in Hf as Hf'.
  pose proof (fm_and_diag f) as Hff.
  pose proof (fm_diff_diag f) as Hdd.
  assert (fm_disjoint f f = false) as Hdis
    by (unfold fm_disjoint; fold (fm_and f f); by rewrite Hff).
  unfold record_acquire, record_release, record_detach.
  repeat (progress (simpl;
            rewrite ?Hff, ?Hdd, ?Hdis, ?Hd, ?Hi, ?Hf';
            rewrite ?bool_decide_true by done)).
  done.
Qed.

End Forest.


(** A restriction nested under an acquisition can report the partial
    acquire although the outer restriction's node dominates the acquire
    node: node 1 dominates node 3, node 2 intersects node 3 without
    dominating it. *)
Example nested_partial_acquire :
  let dominates (a b : RegionNode) := (a =? b) || ((a =? 1) && (b =? 3)) in
  let intersects (a b : RegionNode) :=
    dominates a b || dominates b a || ((a =? 2) && (b =? 3)) in
  Restriction_add_acquisition dominates intersects
    (mkRestriction 0 1 1 ∅ [mkAcquisition 1 1 [mkRestriction 0 2 1 ∅ []]])
    3 1
  = Fatal ERROR_ILLEGAL_PARTIAL_ACQUIRE.
Proof. reflexivity. Qed.


Lemma acquire_release_detach_empties_tracker_witness :
  record_detach N.eqb N.eqb [mkRestriction 0 1 5 {[ 9 := 5 ]} []] 1 5
  = ([], 0).
Proof.
  apply (acquire_release_detach_empties_tracker N.eqb N.eqb 0 1 5
           {[ 9 := 5 ]}); [discriminate|reflexivity|reflexivity].
Defined.

End RestrictionFacts.

(* ===================================================================== *)
(** ** InstanceSet: wire round trip and copy-on-write *)
(* ===================================================================== *)

Module InstanceFacts.
Import Instances.

(** *** Where the round trip fails *)

(** C6 (as stated) fails: a set built as a two-element set, cleared and
    given one instance keeps its vector storage; packed and unpacked into
    a fresh set it arrives in single storage, and operator== compares
    the kind of storage first. *)
Lemma roundtrip_of_one_in_vector_is_unequal :
  let r := InstanceRef_new (Some 9) 3 5 in
  ∃ s0 h0 s1 h1 s h w d' h' evs,
    InstanceSet_new 2 empty_heap = (s0, h0) ∧
    clear s0 h0 = Some (s1, h1) ∧
    add_instance s1 r h1 = Some (s, h) ∧
    contents s h = Some [r] ∧
    pack_references did_ex s h = Some w ∧
    unpack_references find_ex (mkInstanceSet true false None) h w ∅
      = Some (d', h', [], evs) ∧
    contents d' h' = Some [mkInstanceRef 3 5 (Some 9) false] ∧
    InstanceSet_eq d' s h' = Some false.
Proof.
  intros r. do 10 eexists. split_and!; reflexivity.
Qed.

(** A second failure: unpack_reference returns before it touches the
    manager when the id on the wire is 0, so a destination that held a
    manager keeps it while the packed reference had none. *)
Lemma roundtrip_keeps_stale_manager :
  let h : Heap :=
    {[ 1 := CollectableRef (InstanceRef_new None 3 5) 1;
       2 := CollectableRef (InstanceRef_new (Some 9) 1 0) 1 ]} in
  let s := mkInstanceSet true false (Some 1) in
  let d := mkInstanceSet true false (Some 2) in
  ∃ w d' h' evs,
    pack_references did_ex s h = Some w ∧
    unpack_references find_ex d h w ∅ = Some (d', h', [], evs) ∧
    contents d' h' = Some [mkInstanceRef 3 5 (Some 9) true] ∧
    InstanceSet_eq d' s h' = Some false.
Proof. intros h s d. do 4 eexists. split_and!; reflexivity. Qed.

(** A third failure: unpacking an empty set into a destination in vector
    storage releases the vector and switches to single storage without
    clearing the pointer, which is then read as a non-NULL single
    reference. *)
Lemma roundtrip_of_empty_leaves_pointer :
  let h : Heap :=
    {[ 2 := InternalSet [InstanceRef_default; InstanceRef_default] 1 ]} in
  let s := mkInstanceSet true false None in
  let d := mkInstanceSet false false (Some 2) in
  ∃ w d' h' evs,
    pack_references did_ex s h = Some w ∧
    unpack_references find_ex d h w ∅ = Some (d', h', [], evs) ∧
    d' = mkInstanceSet true false (Some 2) ∧ h' = ∅ ∧
    size d' h' = Some 1%nat ∧
    InstanceSet_eq d' s h' = Some false.
Proof. intros h s d. do 4 eexists. split_and!; reflexivity. Qed.

(** *** Where copy-on-write fails *)

(** C7 fails at unpack_references: a set with one reference is copied, and
    the copy unpacks one reference from a message.  The copy reuses the
    storage it shares with the original and writes the fields through
    it, so the original's valid_fields and ready_event change; the copy
    then counts as not shared. *)
Theorem unpack_references_writes_shared_storage :
  let r0 := InstanceRef_new (Some 9) 1 5 in
  let h0 : Heap := {[ 1 := CollectableRef r0 1 ]} in
  let a := mkInstanceSet true false (Some 1) in
  let message := [W_size 1; W_mask 2; W_event 6; W_did 0] in
  ∃ b a1 h1 b2 h2 evs,
    copy_construct a h0 = Some (b, a1, h1) ∧
    shared b = true ∧ shared a1 = true ∧
    contents a1 h1 = Some [r0] ∧
    unpack_references find_ex b h1 message ∅ = Some (b2, h2, [], evs) ∧
    contents a1 h2 = Some [mkInstanceRef 2 6 (Some 9) true] ∧
    refs b2 = refs a1 ∧ shared b2 = false.
Proof. intros r0 h0 a message. do 6 eexists. split_and!; reflexivity. Qed.

(** The same in vector storage. *)
Example unpack_references_resizes_shared_vector :
  let r0 := InstanceRef_new (Some 9) 1 5 in
  let h0 : Heap := {[ 1 := InternalSet [r0; r0; r0] 1 ]} in
  let a := mkInstanceSet false false (Some 1) in
  let message :=
    [W_size 2; W_mask 2; W_event 6; W_did 0; W_mask 4; W_event 7; W_did 0] in
  ∃ b a1 h1 b2 h2 evs,
    copy_construct a h0 = Some (b, a1, h1) ∧
    unpack_references find_ex b h1 message ∅ = Some (b2, h2, [], evs) ∧
    contents a1 h2 = Some [mkInstanceRef 2 6 (Some 9) true;
                           mkInstanceRef 4 7 (Some 9) true].
Proof. intros r0 h0 a message. do 6 eexists. split_and!; reflexivity. Qed.


(** *** The heap *)

Lemma drop_reference_other (h : Heap) p h' q :
  drop_reference h p = Some h' → q ≠ p → h' !! q = h !! q.
Proof.
  unfold drop_reference. intros H Hq.
  destruct (h !! p) as [c|]; simplify_eq/=.
  destruct (references c) as [|[|n]]; simplify_eq.
  - by rewrite lookup_delete_ne.
  - by rewrite lookup_insert_ne.
Qed.

Lemma drop_reference_is_Some (h : Heap) p c :
  h !! p = Some c → (0 < references c)%nat → is_Some (drop_reference h p).
Proof.
  unfold drop_reference. intros -> Hn. simpl.
  destruct (references c) as [|[|n]]; [lia|eauto|eauto].
Qed.

Lemma release_storage_is_Some this h :
  wf this h → is_Some (release_storage this h).
Proof.
  unfold wf, release_storage. destruct (refs this) as [p|].
  - destruct (single this); intros (x & n & Hp); simpl;
      eapply drop_reference_is_Some; eauto; simpl; lia.
  - intros ->. eauto.
Qed.

Lemma release_storage_other this h h' q :
  release_storage this h = Some h' → refs this ≠ Some q → h' !! q = h !! q.
Proof.
  unfold release_storage. intros H Hq.
  destruct (single this), (refs this) as [p|]; simplify_eq/=;
    try done; eapply drop_reference_other; eauto; congruence.
Qed.

(** *** The wire *)

Section Runtime.

Variable did : PhysicalManager → DistributedID.
Variable find_or_request_physical_manager :
  DistributedID → PhysicalManager * RtEvent.

Lemma unpack_reference_packed (r0 r : InstanceRef) (w : list WireItem) :
  manager r0 = None →
  manager_found did find_or_request_physical_manager r →
  ∃ r' ready,
    unpack_reference find_or_request_physical_manager r0
      (pack_reference did r ++ w) = Some (r', ready, w) ∧
    InstanceRef_eq r' r = true.
Proof.
  intros H0 Hr. unfold pack_reference, unpack_reference. simpl.
  destruct (manager r) as [m|] eqn:Hm.
  - destruct (Hr m Hm) as [Hd Hf].
    rewrite bool_decide_false by done.
    destruct (find_or_request_physical_manager (did m)) as [man ready] eqn:Hfind.
    simpl in Hf. subst man. do 2 eexists. split; [done|].
    unfold InstanceRef_eq. simpl. rewrite Hm.
    by rewrite !bool_decide_true.
  - rewrite bool_decide_true by done. do 2 eexists. split; [done|].
    unfold InstanceRef_eq. simpl. rewrite H0, Hm.
    by rewrite !bool_decide_true.
Qed.

Lemma unpack_each_packed (vs v0 : list InstanceRef) (w : list WireItem)
    (evs : gset RtEvent) :
  length v0 = length vs →
  Forall (λ r, manager r = None) v0 →
  Forall (manager_found did find_or_request_physical_manager) vs →
  ∃ v' evs',
    unpack_each find_or_request_physical_manager v0
      (concat (pack_reference did <$> vs) ++ w) evs = Some (v', w, evs') ∧
    length v' = length vs ∧
    forallb (λ ab, negb (InstanceRef_neq ab.1 ab.2)) (zip v' vs) = true.
Proof.
  revert v0 evs. induction vs as [|r vs IH]; intros v0 evs Hlen H0 Hvs.
  - destruct v0; [|done]. simpl. eauto.
  - destruct v0 as [|r0 v0]; [done|].
    apply Forall_cons_1 in H0 as [Hr0 H0].
    apply Forall_cons_1 in Hvs as [Hr Hvs].
    simpl in Hlen. injection Hlen as Hlen.
    destruct (unpack_reference_packed r0 r
                (concat (pack_reference did <$> vs) ++ w) Hr0 Hr)
      as (r' & ready & Hu & Heq).
    destruct (IH v0 (note_ready ready evs) Hlen H0 Hvs)
      as (v' & evs' & Hv & Hl & Hall).
    exists (r' :: v'), evs'. split_and!.
    + change (concat (pack_reference did <$> r :: vs) ++ w)
        with (pack_reference did r
              ++ (concat (pack_reference did <$> vs) ++ w)).
      cbn [unpack_each]. rewrite Hu. simpl. rewrite Hv. done.
    + simpl. by rewrite Hl.
    + simpl. unfold InstanceRef_neq at 1. rewrite Heq. simpl. exact Hall.
Qed.

Lemma vector_resize_length v n : length (vector_resize v n) = n.
Proof.
  unfold vector_resize. rewrite length_app, length_take, length_replicate. lia.
Qed.

Lemma vector_resize_Forall (P : InstanceRef → Prop) v n :
  Forall P v → P InstanceRef_default → Forall P (vector_resize v n).
Proof.
  intros Hv Hd. unfold vector_resize. apply Forall_app. split.
  - by apply Forall_take.
  - by apply Forall_replicate.
Qed.

End Runtime.


(** *** The round trip *)

Section RoundTrip.

Variable did : PhysicalManager → DistributedID.
Variable find_or_request_physical_manager :
  DistributedID → PhysicalManager * RtEvent.

Abbreviation pack := (pack_references did).
Abbreviation unpack := (unpack_references find_or_request_physical_manager).

(** Unpacking one reference into single storage at [p]. *)
Lemma unpack_into_single (h : Heap) p r0 n r (ready_events : gset RtEvent) :
  h !! p = Some (CollectableRef r0 n) →
  manager r0 = None → manager_found did find_or_request_physical_manager r →
  ∃ r' ready,
    InstanceRef_eq r' r = true ∧
    (r' ← load_single h p;
     '(r', ready, derez) ←
       unpack_reference find_or_request_physical_manager r'
         (pack_reference did r);
     h' ← store_single h p r';
     Some (mkInstanceSet true false (Some p), h', derez,
           note_ready ready ready_events))
    = Some (mkInstanceSet true false (Some p),
            <[p := CollectableRef r' n]> h, [],
            note_ready ready ready_events).
Proof.
  intros Hp H0 Hr.
  destruct (unpack_reference_packed did find_or_request_physical_manager
              r0 r [] H0 Hr) as (r' & ready & Hu & Heq).
  rewrite app_nil_r in Hu.
  exists r', ready. split; [done|].
  unfold load_single, store_single. rewrite Hp. cbn [mbind option_bind].
  rewrite Hu. done.
Qed.

(** Unpacking the references of a vector into vector storage at [p]. *)
Lemma unpack_into_multi (h : Heap) p v0 n vs (ready_events : gset RtEvent) :
  h !! p = Some (InternalSet v0 n) →
  length v0 = length vs →
  Forall (λ r, manager r = None) v0 →
  Forall (manager_found did find_or_request_physical_manager) vs →
  ∃ v' evs,
    length v' = length vs ∧
    forallb (λ ab, negb (InstanceRef_neq ab.1 ab.2)) (zip v' vs) = true ∧
    (v ← load_multi h p;
     '(v, derez, ready_events) ←
       unpack_each find_or_request_physical_manager v
         (concat (pack_reference did <$> vs)) ready_events;
     h' ← store_multi h p v;
     Some (mkInstanceSet false false (Some p), h', derez, ready_events))
    = Some (mkInstanceSet false false (Some p),
            <[p := InternalSet v' n]> h, [], evs).
Proof.
  intros Hp Hlen H0 Hvs.
  destruct (unpack_each_packed did find_or_request_physical_manager
              vs v0 [] ready_events Hlen H0 Hvs) as (v' & evs & Hu & Hl & Hall).
  rewrite app_nil_r in Hu.
  exists v', evs. split_and!; [done|done|].
  unfold load_multi, store_multi. rewrite Hp. cbn [mbind option_bind].
  rewrite Hu. done.
Qed.

Lemma load_multi_lookup (h : Heap) p v n :
  h !! p = Some (InternalSet v n) → load_multi h p = Some v.
Proof. unfold load_multi. by intros ->. Qed.

Lemma store_multi_lookup (h : Heap) p v0 n v :
  h !! p = Some (InternalSet v0 n) →
  store_multi h p v = Some (<[p := InternalSet v n]> h).
Proof. unfold store_multi. by intros ->. Qed.

Lemma InstanceSet_eq_single (h : Heap) q ps r' r n ns sh :
  q ≠ ps →
  h !! q = Some (CollectableRef r' n) → h !! ps = Some (CollectableRef r ns) →
  InstanceRef_eq r' r = true →
  InstanceSet_eq (mkInstanceSet true false (Some q))
    (mkInstanceSet true sh (Some ps)) h = Some true.
Proof.
  intros Hne Hq Hps Heq. unfold InstanceSet_eq, load_single. simpl.
  rewrite bool_decide_false by congruence. rewrite Hq, Hps. simpl.
  by rewrite Heq.
Qed.

Lemma InstanceSet_eq_multi (h : Heap) q ps v' vs n ns sh :
  h !! q = Some (InternalSet v' n) → h !! ps = Some (InternalSet vs ns) →
  length v' = length vs →
  forallb (λ ab, negb (InstanceRef_neq ab.1 ab.2)) (zip v' vs) = true →
  InstanceSet_eq (mkInstanceSet false false (Some q))
    (mkInstanceSet false sh (Some ps)) h = Some true.
Proof.
  intros Hq Hps Hlen Hall. unfold InstanceSet_eq, load_multi. simpl.
  rewrite Hq, Hps. simpl. rewrite bool_decide_true by done. simpl.
  by rewrite Hall.
Qed.

Lemma replicate_no_manager n :
  Forall (λ r, manager r = None) (replicate n InstanceRef_default).
Proof. by apply Forall_replicate. Qed.

(** C6 (as the code has it): a set in the storage its size calls for
    (single storage for at most one element, a vector for two or more),
    packed and unpacked into a destination that shares no storage with it,
    holds no manager in its elements and is in single storage if the set
    is empty, arrives equal under operator==; the set itself is untouched
    and the destination is not shared afterwards.  Every manager of the
    set has a non-zero distributed id under which the runtime finds it. *)
Theorem pack_unpack_round_trip (s d : InstanceSet) (h : Heap)
    (vs : list InstanceRef) :
  contents s h = Some vs →
  (single s = false → (2 ≤ length vs)%nat) →
  wf d h →
  (refs d = None ∨ refs d ≠ refs s) →
  (∀ vd, contents d h = Some vd → Forall (λ r, manager r = None) vd) →
  (vs = [] → single d = true) →
  Forall (manager_found did find_or_request_physical_manager) vs →
  ∃ w d' h' evs,
    pack s h = Some w ∧
    unpack d h w ∅ = Some (d', h', [], evs) ∧
    shared d' = false ∧
    contents s h' = Some vs ∧
    InstanceSet_eq d' s h' = Some true.
Proof.
  intros Hs Hcanon Hd Hsep Hnone Hempty Hfound.
  destruct s as [s_single s_shared s_refs].
  destruct d as [d_single d_shared d_refs].
  unfold contents, wf, pack_references in *. simpl in *.
  destruct s_single.
  - (* the set is in single storage *)
    clear Hcanon. destruct s_refs as [ps|]; simplify_eq/=.
    + (* one element *)
      destruct (load_single h ps) as [r|] eqn:Hps; simplify_eq/=.
      apply Forall_cons_1 in Hfound as [Hr _].
      unfold load_single in Hps.
      destruct (h !! ps) as [[r1 ns|]|] eqn:Hcell; simplify_eq.
      destruct d_single, d_refs as [p|]; simpl in *; try done.
      * (* the destination has a single reference *)
        destruct Hd as (rd & n & Hp).
        assert (p ≠ ps) as Hne by (destruct Hsep; congruence).
        assert (manager rd = None) as Hrd.
        { specialize (Hnone [rd]). unfold load_single in Hnone.
          rewrite Hp in Hnone. specialize (Hnone eq_refl).
          by apply Forall_cons_1 in Hnone as [? _]. }
        destruct (unpack_into_single h p rd (S n) r ∅ Hp Hrd Hr)
          as (r' & ready & Heq & Hun).
        eexists _, _, _, _. split; [reflexivity|].
        unfold unpack_references. cbn [negb single refs mbind option_bind].
        split; [exact Hun|]. split; [done|].
        unfold load_single. rewrite lookup_insert_ne, Hcell by done.
        split; [done|].
        eapply InstanceSet_eq_single; [done| | |done].
        -- apply lookup_insert_eq.
        -- by rewrite lookup_insert_ne.
      * (* the destination is empty *)
        set (q := fresh (dom h)).
        assert (h !! q = None) as Hfresh by apply not_elem_of_dom, is_fresh.
        assert (q ≠ ps) as Hne by congruence.
        destruct (unpack_into_single
                    (<[q := CollectableRef InstanceRef_default 1]> h) q
                    InstanceRef_default 1 r ∅)
          as (r' & ready & Heq & Hun);
          [apply lookup_insert_eq|done|done|].
        eexists _, _, _, _. split; [reflexivity|].
        unfold unpack_references, new_cell.
        cbn [negb single refs mbind option_bind with_references]. fold q.
        split; [exact Hun|]. split; [done|].
        unfold load_single. rewrite !lookup_insert_ne, Hcell by done.
        split; [done|].
        eapply InstanceSet_eq_single; [done| | |done].
        -- apply lookup_insert_eq.
        -- by rewrite !lookup_insert_ne.
      * (* the destination has a vector *)
        destruct Hd as (vd & n & Hp).
        assert (p ≠ ps) as Hne by (destruct Hsep; congruence).
        destruct (drop_reference_is_Some h p _ Hp) as [h1 Hdrop];
          [simpl; lia|].
        pose proof (drop_reference_other _ _ _ ps Hdrop (not_eq_sym Hne))
          as Hps1. rewrite Hcell in Hps1.
        set (q := fresh (dom h1)).
        assert (h1 !! q = None) as Hfresh by apply not_elem_of_dom, is_fresh.
        assert (q ≠ ps) as Hneq by congruence.
        destruct (unpack_into_single
                    (<[q := CollectableRef InstanceRef_default 1]> h1) q
                    InstanceRef_default 1 r ∅)
          as (r' & ready & Heq & Hun);
          [apply lookup_insert_eq|done|done|].
        eexists _, _, _, _. split; [reflexivity|].
        unfold unpack_references, new_cell.
        cbn [negb single refs mbind option_bind with_references].
        rewrite Hdrop.
        cbn [negb single refs mbind option_bind with_references]. fold q.
        split; [exact Hun|]. split; [done|].
        unfold load_single. rewrite !lookup_insert_ne, Hps1 by done.
        split; [done|].
        eapply InstanceSet_eq_single; [done| | |done].
        -- apply lookup_insert_eq.
        -- by rewrite !lookup_insert_ne.
    + (* no element *)
      specialize (Hempty eq_refl). subst d_single.
      destruct (release_storage_is_Some (mkInstanceSet true d_shared d_refs) h)
        as [h' Hrel]; [exact Hd|].
      exists [W_size 0], (mkInstanceSet true false None), h', ∅.
      unfold unpack_references. rewrite Hrel. simpl. done.
  - (* the set is in vector storage *)
    specialize (Hcanon eq_refl). clear Hempty.
    destruct s_refs as [ps|]; simplify_eq/=.
    unfold load_multi in Hs.
    destruct (h !! ps) as [[|vs0 ns]|] eqn:Hcell; simplify_eq.
    destruct vs as [|r1 [|r2 vs]]; simpl in Hcanon; try lia.
    set (n := S (S (length vs))).
    set (all := r1 :: r2 :: vs) in *.
    assert (length all = n) as Hall by done.
    destruct d_single.
    + (* the destination is in single storage *)
      destruct (release_storage_is_Some (mkInstanceSet true d_shared d_refs) h)
        as [h1 Hrel]; [exact Hd|].
      assert (h1 !! ps = Some (InternalSet all ns)) as Hps1.
      { rewrite <- Hcell. eapply release_storage_other; [exact Hrel|].
        simpl. destruct Hsep as [->|Hsep]; [done|]. congruence. }
      set (q := fresh (dom h1)).
      assert (h1 !! q = None) as Hfresh by apply not_elem_of_dom, is_fresh.
      assert (q ≠ ps) as Hneq by congruence.
      destruct (unpack_into_multi
                  (<[q := InternalSet (replicate n InstanceRef_default) 1]> h1)
                  q (replicate n InstanceRef_default) 1 all ∅)
        as (v' & evs & Hlen & Hfor & Hun);
        [apply lookup_insert_eq|by rewrite length_replicate
        |apply replicate_no_manager|done|].
      eexists _, _, _, _.
      split; [unfold load_multi; rewrite Hcell; reflexivity|].
      unfold unpack_references.
      cbn [length negb single refs mbind option_bind]. fold n.
      rewrite Hrel. unfold new_cell.
      cbn [mbind option_bind with_references]. fold q.
      split; [exact Hun|]. split; [done|].
      unfold load_multi. rewrite !lookup_insert_ne, Hps1 by done.
      split; [done|].
      eapply InstanceSet_eq_multi; [| |exact Hlen|exact Hfor].
      * apply lookup_insert_eq.
      * by rewrite !lookup_insert_ne.
    + (* the destination is in vector storage *)
      destruct d_refs as [p|]; [|done].
      destruct Hd as (vd & nd & Hp).
      assert (p ≠ ps) as Hne by (destruct Hsep; congruence).
      assert (Forall (λ r, manager r = None) vd) as Hvd.
      { apply Hnone. cbn [mbind option_bind]. unfold load_multi.
        by rewrite Hp. }
      destruct (unpack_into_multi
                  (<[p := InternalSet (vector_resize vd n) (S nd)]> h)
                  p (vector_resize vd n) (S nd) all ∅)
        as (v' & evs & Hlen & Hfor & Hun);
        [apply lookup_insert_eq|by rewrite vector_resize_length
        |by apply vector_resize_Forall|done|].
      eexists _, _, _, _.
      split; [unfold load_multi; rewrite Hcell; reflexivity|].
      unfold unpack_references.
      cbn [negb single refs mbind option_bind]. rewrite Hall.
      unfold n at 1. cbn [negb single refs mbind option_bind].
      rewrite (load_multi_lookup _ _ _ _ Hp). cbn [mbind option_bind].
      rewrite (store_multi_lookup _ _ _ _ (vector_resize vd n) Hp).
      cbn [mbind option_bind].
      split; [exact Hun|]. split; [done|].
      unfold load_multi. rewrite !lookup_insert_ne, Hcell by done.
      split; [done|].
      eapply InstanceSet_eq_multi; [| |exact Hlen|exact Hfor].
      * apply lookup_insert_eq.
      * by rewrite !lookup_insert_ne.
Qed.

End RoundTrip.


Lemma manager_found_ex r : manager_found did_ex find_ex r.
Proof.
  intros m _. unfold did_ex, find_ex. simpl. split; lia.
Qed.

(** A vector of two references, one without manager, unpacked into a set
    that holds one default reference. *)
Lemma pack_unpack_round_trip_witness :
  let r1 := InstanceRef_new (Some 9) 3 5 in
  let r2 := InstanceRef_new None 4 0 in
  let h : Heap :=
    {[ 1 := InternalSet [r1; r2] 1;
       2 := CollectableRef InstanceRef_default 1 ]} in
  let s := mkInstanceSet false false (Some 1) in
  let d := mkInstanceSet true false (Some 2) in
  ∃ w d' h' evs,
    pack_references did_ex s h = Some w ∧
    unpack_references find_ex d h w ∅ = Some (d', h', [], evs) ∧
    shared d' = false ∧
    contents s h' = Some [r1; r2] ∧
    InstanceSet_eq d' s h' = Some true.
Proof.
  intros r1 r2 h s d.
  apply (pack_unpack_round_trip did_ex find_ex s d h [r1; r2]).
  - reflexivity.
  - intros _. simpl. lia.
  - exists InstanceRef_default, O. reflexivity.
  - right. discriminate.
  - intros vd Hvd. vm_compute in Hvd. simplify_eq.
    by apply Forall_singleton.
  - discriminate.
  - repeat apply Forall_cons_2; try apply manager_found_ex.
    apply Forall_nil_2.
Defined.

(** *** Copy on write *)

Lemma contents_same_payload (this : InstanceSet) (h h' : Heap) p c c' :
  refs this = Some p → h !! p = Some c → h' !! p = Some c' →
  same_payload c c' → contents this h' = contents this h.
Proof.
  intros Hr Hp Hp' [n ->]. unfold contents, load_single, load_multi.
  rewrite Hr. cbn [mbind option_bind]. rewrite Hp, Hp'.
  by destruct c, (single this).
Qed.

(** A mutation through a handle marked shared leaves the cell it shares
    in place, with one reference fewer at most. *)
Lemma mutate_shared_keeps_cell (m : Mutation) (this : InstanceSet) (h : Heap)
    p c n this' h' :
  refs this = Some p → shared this = true →
  h !! p = Some c → references c = S (S n) →
  mutate m this h = Some (this', h') →
  ∃ c', h' !! p = Some c' ∧ same_payload c c' ∧ (0 < references c')%nat.
Proof.
  intros Hr Hsh Hp Hn Hm.
  assert (fresh (dom h) ≠ p) as Hfresh.
  { intros Heq. pose proof (is_fresh (dom h)) as Hf. rewrite Heq in Hf.
    apply Hf. apply elem_of_dom. eauto. }
  assert (∀ c0 h1, drop_reference (<[fresh (dom h) := c0]> h) p = Some h1 →
                   h1 !! p = Some (with_references c (S n))) as Hdrop.
  { intros c0 h1 Hd. unfold drop_reference in Hd.
    rewrite lookup_insert_ne, Hp in Hd by done. simpl in Hd.
    rewrite Hn in Hd. simplify_eq. rewrite lookup_insert_eq. done. }
  assert (drop_reference h p = Some (<[p := with_references c (S n)]> h))
    as Hdrop0.
  { unfold drop_reference. rewrite Hp. simpl. by rewrite Hn. }
  assert (∃ c', Some (with_references c (S n)) = Some c' ∧ same_payload c c' ∧
                (0 < references c')%nat) as Hgoal.
  { eexists. split; [done|]. split; [by eexists|].
    destruct c; simpl; lia. }
  assert (∃ c', Some c = Some c' ∧ same_payload c c' ∧
                (0 < references c')%nat) as Hsame.
  { exists c. split; [done|]. split; [exists (references c); by destruct c|].
    lia. }
  destruct this as [sg sh rf]. simpl in *. subst sh rf.
  destruct m as [idx r|r|new_size]; simpl in Hm.
  - (* set[idx] = r *)
    unfold assign_at, make_copy, new_cell in Hm. simpl in Hm.
    destruct sg.
    + destruct (load_single h p) as [r0|]; simplify_eq/=.
      destruct (drop_reference _ p) as [h1|] eqn:Hd; simplify_eq/=.
      apply Hdrop in Hd.
      unfold store_single in Hm.
      destruct (h1 !! fresh (dom h)) as [[]|] eqn:Hq; simplify_eq/=.
      rewrite lookup_insert_ne by done. by rewrite Hd.
    + destruct (load_multi h p) as [v0|]; simplify_eq/=.
      destruct (drop_reference _ p) as [h1|] eqn:Hd; simplify_eq/=.
      apply Hdrop in Hd.
      destruct (load_multi h1 _) as [v1|]; simplify_eq/=.
      case_bool_decide; simplify_eq/=.
      unfold store_multi in Hm.
      destruct (h1 !! fresh (dom h)) as [[]|] eqn:Hq; simplify_eq/=.
      rewrite lookup_insert_ne by done. by rewrite Hd.
  - (* add_instance *)
    unfold add_instance, make_copy, new_cell in Hm. simpl in Hm.
    destruct sg.
    + destruct (load_single h p) as [r0|]; simplify_eq/=.
      destruct (drop_reference _ p) as [h1|] eqn:Hd; simplify_eq/=.
      apply Hdrop in Hd. by rewrite Hd.
    + destruct (load_multi h p) as [v0|]; simplify_eq/=.
      destruct (drop_reference _ p) as [h1|] eqn:Hd; simplify_eq/=.
      apply Hdrop in Hd.
      destruct (load_multi h1 _) as [v1|]; simplify_eq/=.
      unfold store_multi in Hm.
      destruct (h1 !! fresh (dom h)) as [[]|] eqn:Hq; simplify_eq/=.
      rewrite lookup_insert_ne by done. by rewrite Hd.
  - (* resize *)
    unfold resize, release_storage, new_cell in Hm. simpl in Hm.
    destruct sg.
    + destruct new_size as [|[|k]]; simplify_eq/=.
      * rewrite Hdrop0 in Hm. simplify_eq/=. by rewrite lookup_insert_eq.
      * by rewrite Hp.
      * destruct (load_single h p) as [r0|]; simplify_eq/=.
        destruct (drop_reference _ p) as [h1|] eqn:Hd; simplify_eq/=.
        apply Hdrop in Hd. by rewrite Hd.
    + destruct new_size as [|[|k]]; simplify_eq/=.
      * rewrite Hdrop0 in Hm. simplify_eq/=. by rewrite lookup_insert_eq.
      * destruct (load_multi h p) as [v0|]; simplify_eq/=.
        destruct (v0 !! 0%nat) as [r0|]; simplify_eq/=.
        destruct (drop_reference _ p) as [h1|] eqn:Hd; simplify_eq/=.
        apply Hdrop in Hd. by rewrite Hd.
      * destruct (load_multi h p) as [v0|]; simplify_eq/=.
        case_bool_decide; simplify_eq/=; [|by rewrite Hp].
        destruct (drop_reference _ p) as [h1|] eqn:Hd; simplify_eq/=.
        apply Hdrop in Hd. by rewrite Hd.
Qed.


Lemma same_payload_trans c1 c2 c3 :
  same_payload c1 c2 → same_payload c2 c3 → same_payload c1 c3.
Proof. intros [n ->] [k ->]. exists k. by destruct c1. Qed.

(** What the copy constructor does to a well-formed set. *)
Lemma copy_construct_wf (a : InstanceSet) (h : Heap) b a1 h1 :
  wf a h → copy_construct a h = Some (b, a1, h1) →
  match refs a with
  | None => b = mkInstanceSet true false None ∧ a1 = a ∧ h1 = h
  | Some p =>
      b = mkInstanceSet (single a) true (Some p) ∧ a1 = b ∧
      ∃ c n, h !! p = Some c ∧ references c = S n ∧
             h1 = <[p := with_references c (S (S n))]> h
  end.
Proof.
  unfold wf, copy_construct, add_reference. intros Hwf Hc.
  destruct a as [sg sh [p|]]; simpl in *.
  - destruct sg; destruct Hwf as (x & n & Hp); rewrite Hp in Hc;
      simplify_eq/=; (split; [done|]); (split; [done|]);
      eexists _, n; by rewrite Hp.
  - subst sg. by simplify_eq/=.
Qed.

(** The part of C7 that holds: after a copy, a mutation of either handle
    through the non-const operator[], add_instance or resize leaves the
    other handle's contents as they were. *)
Theorem copy_on_write_frame (m : Mutation) (a : InstanceSet) (h : Heap)
    b a1 h1 :
  wf a h → copy_construct a h = Some (b, a1, h1) →
  contents a1 h1 = contents a h ∧ contents b h1 = contents a h ∧
  (∀ b2 h2, mutate m b h1 = Some (b2, h2) →
            contents a1 h2 = contents a h) ∧
  (∀ a2 h2, mutate m a1 h1 = Some (a2, h2) →
            contents b h2 = contents a h).
Proof.
  intros Hwf Hc. pose proof (copy_construct_wf a h b a1 h1 Hwf Hc) as Hshape.
  destruct (refs a) as [p|] eqn:Hr.
  - destruct Hshape as (-> & -> & c & n & Hp & Hn & ->).
    set (b := mkInstanceSet (single a) true (Some p)).
    set (c1 := with_references c (S (S n))).
    assert (contents a h = contents b h) as ->.
    { unfold contents. by rewrite Hr. }
    assert (same_payload c c1) as Hc1 by by eexists.
    assert (references c1 = S (S n)) as Hn1 by (subst c1; by destruct c).
    assert (contents b (<[p := c1]> h) = contents b h) as Hsame.
    { eapply contents_same_payload; [done|exact Hp|apply lookup_insert_eq|done]. }
    assert (∀ x h2, mutate m b (<[p := c1]> h) = Some (x, h2) →
                    contents b h2 = contents b h) as Hframe.
    { intros x h2 Hm.
      destruct (mutate_shared_keeps_cell m b (<[p := c1]> h) p c1 n x h2)
        as (c' & Hp' & Hpay & _); [done|done|apply lookup_insert_eq|done|done|].
      eapply contents_same_payload; [done|exact Hp|exact Hp'|].
      by eapply same_payload_trans. }
    split_and!; [done|done|exact Hframe|exact Hframe].
  - destruct Hshape as (-> & -> & ->).
    unfold wf in Hwf. rewrite Hr in Hwf.
    unfold contents. rewrite Hr, Hwf. simpl. done.
Qed.

End InstanceFacts.


(* ===================================================================== *)
(** ** Bits of masks *)
(* ===================================================================== *)

Module MaskTactics.

(** Case analysis on every bit the goal and the hypotheses mention. *)
Ltac bits :=
  repeat match goal with
         | H : context [N.testbit _ _] |- _ => revert H
         end;
  repeat match goal with
         | |- context [N.testbit ?a ?i] => destruct (N.testbit a i)
         end;
  simpl; try done; try (intros; congruence).

End MaskTactics.

Export MaskTactics.

(* ===================================================================== *)
(** ** VersioningSet and the response of the owning VersionManager *)
(* ===================================================================== *)

Module VersioningSetFacts.
Import Versioning.


Section RefKindFacts.

Variable counted : bool.

Lemma VersioningSet_insert_entries (this : VersioningSet)
    (state : VersionState) (mask : FieldMask) :
  let '(result, this', calls) :=
    VersioningSet_insert counted this state mask in
  entries this' =
    <[state := match entries this !! state with
               | Some f => fm_or f mask
               | None => mask
               end]> (entries this) ∧
  result = bool_decide (entries this !! state = None) ∧
  calls = (if counted && result then [AddValidRef state] else []).
Proof.
  destruct this as [[[s|]|m] valid]; unfold VersioningSet_insert, entries;
    simpl.
  - case_bool_decide as Hs.
    + subst s. rewrite lookup_singleton_eq, insert_singleton_eq.
      rewrite bool_decide_false by done. by rewrite andb_false_r.
    + rewrite lookup_singleton_ne by done. rewrite insert_empty.
      rewrite bool_decide_true by done. by rewrite andb_true_r.
  - rewrite lookup_empty, insert_empty. rewrite bool_decide_true by done.
    by rewrite andb_true_r.
  - destruct (m !! state) as [f|] eqn:Hf; simpl.
    + by rewrite andb_false_r.
    + by rewrite andb_true_r.
Qed.

(** X1: VersioningSet::insert, in either storage, leaves the set holding
    exactly the states it held plus the inserted one: the inserted
    state's fields are the mask if the state is new and its old fields
    joined with the mask otherwise, and every other state keeps its
    fields.  The call returns true exactly when the state is new, and
    takes a reference on the state exactly when it is new and the set
    counts references. *)
Theorem VersioningSet_insert_spec (this : VersioningSet)
    (state : VersionState) (mask : FieldMask) :
  let '(result, this', calls) :=
    VersioningSet_insert counted this state mask in
  entries this' =
    <[state := match entries this !! state with
               | Some f => fm_or f mask
               | None => mask
               end]> (entries this) ∧
  result = bool_decide (entries this !! state = None) ∧
  calls = (if counted && result then [AddValidRef state] else []).
Proof. apply VersioningSet_insert_entries. Qed.

Lemma insert_bits (m : gmap VersionState FieldMask) state (g : FieldMask) i :
  (∃ (s : VersionState) (f : FieldMask),
     <[state := g]> m !! s = Some f ∧ N.testbit f i = true) ↔
  N.testbit g i = true ∨
  ∃ (s : VersionState) (f : FieldMask),
    s ≠ state ∧ m !! s = Some f ∧ N.testbit f i = true.
Proof.
  split.
  - intros (s & f & Hl & Hb). destruct (decide (s = state)) as [->|Hne].
    + rewrite lookup_insert_eq in Hl. simplify_eq. by left.
    + rewrite lookup_insert_ne in Hl by done. right. eauto.
  - intros [Hb|(s & f & Hne & Hl & Hb)].
    + exists state, g. by rewrite lookup_insert_eq.
    + exists s, f. by rewrite lookup_insert_ne.
Qed.

(** X2: VersioningSet::insert keeps the invariant of the set:
    valid_fields is the union of the fields of the states held, and the
    map is in use only for two states or more. *)
Theorem VersioningSet_insert_wf (this : VersioningSet) (state : VersionState)
    (mask : FieldMask) :
  vs_wf this → vs_wf (VersioningSet_insert counted this state mask).1.2.
Proof.
  intros [Hvalid Hsize].
  pose proof (VersioningSet_insert_entries this state mask) as Hspec.
  destruct (VersioningSet_insert counted this state mask)
    as [[result this'] calls] eqn:Hins.
  destruct Hspec as (Hentries & _ & _). simpl. split.
  - intros i. rewrite Hentries, insert_bits.
    assert (vs_valid_fields this' =
            match versions this with
            | single_version None => mask
            | _ => fm_or (vs_valid_fields this) mask
            end) as ->.
    { unfold VersioningSet_insert in Hins.
      destruct this as [[[s|]|m] valid]; simpl in *.
      - case_bool_decide; by simplify_eq.
      - by simplify_eq.
      - destruct (m !! state); by simplify_eq. }
    assert (N.testbit (vs_valid_fields this) i = true ∨
            N.testbit mask i = true ↔
            N.testbit
              match entries this !! state with
              | Some f => fm_or f mask
              | None => mask
              end i = true ∨
            ∃ (s : VersionState) (f : FieldMask),
              s ≠ state ∧ entries this !! s = Some f ∧
              N.testbit f i = true) as Hiff.
    { rewrite Hvalid. split.
      - intros [(s & f & Hl & Hb)|Hb].
        + destruct (decide (s = state)) as [->|Hne].
          * left. rewrite Hl. unfold fm_or. by rewrite N.lor_spec, Hb.
          * right. eauto.
        + left. destruct (entries this !! state); [|done].
          unfold fm_or. by rewrite N.lor_spec, Hb, orb_true_r.
      - intros [Hb|(s & f & _ & Hl & Hb)]; [|left; eauto].
        destruct (entries this !! state) as [f|] eqn:Hl; [|by right].
        unfold fm_or in Hb. rewrite N.lor_spec in Hb.
        apply orb_true_iff in Hb as [Hb|Hb]; [left; eauto|by right]. }
    destruct this as [[[s|]|m] valid]; simpl in *;
      try (unfold fm_or at 1; rewrite N.lor_spec, orb_true_iff; exact Hiff).
    rewrite <- Hiff. split; [by right|]. intros [H|H]; [|done].
    apply Hvalid in H as (s & f & Hl & _). unfold entries in Hl.
    simpl in Hl. by rewrite lookup_empty in Hl.
  - unfold VersioningSet_insert in Hins.
    destruct this as [[[s|]|m] valid]; simpl in *.
    + case_bool_decide; simplify_eq; simpl; [done|].
      rewrite map_size_insert_None, map_size_insert_None, map_size_empty;
        [lia|done|].
      rewrite lookup_insert_ne by done. done.
    + by simplify_eq.
    + destruct (m !! state) as [f|] eqn:Hf; simplify_eq; simpl.
      * rewrite map_size_insert_Some by done. done.
      * rewrite map_size_insert_None by done. lia.
Qed.

Lemma map_to_list_singleton_inv (m : gmap VersionState FieldMask) k v :
  map_to_list m = [(k, v)] → m = {[k := v]}.
Proof.
  intros H. rewrite <- (list_to_map_to_list m), H. simpl.
  by rewrite insert_empty.
Qed.

Lemma VersioningSet_erase_entries (this : VersioningSet)
    (to_erase : VersionState) :
  is_Some (entries this !! to_erase) →
  ∃ this',
    VersioningSet_erase counted this to_erase
      = Some (this', if counted then [RemoveValidRef to_erase] else []) ∧
    entries this' = delete to_erase (entries this) ∧
    match versions this' with
    | single_version None => vs_valid_fields this' = 0
    | single_version (Some s) => True
    | multi_versions m' =>
        ∃ m f, versions this = multi_versions m ∧ m !! to_erase = Some f ∧
               m' = delete to_erase m ∧ (size m' ≠ 1)%nat ∧
               vs_valid_fields this' = fm_diff (vs_valid_fields this) f
    end.
Proof.
  destruct this as [[[s|]|m] valid]; unfold VersioningSet_erase, entries;
    simpl; intros [f Hf].
  - apply lookup_singleton_Some in Hf as [-> ->].
    eexists. split; [done|]. simpl. by rewrite delete_singleton_eq.
  - by rewrite lookup_empty in Hf.
  - rewrite Hf. simpl.
    destruct (map_to_list (delete to_erase m)) as [|[k v] [|kv l]] eqn:Hl.
    + eexists. split; [done|]. simpl. split; [done|].
      exists m, f. split_and!; try done.
      apply map_to_list_empty_iff in Hl. rewrite Hl, map_size_empty. done.
    + eexists. split; [done|]. simpl.
      by rewrite (map_to_list_singleton_inv _ _ _ Hl).
    + eexists. split; [done|]. simpl. split; [done|].
      exists m, f. split_and!; try done.
      rewrite <- length_map_to_list, Hl. done.
Qed.

(** X3: VersioningSet::erase of a state the set holds, when no field is
    held by two states (what sanity_check asserts), removes that state
    and no other, releases one reference on it, and keeps the invariant:
    valid_fields is again the union of the fields left, a map left with
    one state is turned back into single storage, and still no field is
    held twice. *)
Theorem VersioningSet_erase_wf (this : VersioningSet)
    (to_erase : VersionState) :
  vs_wf this → each_field_once this →
  is_Some (entries this !! to_erase) →
  ∃ this',
    VersioningSet_erase counted this to_erase
      = Some (this', if counted then [RemoveValidRef to_erase] else []) ∧
    entries this' = delete to_erase (entries this) ∧
    vs_wf this' ∧ each_field_once this'.
Proof.
  intros [Hvalid Hsize] Honce Hin.
  destruct (VersioningSet_erase_entries this to_erase Hin)
    as (this' & Herase & Hentries & Hshape).
  exists this'. split_and!; [done|done| |].
  - split.
    + intros i. rewrite Hentries.
      destruct this' as [[[s|]|m'] valid']; cbn [versions vs_valid_fields]
        in *.
      * rewrite <- Hentries. unfold entries. simpl. split.
        -- intros Hb. exists s, valid'. by rewrite lookup_singleton_eq.
        -- by intros (s' & f & [-> ->]%lookup_singleton_Some & Hb).
      * rewrite <- Hentries. rewrite Hshape, N.bits_0. split; [done|].
        intros (s & f & Hl & _). unfold entries in Hl. simpl in Hl.
        by rewrite lookup_empty in Hl.
      * destruct Hshape as (m & f & Hm & Hf & _ & _ & ->).
        assert (entries this !! to_erase = Some f) as Hf'.
        { unfold entries. by rewrite Hm. }
        unfold fm_diff. rewrite N.ldiff_spec, andb_true_iff, Hvalid.
        rewrite negb_true_iff. split.
        -- intros [(s & g & Hl & Hb) Hnf].
           exists s, g. split; [|done].
           rewrite lookup_delete_ne; [done|]. intros ->. congruence.
        -- intros (s & g & Hl & Hb).
           apply lookup_delete_Some in Hl as [Hne Hl]. split; [eauto|].
           pose proof (Honce _ _ _ _ Hl Hf' ltac:(done)) as Hd.
           unfold fm_and in Hd. mask_hyp Hd i. rewrite Hb in Hd.
           by destruct (N.testbit f i).
    + destruct (versions this') as [v|m'] eqn:Hv; [done|].
      destruct Hshape as (m & f & Hm & Hf & -> & Hne1 & _).
      rewrite Hm in Hsize.
      rewrite map_size_delete_Some in * by eauto. lia.
  - intros s1 s2 f1 f2. rewrite Hentries.
    intros [_ H1]%lookup_delete_Some [_ H2]%lookup_delete_Some.
    by apply Honce.
Qed.

Lemma net_references_removes (l : list (VersionState * FieldMask)) s :
  NoDup l.*1 →
  net_references ((λ kv, RemoveValidRef kv.1) <$> l) s
  = if decide (s ∈ l.*1) then (-1)%Z else 0%Z.
Proof.
  induction l as [|[k v] l IH]; intros Hnd.
  - by rewrite decide_False by apply not_elem_of_nil.
  - rewrite fmap_cons in Hnd. apply list.NoDup_cons in Hnd as [Hk Hnd].
    rewrite !fmap_cons. cbn [net_references foldr ref_delta fst].
    change (foldr _ _ ?x) with (net_references x s). rewrite (IH Hnd).
    simpl in Hk.
    case_bool_decide as Hks; repeat case_decide; try done; exfalso;
      set_solver.
Qed.

(** X4: the references a VersioningSet takes and releases follow its
    contents: for insert, for erase of a state the set holds, and for
    clear, the references added to any state less those removed equal the
    state's being held afterwards less its being held before (always 0
    for a set that does not count references). *)
Theorem VersioningSet_references_balanced (this : VersioningSet)
    (s : VersionState) :
  (∀ state mask,
     let '(_, this', calls) :=
       VersioningSet_insert counted this state mask in
     net_references calls s = (held counted this' s - held counted this s)%Z) ∧
  (∀ to_erase this' calls,
     is_Some (entries this !! to_erase) →
     VersioningSet_erase counted this to_erase = Some (this', calls) →
     net_references calls s = (held counted this' s - held counted this s)%Z) ∧
  (let '(this', calls) := VersioningSet_clear counted this in
   net_references calls s = (held counted this' s - held counted this s)%Z).
Proof.
  split_and!.
  - intros state mask.
    pose proof (VersioningSet_insert_entries this state mask) as Hspec.
    destruct (VersioningSet_insert counted this state mask)
      as [[result this'] calls].
    destruct Hspec as (Hentries & -> & ->). unfold held. rewrite Hentries.
    destruct counted; simpl; [|done].
    destruct (decide (s = state)) as [->|Hne].
    + rewrite lookup_insert_eq.
      destruct (entries this !! state) eqn:Hl.
      * by rewrite bool_decide_false.
      * rewrite bool_decide_true by done. simpl.
        by rewrite bool_decide_true.
    + rewrite lookup_insert_ne by done.
      case_bool_decide; simpl; [rewrite bool_decide_false by done|];
        destruct (entries this !! s); done.
  - intros to_erase this' calls Hin Herase.
    destruct (VersioningSet_erase_entries this to_erase Hin)
      as (this1 & Herase1 & Hentries & _).
    rewrite Herase in Herase1. simplify_eq. unfold held. rewrite Hentries.
    destruct counted; simpl; [|done].
    destruct (decide (s = to_erase)) as [->|Hne].
    + rewrite lookup_delete_eq, bool_decide_true by done.
      destruct Hin as [f ->]. done.
    + rewrite lookup_delete_ne, bool_decide_false by done.
      destruct (entries this !! s); done.
  - unfold VersioningSet_clear, held, entries. simpl.
    destruct counted; simpl; [|done]. rewrite lookup_empty.
    destruct this as [[[s0|]|m] valid]; simpl.
    + case_bool_decide as Hs.
      * subst. by rewrite lookup_singleton_eq.
      * by rewrite lookup_singleton_ne.
    + by rewrite lookup_empty.
    + rewrite net_references_removes by apply NoDup_fst_map_to_list.
      destruct (m !! s) as [f|] eqn:Hl.
      * rewrite decide_True; [done|].
        apply list_elem_of_fmap. exists (s, f). split; [done|].
        by apply elem_of_map_to_list.
      * rewrite decide_False; [done|].
        intros ([k v] & -> & Hin%elem_of_map_to_list)%list_elem_of_fmap.
        simpl in *. congruence.
Qed.

End RefKindFacts.

Theorem VersioningSet_observers (this : VersioningSet)
    (state : VersionState) :
  VersioningSet_size this = size (entries this) ∧
  (is_Some (entries this !! state) →
   VersioningSet_get this state = entries this !! state).
Proof.
  destruct this as [[[s|]|m] valid]; unfold VersioningSet_size,
    VersioningSet_get, entries; simpl.
  - rewrite map_size_singleton. split; [done|].
    intros [f Hf]. rewrite Hf.
    by apply lookup_singleton_Some in Hf as [_ ->].
  - rewrite map_size_empty. split; [done|]. intros [f Hf].
    by rewrite lookup_empty in Hf.
  - done.
Qed.

(** Without the condition sanity_check asserts, erase takes a field out
    of valid_fields that another state still holds. *)
Example erase_of_shared_field_loses_it :
  let this :=
    mkVersioningSet (multi_versions {[ 1 := 1; 2 := 1; 3 := 2 ]}) 3 in
  vs_wf this ∧
  ∃ this', VersioningSet_erase true this 1 = Some (this', [RemoveValidRef 1]) ∧
           entries this' !! 2 = Some 1 ∧ vs_valid_fields this' = 2.
Proof.
  intros this. split.
  - split; [|vm_compute; lia].
    intros i. subst this. unfold entries. cbn [vs_valid_fields versions].
    replace 3 with (N.lor 1 2) by reflexivity.
    rewrite N.lor_spec, orb_true_iff. split.
    + intros [Hi|Hi]; [exists 1, 1|exists 3, 2]; done.
    + intros (s & f & Hl & Hb).
      destruct (decide (s = 1)) as [->|];
        [vm_compute in Hl; simplify_eq; by left|].
      destruct (decide (s = 2)) as [->|];
        [vm_compute in Hl; simplify_eq; by left|].
      destruct (decide (s = 3)) as [->|];
        [vm_compute in Hl; simplify_eq; by right|].
      rewrite !lookup_insert_ne, lookup_singleton_ne in Hl by done. done.
  - eexists. split; [reflexivity|]. split; reflexivity.
Qed.

Lemma vs_wf_single_ex : vs_wf single_versions_ex.
Proof.
  split; [|done]. intros i. unfold entries. simpl. split.
  - intros Hi. exists 5, 3. by rewrite lookup_singleton_eq.
  - by intros (s & f & [_ <-]%lookup_singleton_Some & Hi).
Qed.

Lemma VersioningSet_insert_wf_witness :
  vs_wf (VersioningSet_insert true single_versions_ex 6 4).1.2.
Proof.
  apply (VersioningSet_insert_wf true single_versions_ex 6 4).
  apply vs_wf_single_ex.
Defined.

(** Map storage is well formed when it holds two states or more, every
    state's fields lie in valid_fields, and valid_fields is their
    union. *)
Lemma vs_wf_multi (m : gmap VersionState FieldMask) (valid : FieldMask) :
  (2 ≤ size m)%nat →
  map_Forall (λ _ f, fm_and f valid = f) m →
  valid = map_fold (λ _ f acc, fm_or acc f) 0 m →
  vs_wf (mkVersioningSet (multi_versions m) valid).
Proof.
  intros Hsz Hsub Hv. split; [|done]. intros i.
  unfold entries. cbn [versions vs_valid_fields]. split.
  - rewrite Hv. clear. revert i.
    apply (map_fold_weak_ind
             (λ acc (m : gmap VersionState FieldMask),
                ∀ i, N.testbit acc i = true →
                     ∃ (s : VersionState) (f : FieldMask),
                       m !! s = Some f ∧ N.testbit f i = true)).
    + intros i Hi. by rewrite N.bits_0 in Hi.
    + intros s f m' r Hnone IH i Hi. unfold fm_or in Hi.
      rewrite N.lor_spec, orb_true_iff in Hi. destruct Hi as [Hi|Hi].
      * destruct (IH i Hi) as (s' & f' & Hl & Hb). exists s', f'.
        split; [|done]. rewrite lookup_insert_ne; [done|].
        intros ->. congruence.
      * exists s, f. by rewrite lookup_insert_eq.
  - intros (s & f & Hl & Hb). specialize (Hsub s f Hl). simpl in Hsub.
    rewrite <- Hsub in Hb. unfold fm_and in Hb.
    rewrite N.land_spec in Hb. by apply andb_true_iff in Hb as [_ ?].
Qed.

Lemma each_field_once_pairs (this : VersioningSet) :
  map_Forall
    (λ s1 f1, map_Forall (λ s2 f2, s1 = s2 ∨ fm_and f1 f2 = 0)
                (entries this))
    (entries this) →
  each_field_once this.
Proof.
  intros H s1 s2 f1 f2 H1 H2 Hne. by destruct (H s1 f1 H1 s2 f2 H2).
Qed.

(** Erasing state 5 from map storage of two states leaves state 6 in
    single storage; from map storage of three states it leaves the map
    with the two others. *)
Lemma VersioningSet_erase_wf_witness :
  (∃ this',
     VersioningSet_erase true two_versions_ex 5
       = Some (this', [RemoveValidRef 5]) ∧
     this' = mkVersioningSet (single_version (Some 6)) 4 ∧
     entries this' = delete 5 (entries two_versions_ex) ∧
     vs_wf this' ∧ each_field_once this') ∧
  (∃ this',
     VersioningSet_erase true three_versions_ex 5
       = Some (this', [RemoveValidRef 5]) ∧
     this' = mkVersioningSet (multi_versions {[ 6 := 4; 7 := 8 ]}) 12 ∧
     entries this' = delete 5 (entries three_versions_ex) ∧
     vs_wf this' ∧ each_field_once this').
Proof.
  split.
  - destruct (VersioningSet_erase_wf true two_versions_ex 5)
      as (this' & He & Hrest).
    + apply vs_wf_multi; [vm_compute; lia| |reflexivity].
      apply (bool_decide_unpack _). by vm_compute.
    + apply each_field_once_pairs, (bool_decide_unpack _). by vm_compute.
    + exists 3. reflexivity.
    + exists this'. split; [exact He|]. split; [|exact Hrest].
      vm_compute in He. by simplify_eq.
  - destruct (VersioningSet_erase_wf true three_versions_ex 5)
      as (this' & He & Hrest).
    + apply vs_wf_multi; [vm_compute; lia| |reflexivity].
      apply (bool_decide_unpack _). by vm_compute.
    + apply each_field_once_pairs, (bool_decide_unpack _). by vm_compute.
    + exists 3. reflexivity.
    + exists this'. split; [exact He|]. split; [|exact Hrest].
      vm_compute in He. by simplify_eq.
Defined.

(** *** The response *)
Import VersioningFacts.

Section ResponseFacts.

Variable find_or_request_equivalence_set : DistributedID → EquivalenceSet.

Abbreviation find := find_or_request_equivalence_set.

Lemma receive_sets_all (dids : list DistributedID) (rest : Message)
    (sets : gset EquivalenceSet) :
  receive_sets find (length dids) (dids ++ rest) sets
  = Some (list_to_set (find <$> dids) ∪ sets, rest).
Proof.
  revert sets. induction dids as [|d dids IH]; intros sets.
  - simpl. by rewrite (left_id_L ∅ (∪)).
  - cbn [length app receive_sets]. rewrite IH, fmap_cons.
    cbn [list_to_set foldr].
    assert (list_to_set (find <$> dids) ∪ ({[find d]} ∪ sets)
            = {[find d]} ∪ list_to_set (find <$> dids) ∪ sets) as ->
      by set_solver.
    done.
Qed.

Lemma reference_all_refs l h :
  NoDup l → (∀ e, e ∈ l → is_Some (h !! e)) →
  ∃ h', reference_all l h = Some h' ∧
    (∀ e, is_Some (h' !! e) ↔ is_Some (h !! e)) ∧
    (∀ e, refs_of VERSION_MANAGER_REF h' e =
          (refs_of VERSION_MANAGER_REF h e
           + if decide (e ∈ l) then 1 else 0)%nat) ∧
    (∀ e, refs_of VERSION_INFO_REF h' e = refs_of VERSION_INFO_REF h e).
Proof.
  intros Hnd. revert h. induction Hnd as [|x l Hx Hnd IH]; intros h Hlive.
  - exists h. split_and!; try done; intros e;
      rewrite decide_False by apply not_elem_of_nil; lia.
  - destruct (Hlive x) as [c Hc]; [by left|].
    assert (add_base_resource_ref h x VERSION_MANAGER_REF
            = Some (<[x := set_count VERSION_MANAGER_REF
                              (S (count VERSION_MANAGER_REF c)) c]> h))
      as Hadd.
    { unfold add_base_resource_ref. by rewrite Hc. }
    set (h1 := <[x := _]> h) in Hadd.
    assert (∀ e, is_Some (h1 !! e) ↔ is_Some (h !! e)) as Hlive1.
    { intros e. subst h1. destruct (decide (e = x)) as [->|Hne].
      - rewrite lookup_insert_eq, Hc. split; eauto.
      - by rewrite lookup_insert_ne. }
    destruct (IH h1) as (h' & Hall & Hl' & Hm & Hi).
    { intros e He. apply Hlive1, Hlive. by right. }
    exists h'. simpl. rewrite Hadd. simpl. split_and!; try done.
    + intros e. by rewrite Hl', Hlive1.
    + intros e. rewrite Hm.
      rewrite (add_base_resource_ref_refs _ _ _ _ Hadd e).
      repeat case_decide; simplify_eq; try lia; set_solver.
    + intros e. rewrite Hi.
      by apply (add_base_resource_ref_other _ _ _ _ _ Hadd).
Qed.

Lemma process_response_fresh (vm : VersionManager) (h : Store)
    (dids : list DistributedID) :
  vm_equivalence_sets vm = ∅ →
  (∀ d, d ∈ dids → is_Some (h !! find d)) →
  ∃ vm' h',
    process_response find (N.of_nat (length dids) :: dids) (vm, h)
      = Some (vm', h', []) ∧
    vm_equivalence_sets vm' = list_to_set (find <$> dids) ∧
    (∀ e, refs_of VERSION_MANAGER_REF h' e =
          (refs_of VERSION_MANAGER_REF h e
           + if decide (e ∈ vm_equivalence_sets vm') then 1 else 0)%nat) ∧
    (∀ e, refs_of VERSION_INFO_REF h' e = refs_of VERSION_INFO_REF h e).
Proof.
  intros Hempty Hlive. unfold process_response.
  rewrite Nat2N.id.
  pose proof (receive_sets_all dids [] (vm_equivalence_sets vm)) as Hrecv.
  rewrite app_nil_r in Hrecv. rewrite Hrecv. simpl.
  rewrite Hempty, (right_id_L ∅ (∪)).
  set (sets := list_to_set (find <$> dids) : gset EquivalenceSet).
  destruct (reference_all_refs (elements sets) h) as (h' & Hall & Hl & Hm & Hi).
  { apply NoDup_elements. }
  { intros e He. apply elem_of_elements in He. subst sets.
    apply elem_of_list_to_set, list_elem_of_fmap in He as (d & -> & Hd).
    by apply Hlive. }
  rewrite Hall. simpl. do 2 eexists. split; [done|]. simpl.
  split; [done|]. split; [|done].
  intros e. rewrite Hm. repeat case_decide; try done; exfalso; set_solver.
Qed.

(** X5: VersionManager::process_response on a manager without
    equivalence sets, for a message of distributed ids whose sets are
    live, records exactly the sets found, reads the whole message and
    adds one VERSION_MANAGER_REF to each recorded set (one, also for a
    set named twice); VersionManager::reset afterwards succeeds, leaves
    the manager without sets and every set with the reference counts it
    had before the response. *)
Theorem response_then_reset_restores_references
    (vm : VersionManager) (h : Store) (dids : list DistributedID) :
  vm_equivalence_sets vm = ∅ →
  (∀ d, d ∈ dids → is_Some (h !! find d)) →
  ∃ vm' h',
    process_response find (N.of_nat (length dids) :: dids) (vm, h)
      = Some (vm', h', []) ∧
    vm_equivalence_sets vm' = list_to_set (find <$> dids) ∧
    (∀ e, refs_of VERSION_MANAGER_REF h' e =
          (refs_of VERSION_MANAGER_REF h e
           + if decide (e ∈ vm_equivalence_sets vm') then 1 else 0)%nat) ∧
    ∃ vm'' h'',
      reset (vm', h') = Some (vm'', h'') ∧
      vm_equivalence_sets vm'' = ∅ ∧
      ∀ k e, refs_of k h'' e = refs_of k h e.
Proof.
  intros Hempty Hlive.
  destruct (process_response_fresh vm h dids Hempty Hlive)
    as (vm' & h' & Hproc & Hsets & Hm & Hi).
  exists vm', h'. split_and!; [done|done|done|].
  unfold reset. set (sets := vm_equivalence_sets vm') in *.
  destruct (decide (sets = ∅)) as [He|Hne].
  - do 2 eexists. split; [done|]. split; [done|].
    intros k e. destruct k; [apply Hi|]. rewrite Hm, He.
    rewrite decide_False by set_solver. lia.
  - destruct (release_all_is_Some VERSION_MANAGER_REF (elements sets) h')
      as [h'' Hrel].
    { apply NoDup_elements. }
    { intros e He%elem_of_elements. rewrite Hm.
      rewrite decide_True by done. lia. }
    rewrite Hrel. simpl. do 2 eexists. split; [done|]. split; [done|].
    intros k e. destruct k.
    + rewrite (release_all_other _ _ _ _ _ Hrel) by done. apply Hi.
    + pose proof (release_all_refs _ _ _ _ (NoDup_elements sets) Hrel e)
        as Hr.
      rewrite Hm in Hr.
      destruct (decide (e ∈ sets)) as [Hin|Hnin].
      * rewrite decide_True in Hr by by apply elem_of_elements. lia.
      * rewrite decide_False in Hr by by rewrite elem_of_elements. lia.
Qed.

Variable did : EquivalenceSet → DistributedID.

(** X6: the message VersionManager::send_response builds, handled by
    VersionManager::handle_response on the node of a remote manager that
    has no equivalence sets yet, leaves that manager with exactly the
    sets of the owner, provided every set of the owner is live and is
    found again under its distributed id. *)
Theorem response_carries_the_sets (owner remote : VersionManager)
    (address : N) (managers : gmap N VersionManager) (h : Store) :
  managers !! address = Some remote →
  vm_equivalence_sets remote = ∅ →
  (∀ e, e ∈ vm_equivalence_sets owner →
        find (did e) = e ∧ is_Some (h !! e)) →
  ∃ managers' h' remote',
    handle_response find (send_response did owner address) managers h
      = Some (managers', h', []) ∧
    managers' !! address = Some remote' ∧
    vm_equivalence_sets remote' = vm_equivalence_sets owner.
Proof.
  intros Hm Hempty Hfound. unfold handle_response, send_response.
  rewrite Hm. cbn [mbind option_bind].
  set (S := vm_equivalence_sets owner) in *.
  assert (find <$> (did <$> elements S) = elements S) as Hid.
  { rewrite <- list_fmap_compose. rewrite <- (list_fmap_id (elements S)) at 2.
    apply list_fmap_ext. intros i e He%list_elem_of_lookup_2. simpl.
    apply Hfound. by apply elem_of_elements. }
  destruct (process_response_fresh remote h (did <$> elements S) Hempty)
    as (vm' & h' & Hproc & Hsets & _).
  { intros d (e & -> & He)%list_elem_of_fmap.
    apply elem_of_elements in He. destruct (Hfound e He) as [-> Hl]. done. }
  rewrite length_fmap in Hproc.
  change (size S) with (length (elements S)).
  rewrite Hproc. simpl. do 3 eexists. split; [done|].
  rewrite lookup_insert_eq. split; [done|].
  rewrite Hsets, Hid. apply list_to_set_elements_L.
Qed.

End ResponseFacts.

Lemma response_then_reset_restores_references_witness :
  ∃ vm' h',
    process_response find_set_ex [2; 13; 14] (VersionManager_new 1 0, store_ex)
      = Some (vm', h', []) ∧
    vm_equivalence_sets vm' = list_to_set (find_set_ex <$> [13; 14]) ∧
    (∀ e, refs_of VERSION_MANAGER_REF h' e =
          (refs_of VERSION_MANAGER_REF store_ex e
           + if decide (e ∈ vm_equivalence_sets vm') then 1 else 0)%nat) ∧
    ∃ vm'' h'',
      reset (vm', h') = Some (vm'', h'') ∧
      vm_equivalence_sets vm'' = ∅ ∧
      ∀ k e, refs_of k h'' e = refs_of k store_ex e.
Proof.
  apply (response_then_reset_restores_references find_set_ex
           (VersionManager_new 1 0) store_ex [13; 14]).
  - reflexivity.
  - intros d Hd.
    apply elem_of_cons in Hd as [->|Hd]; [by eexists|].
    apply list_elem_of_singleton in Hd as ->. by eexists.
Defined.

Lemma response_carries_the_sets_witness :
  let owner := mkVersionManager 0 1 None true {[ 3; 4 ]} 0 true in
  let remote := VersionManager_new 1 0 in
  ∃ managers' h' remote',
    handle_response find_set_ex (send_response set_did_ex owner 77)
      {[ 77 := remote ]} store_ex
      = Some (managers', h', []) ∧
    managers' !! 77 = Some remote' ∧
    vm_equivalence_sets remote' = vm_equivalence_sets owner.
Proof.
  intros owner remote.
  apply (response_carries_the_sets find_set_ex set_did_ex owner remote 77
           {[ 77 := remote ]} store_ex).
  - reflexivity.
  - reflexivity.
  - intros e He. subst owner. simpl in He.
    apply elem_of_union in He as [He|He]; apply elem_of_singleton in He;
      subst e; (split; [reflexivity|by eexists]).
Defined.

End VersioningSetFacts.

(* ===================================================================== *)
(** ** Restrictions: instances, find_restrictions, attach and detach *)
(* ===================================================================== *)

Module AttachFacts.
Import Restrictions.
Import RestrictionFacts.


Lemma fm_subset_bits a b :
  fm_subset a b ↔ ∀ i, N.testbit a i = true → N.testbit b i = true.
Proof.
  unfold fm_subset. split.
  - intros H i Ha. mask_hyp H i. bits.
  - intros H. mask_eq i. specialize (H i). bits. intros H. by specialize (H eq_refl).
Qed.

Lemma fm_subset_refl a : fm_subset a a.
Proof. apply fm_diff_diag. Qed.

Lemma fm_subset_trans a b c : fm_subset a b → fm_subset b c → fm_subset a c.
Proof. rewrite !fm_subset_bits. auto. Qed.

Lemma fm_subset_and a b : fm_subset a b → fm_and a b = a.
Proof.
  intros H. unfold fm_subset, fm_and in *. mask_eq i. mask_hyp H i. bits.
Qed.

Lemma fm_subset_and_r a b : fm_subset a b → fm_and b a = a.
Proof.
  intros H. unfold fm_subset, fm_and in *. mask_eq i. mask_hyp H i. bits.
Qed.

Lemma fm_subset_diff a b : fm_subset (fm_diff a b) a.
Proof. unfold fm_subset, fm_diff. mask_eq i. bits. Qed.

Lemma record_restriction_lookup info inst mask inst' :
  ri_restrictions (record_restriction info inst mask) !! inst' =
  if decide (inst' = inst)
  then Some (match ri_restrictions info !! inst with
             | None => mask
             | Some m => fm_or m mask
             end)
  else ri_restrictions info !! inst'.
Proof.
  unfold record_restriction.
  destruct (ri_restrictions info !! inst) as [m|] eqn:Hm; simpl;
    destruct (decide (inst' = inst)) as [->|Hne];
    by rewrite ?lookup_insert_eq, ?lookup_insert_ne.
Qed.

Lemma record_restriction_reported info inst mask i :
  reported (record_restriction info inst mask) i ↔
  reported info i ∨ N.testbit mask i = true.
Proof.
  unfold reported. split.
  - intros (inst' & m & Hl & Hb). rewrite record_restriction_lookup in Hl.
    destruct (decide (inst' = inst)) as [->|Hne].
    + destruct (ri_restrictions info !! inst) as [m0|] eqn:H0; simplify_eq.
      * unfold fm_or in Hb. rewrite N.lor_spec in Hb.
        apply orb_true_iff in Hb as [Hb|Hb]; [left; eauto|by right].
      * by right.
    + left. eauto.
  - intros [(inst' & m & Hl & Hb)|Hb].
    + destruct (decide (inst' = inst)) as [->|Hne].
      * exists inst, (fm_or m mask). rewrite record_restriction_lookup.
        rewrite decide_True, Hl by done. split; [done|].
        unfold fm_or. by rewrite N.lor_spec, Hb.
      * exists inst', m. rewrite record_restriction_lookup.
        by rewrite decide_False.
    + exists inst. rewrite record_restriction_lookup, decide_True by done.
      eexists. split; [done|].
      destruct (ri_restrictions info !! inst); [|done].
      unfold fm_or. by rewrite N.lor_spec, Hb, orb_true_r.
Qed.

Lemma info_grows_refl info : info_grows info info.
Proof. intros inst m Hm. exists m. split; [done|apply fm_subset_refl]. Qed.

Lemma info_grows_trans a b c : info_grows a b → info_grows b c → info_grows a c.
Proof.
  intros Hab Hbc inst m Hm. destruct (Hab _ _ Hm) as (m' & Hm' & Hs).
  destruct (Hbc _ _ Hm') as (m'' & Hm'' & Hs'). exists m''.
  split; [done|by eapply fm_subset_trans].
Qed.

Lemma record_restriction_grows info inst mask :
  info_grows info (record_restriction info inst mask).
Proof.
  intros inst' m Hm. rewrite record_restriction_lookup.
  destruct (decide (inst' = inst)) as [->|Hne].
  - rewrite Hm. eexists. split; [done|].
    apply fm_subset_bits. intros i Hi. unfold fm_or.
    by rewrite N.lor_spec, Hi.
  - exists m. split; [done|apply fm_subset_refl].
Qed.

Lemma record_overlaps_spec restricted insts info :
  info_grows info (record_overlaps restricted insts info) ∧
  ∀ i, reported (record_overlaps restricted insts info) i ↔
       reported info i ∨
       (N.testbit restricted i = true ∧
        ∃ (inst : PhysicalManager) (m : FieldMask),
          insts !! inst = Some m ∧ N.testbit m i = true).
Proof.
  unfold record_overlaps.
  apply (map_fold_weak_ind
           (λ r (m : gmap PhysicalManager FieldMask),
              info_grows info r ∧
              ∀ i, reported r i ↔
                   reported info i ∨
                   (N.testbit restricted i = true ∧
                    ∃ (inst : PhysicalManager) (f : FieldMask),
                      m !! inst = Some f ∧ N.testbit f i = true))).
  - split; [apply info_grows_refl|]. intros i. split; [by left|].
    intros [H|(_ & inst & f & Hl & _)]; [done|].
    by rewrite lookup_empty in Hl.
  - intros inst f m r Hfresh [Hg Hrep]. simpl.
    assert (∀ i, (∃ (inst0 : PhysicalManager) (f0 : FieldMask),
                    <[inst:=f]> m !! inst0 = Some f0 ∧
                    N.testbit f0 i = true) ↔
                 N.testbit f i = true ∨
                 ∃ (inst0 : PhysicalManager) (f0 : FieldMask),
                   m !! inst0 = Some f0 ∧ N.testbit f0 i = true)
      as Hins.
    { intros i. split.
      - intros (inst0 & f0 & Hl & Hb).
        destruct (decide (inst0 = inst)) as [->|Hne].
        + rewrite lookup_insert_eq in Hl. simplify_eq. by left.
        + rewrite lookup_insert_ne in Hl by done. right. eauto.
      - intros [Hb|(inst0 & f0 & Hl & Hb)].
        + exists inst, f. by rewrite lookup_insert_eq.
        + exists inst0, f0. split; [|done]. rewrite lookup_insert_ne; [done|].
          intros ->. congruence. }
    destruct (fm_empty (fm_and f restricted)) eqn:He.
    + split; [done|]. intros i. rewrite Hrep, Hins.
      apply fm_empty_true in He. unfold fm_and in He. mask_hyp He i.
      split; [tauto|]. intros [H|(Hr & [Hf|H])]; [tauto| |tauto].
      rewrite Hr, Hf in He. done.
    + split.
      * eapply info_grows_trans; [exact Hg|apply record_restriction_grows].
      * intros i. rewrite record_restriction_reported, Hrep, Hins.
        unfold fm_and. rewrite N.land_spec, andb_true_iff. tauto.
Qed.

(** *** Induction over the tree of restrictions and acquisitions *)

Section TreeInduction.

Variable P : Restriction → Prop.
Variable Q : Acquisition → Prop.
Hypothesis HR : ∀ tid n f insts acqs,
  Forall Q acqs → P (mkRestriction tid n f insts acqs).
Hypothesis HA : ∀ n f rs, Forall P rs → Q (mkAcquisition n f rs).

Fixpoint Restriction_tree_ind (r : Restriction) : P r :=
  match r with
  | mkRestriction tid n f insts acqs =>
      HR tid n f insts acqs
        ((fix go (l : list Acquisition) : Forall Q l :=
            match l with
            | [] => Forall_nil Q
            | a :: l' => Forall_cons Q a l' (Acquisition_tree_ind a) (go l')
            end) acqs)
  end
with Acquisition_tree_ind (a : Acquisition) : Q a :=
  match a with
  | mkAcquisition n f rs =>
      HA n f rs
        ((fix go (l : list Restriction) : Forall P l :=
            match l with
            | [] => Forall_nil P
            | r :: l' => Forall_cons P r l' (Restriction_tree_ind r) (go l')
            end) rs)
  end.

End TreeInduction.

Lemma tree_ind_both (P : Restriction → Prop) (Q : Acquisition → Prop) :
  (∀ tid n f insts acqs, Forall Q acqs → P (mkRestriction tid n f insts acqs)) →
  (∀ n f rs, Forall P rs → Q (mkAcquisition n f rs)) →
  (∀ r, P r) ∧ (∀ a, Q a).
Proof.
  intros HR HA. split.
  - exact (Restriction_tree_ind P Q HR HA).
  - exact (Acquisition_tree_ind P Q HR HA).
Qed.

Lemma find_step_refl pr info : find_step pr info pr info.
Proof.
  split_and!; [apply fm_subset_refl|apply info_grows_refl|]. by left.
Qed.

Lemma find_step_trans pr info pr1 info1 pr2 info2 :
  find_step pr info pr1 info1 → find_step pr1 info1 pr2 info2 →
  find_step pr info pr2 info2.
Proof.
  intros (Hs & Hg & Hr) (Hs' & Hg' & Hr'). split_and!.
  - by eapply fm_subset_trans.
  - by eapply info_grows_trans.
  - rewrite fm_subset_bits in Hs, Hs'. intros i Hi.
    destruct (Hr' i Hi) as [H1|[Hin Hout]].
    + destruct (Hr i H1) as [H0|[Hin Hout]]; [by left|]. right.
      split; [done|].
      destruct (N.testbit pr2 i) eqn:H2; [|done].
      by rewrite (Hs' i H2) in Hout.
    + right. split; [by apply Hs|done].
Qed.

Lemma find_each_step {A} (f : A → FieldMask → RestrictInfo →
                              FieldMask * RestrictInfo) (l : list A) :
  Forall (λ x, ∀ pr info, find_step pr info (f x pr info).1 (f x pr info).2) l →
  ∀ pr info,
    find_step pr info (find_each f l pr info).1 (find_each f l pr info).2.
Proof.
  induction 1 as [|x l Hx Hl IH]; intros pr info; simpl.
  - apply find_step_refl.
  - specialize (Hx pr info). destruct (f x pr info) as [pr1 info1].
    simpl in Hx. destruct (fm_empty pr1); [done|].
    eapply find_step_trans; [exact Hx|apply IH].
Qed.

Section Finding.

Variable dominates : RegionNode → RegionNode → bool.
Variable intersects_with : RegionNode → RegionNode → bool.

Abbreviation find_r :=
  (Restriction_find_restrictions dominates intersects_with).
Abbreviation find_a :=
  (Acquisition_find_restrictions dominates intersects_with).

Lemma find_restrictions_steps :
  (∀ r node pr info,
     find_step pr info (find_r r node pr info).1 (find_r r node pr info).2) ∧
  (∀ a node pr info,
     find_step pr info (find_a a node pr info).1 (find_a a node pr info).2).
Proof.
  apply tree_ind_both.
  - intros tid n f insts acqs Hall node pr info.
    cbn [Restriction_find_restrictions].
    destruct (intersects_with n node); simpl; [|apply find_step_refl].
    assert (Forall (λ a, ∀ pr info,
              find_step pr info
                ((λ a m i, find_a a node m i) a pr info).1
                ((λ a m i, find_a a node m i) a pr info).2) acqs) as Hall'.
    { eapply list.Forall_impl; [exact Hall|]. intros a Ha pr0 info0. apply Ha. }
    pose proof (find_each_step _ acqs Hall' pr info) as Hloop.
    destruct (find_each _ acqs pr info) as [pr1 info1]. simpl in Hloop.
    destruct (fm_empty pr1); [done|].
    destruct (fm_empty (fm_and pr1 f)) eqn:He; simpl; [done|].
    eapply find_step_trans; [exact Hloop|].
    destruct (record_overlaps_spec (fm_and pr1 f) insts info1) as [Hg Hrep].
    split_and!; [apply fm_subset_diff|done|].
    intros i [Hi|[Hi _]]%Hrep; [by left|right].
    unfold fm_and, fm_diff in *. rewrite N.land_spec in Hi.
    rewrite N.ldiff_spec, N.land_spec. bits.
  - intros n f rs Hall node pr info.
    cbn [Acquisition_find_restrictions].
    destruct (fm_disjoint f pr); [apply find_step_refl|].
    destruct (intersects_with n node); simpl; [|apply find_step_refl].
    assert (Forall (λ r, ∀ pr info,
              find_step pr info
                ((λ r m i, find_r r node m i) r pr info).1
                ((λ r m i, find_r r node m i) r pr info).2) rs) as Hall'.
    { eapply list.Forall_impl; [exact Hall|]. intros r Hr pr0 info0. apply Hr. }
    pose proof (find_each_step _ rs Hall' pr info) as Hloop.
    destruct (find_each _ rs pr info) as [pr1 info1]. simpl in Hloop.
    destruct (fm_empty pr1); [done|].
    destruct (negb (fm_empty (fm_and f pr1)) && dominates n node);
      simpl; [|done].
    eapply find_step_trans; [exact Hloop|].
    split_and!; [apply fm_subset_diff|apply info_grows_refl|by left].
Qed.

(** X7: Restriction::find_restrictions (with
    Acquisition::find_restrictions below it) never adds a field to
    possibly_restricted, never drops or shrinks an entry of
    restrict_info, and reports a field restricted only if the field was
    possibly restricted on entry and no longer is on return. *)
Theorem find_restrictions_accounts (r : Restriction) (node : RegionNode)
    (possibly_restricted : FieldMask) (restrict_info : RestrictInfo) :
  let '(possibly_restricted', restrict_info') :=
    find_r r node possibly_restricted restrict_info in
  find_step possibly_restricted restrict_info
    possibly_restricted' restrict_info'.
Proof.
  pose proof (proj1 find_restrictions_steps r node possibly_restricted
                restrict_info) as H.
  by destruct (find_r _ _ _ _).
Qed.

End Finding.

(** *** The fields of a restriction and of its instances *)

Lemma filter_instances_lookup overlap
    (insts : gmap PhysicalManager FieldMask) inst (m : FieldMask) :
  filter_instances overlap insts !! inst = Some m ↔
  ∃ m0 : FieldMask, insts !! inst = Some m0 ∧ m = fm_diff m0 overlap ∧ m ≠ 0.
Proof.
  unfold filter_instances.
  rewrite map_lookup_filter_Some, lookup_fmap. simpl.
  rewrite fm_empty_false. destruct (insts !! inst) as [m0|]; simpl;
    naive_solver.
Qed.

(** X8: the invariant that ties a restriction to its instances (the
    restricted fields are exactly the fields of the instances, and every
    instance has a field) is kept by Restriction::add_restricted_instance
    for a non-empty mask, and by Restriction::matches whenever it
    returns false, that is whenever the restriction stays. *)
Theorem covered_by_instances_preserved (r : Restriction) :
  covered_by_instances r →
  (∀ inst inst_fields,
     inst_fields ≠ 0 →
     covered_by_instances (add_restricted_instance r inst inst_fields)) ∧
  (∀ node remaining r' remaining',
     Restriction_matches r node remaining = (false, r', remaining') →
     covered_by_instances r').
Proof.
  destruct r as [tid n f insts acqs]. intros [Hcov Hnz]. simpl in *. split.
  - intros inst g Hg. split; simpl.
    + intros i. unfold fm_or. rewrite N.lor_spec, orb_true_iff, Hcov. split.
      * intros [(inst' & m & Hl & Hb)|Hb].
        -- destruct (decide (inst' = inst)) as [->|Hne].
           ++ exists inst, (fm_or m g). rewrite Hl, lookup_insert_eq.
              split; [done|]. unfold fm_or. by rewrite N.lor_spec, Hb.
           ++ exists inst', m. split; [|done].
              destruct (insts !! inst); by rewrite lookup_insert_ne.
        -- exists inst. destruct (insts !! inst) as [m|].
           ++ exists (fm_or m g). rewrite lookup_insert_eq. split; [done|].
              unfold fm_or. by rewrite N.lor_spec, Hb, orb_true_r.
           ++ exists g. by rewrite lookup_insert_eq.
      * intros (inst' & m & Hl & Hb).
        destruct (decide (inst' = inst)) as [->|Hne].
        -- destruct (insts !! inst) as [m0|] eqn:H0;
             rewrite lookup_insert_eq in Hl; simplify_eq; [|by right].
           unfold fm_or in Hb. rewrite N.lor_spec in Hb.
           apply orb_true_iff in Hb as [Hb|Hb]; [left; eauto|by right].
        -- left. exists inst', m. split; [|done].
           destruct (insts !! inst); by rewrite lookup_insert_ne in Hl.
    + intros inst' m Hl. destruct (decide (inst' = inst)) as [->|Hne].
      * destruct (insts !! inst) as [m0|] eqn:H0;
          rewrite lookup_insert_eq in Hl; simplify_eq; [|done].
        by apply fm_or_nonzero_r.
      * apply (Hnz inst').
        destruct (insts !! inst); by rewrite lookup_insert_ne in Hl.
  - intros node remaining r' remaining'. unfold Restriction_matches.
    case_bool_decide as Hn; simpl; [|by intros [= <- <-]].
    destruct (fm_empty (fm_and remaining f)); [by intros [= <- <-]|].
    destruct (strip_each _ _) as [ov|]; [|by intros [= <- <-]].
    destruct (fm_empty (fm_diff f ov)) eqn:He; [done|].
    intros [= <- <-]. split; simpl.
    + intros i. unfold fm_diff at 1. rewrite N.ldiff_spec, andb_true_iff.
      rewrite Hcov. split.
      * intros [(inst & m & Hl & Hb) Hov]. exists inst, (fm_diff m ov).
        assert (N.testbit (fm_diff m ov) i = true) as Hb'.
        { unfold fm_diff. by rewrite N.ldiff_spec, Hb, Hov. }
        split; [|done]. apply filter_instances_lookup. exists m.
        split_and!; [done|done|]. intros Hz. by rewrite Hz, N.bits_0 in Hb'.
      * intros (inst & m & (m0 & Hl & -> & _)%filter_instances_lookup & Hb).
        unfold fm_diff in Hb. rewrite N.ldiff_spec in Hb.
        apply andb_true_iff in Hb as [Hb Hov]. split; [eauto|done].
    + by intros inst m (m0 & _ & -> & Hm)%filter_instances_lookup.
Qed.

Section Attaching.

Variable dominates : RegionNode → RegionNode → bool.
Variable intersects_with : RegionNode → RegionNode → bool.
Variable get_tree_id : RegionNode → RegionTreeID.

Abbreviation find_r' :=
  (Restriction_find_restrictions dominates intersects_with).
Abbreviation find_a' :=
  (Acquisition_find_restrictions dominates intersects_with).
Abbreviation attach_r :=
  (Restriction_add_restriction dominates intersects_with get_tree_id).
Abbreviation attach_a :=
  (Acquisition_add_restriction dominates intersects_with get_tree_id).

Lemma fm_disjoint_self f : f ≠ 0 → fm_disjoint f f = false.
Proof.
  intros Hf. unfold fm_disjoint. rewrite N.land_diag. by apply N.eqb_neq.
Qed.

Lemma fm_disjoint_subset f g : f ≠ 0 → fm_subset f g → fm_disjoint g f = false.
Proof.
  intros Hf Hs. unfold fm_disjoint.
  change (N.land g f) with (fm_and g f). rewrite fm_subset_and_r by done.
  by apply N.eqb_neq.
Qed.

(** X9: on a restriction without acquisitions whose node dominates and
    intersects the node asked about, find_restrictions reports all of
    the fields f asked about, if they are restricted, through the
    instances that hold them; after add_acquisition of f at that node
    find_restrictions reports nothing for f; and remove_acquisition of f
    gives the restriction back as it was. *)
Theorem acquire_hides_restriction (tid : RegionTreeID) (R node : RegionNode)
    (restricted : FieldMask) (insts : gmap PhysicalManager FieldMask)
    (f : FieldMask) (info : RestrictInfo) :
  f ≠ 0 → fm_subset f restricted →
  dominates R node = true → intersects_with R node = true →
  dominates node node = true → intersects_with node node = true →
  let r := mkRestriction tid R restricted insts [] in
  let r' := mkRestriction tid R restricted insts [mkAcquisition node f []] in
  find_r' r node f info = (0, record_overlaps f insts info) ∧
  Restriction_add_acquisition dominates intersects_with r node f
    = Done (r', 0) ∧
  find_r' r' node f info = (0, info) ∧
  Restriction_remove_acquisition dominates intersects_with r' node f = (r, 0).
Proof.
  intros Hf Hsub HdR HiR Hdn Hin. simpl.
  pose proof (proj2 (fm_empty_false f) Hf) as Hef.
  rewrite HdR, HiR, Hdn, Hin. simpl.
  rewrite (fm_subset_and f restricted Hsub),
    (fm_subset_and_r f restricted Hsub), fm_and_diag, fm_diff_diag.
  rewrite (fm_disjoint_self f Hf), (fm_disjoint_subset f restricted Hf Hsub).
  rewrite Hef. simpl. rewrite bool_decide_true by done. simpl. done.
Qed.

(** A nested restriction that holds none of the fields, or lies apart
    from the node, lets an attach pass. *)
Lemma Restriction_add_restriction_aside r node inst fields :
  fm_disjoint (restricted_fields r) fields = true ∨
  intersects_with (r_local_node r) node = false →
  attach_r r node inst fields = Done (r, fields).
Proof.
  destruct r as [tid n g insts acqs]. simpl.
  intros [-> | Hi]; [done|]. rewrite Hi. simpl. by destruct (fm_disjoint _ _).
Qed.

Lemma Acquisition_add_restriction_dominating n acq rs node manager
    remaining :
  fm_and remaining acq ≠ 0 →
  dominates n node = true →
  (∀ r, r ∈ rs →
        fm_disjoint (restricted_fields r) (fm_and remaining acq) = true ∨
        intersects_with (r_local_node r) node = false) →
  attach_a (mkAcquisition n acq rs) node manager remaining =
    Done (mkAcquisition n acq
            (rs ++ [mkRestriction (get_tree_id node) node
                      (fm_and remaining acq)
                      {[manager := fm_and remaining acq]} []]),
          fm_diff remaining (fm_and remaining acq)).
Proof.
  intros Hov Hd Haside. simpl.
  pose proof (proj2 (fm_empty_false _) Hov) as He.
  rewrite He, Hd. simpl.
  rewrite offer_each_inert; [|intros r Hr|done].
  - rewrite He. unfold fm_or. rewrite N.lor_0_l.
    by rewrite lookup_empty, insert_empty.
  - by apply Restriction_add_restriction_aside, Haside.
Qed.


Lemma find_each_inert {A} (f : A → FieldMask → RestrictInfo →
                               FieldMask * RestrictInfo)
    (l l2 : list A) pr info :
  (∀ x, x ∈ l → f x pr info = (pr, info)) → fm_empty pr = false →
  find_each f (l ++ l2) pr info = find_each f l2 pr info.
Proof.
  intros Hf He. induction l as [|x l IH]; [done|]. simpl.
  rewrite Hf by set_solver. rewrite He. apply IH.
  intros y Hy. apply Hf. set_solver.
Qed.

Lemma sweep_each_inert {A} (matches : A → FieldMask → bool * A * FieldMask)
    (descend : A → A → FieldMask → A * FieldMask) (l l2 : list A) m :
  (∀ x, x ∈ l → matches x m = (false, x, m) ∧ descend x x m = (x, m)) →
  fm_empty m = false →
  sweep_each matches descend (l ++ l2) m =
  (l ++ (sweep_each matches descend l2 m).1,
   (sweep_each matches descend l2 m).2).
Proof.
  intros Hf He. induction l as [|x l IH].
  - simpl. by destruct (sweep_each _ _ _ _).
  - cbn [app sweep_each]. destruct (Hf x) as [-> Hd]; [set_solver|].
    rewrite He. cbn [negb]. rewrite Hd, He.
    rewrite IH; [done|]. intros y Hy. apply Hf. set_solver.
Qed.

Lemma find_holds_none r node f info :
  holds_none r f → f ≠ 0 → find_r' r node f info = (f, info).
Proof.
  destruct r as [tid n g insts acqs]. intros [Hg Ha] Hf. simpl in *.
  destruct (intersects_with n node); simpl; [|done].
  pose proof (proj2 (fm_empty_false f) Hf) as He.
  pose proof (find_each_inert (λ a m i, find_a' a node m i) acqs [] f info)
    as Hloop.
  rewrite app_nil_r in Hloop. rewrite Hloop; [|intros a Hin|done].
  - simpl. rewrite He.
    unfold fm_disjoint in Hg. apply N.eqb_eq in Hg.
    unfold fm_and. rewrite N.land_comm, Hg. done.
  - specialize (Ha a Hin). destruct a as [n' acq' rs']. simpl in *.
    by rewrite Ha.
Qed.

(** X11: under an acquisition that holds the fields f and dominates the
    node, where nothing nested holds any of f: add_restriction of f with
    a manager accounts for all of f; find_restrictions then reports f
    restricted through that manager; and remove_restriction of f at the
    same node gives the acquisition back as it was. *)
Theorem attach_detach_round_trip (a : Acquisition) (node : RegionNode)
    (manager : PhysicalManager) (f : FieldMask) (info : RestrictInfo) :
  f ≠ 0 → fm_subset f (acquired_fields a) →
  dominates (a_local_node a) node = true →
  intersects_with (a_local_node a) node = true →
  intersects_with node node = true →
  (∀ r, r ∈ restrictions a → holds_none r f) →
  ∃ a',
    attach_a a node manager f = Done (a', 0) ∧
    find_a' a' node f info = (0, record_restriction info manager f) ∧
    Acquisition_remove_restriction dominates intersects_with a' node f
      = (a, 0).
Proof.
  destruct a as [n acq rs]. cbn [a_local_node acquired_fields restrictions].
  intros Hf Hsub Hd Hi Hin Hnone.
  pose proof (proj2 (fm_empty_false f) Hf) as He.
  pose proof (fm_subset_and f acq Hsub) as Hov.
  eexists. split_and!.
  - rewrite Acquisition_add_restriction_dominating; rewrite ?Hov; try done.
    + by rewrite fm_diff_diag.
    + intros r Hr. left. by apply Hnone.
  - cbn [Acquisition_find_restrictions].
    rewrite (fm_disjoint_subset f acq Hf Hsub), Hi. cbn [negb].
    rewrite find_each_inert; [|intros r Hr|done].
    + simpl. rewrite Hin. simpl. rewrite He, fm_and_diag, He. simpl.
      rewrite fm_diff_diag. simpl.
      unfold record_overlaps. rewrite map_fold_singleton.
      rewrite fm_and_diag, He. done.
    + apply find_holds_none; [by apply Hnone|done].
  - cbn [Acquisition_remove_restriction].
    rewrite (fm_disjoint_subset f acq Hf Hsub), Hi. cbn [negb].
    rewrite sweep_each_inert; [|intros r Hr|done].
    + simpl. rewrite bool_decide_true by done. simpl.
      rewrite fm_and_diag, He, fm_diff_diag. simpl. by rewrite app_nil_r.
    + destruct (Hnone r Hr) as [Hg _]. destruct r as [tid n' g insts acqs].
      simpl in *. rewrite Hg. split; [|done].
      unfold fm_disjoint in Hg. apply N.eqb_eq in Hg.
      unfold fm_and. rewrite N.land_comm, Hg.
      by destruct (negb (bool_decide (n' = node))).
Qed.

End Attaching.

(** *** No operation adds a field to the fields it was given *)

Lemma offer_each_shrinks {A} (f : A → FieldMask → Outcome (A * FieldMask))
    (l : list A) :
  Forall (λ x, ∀ m x' m', f x m = Done (x', m') → fm_subset m' m) l →
  ∀ m l' m', offer_each f l m = Done (l', m') → fm_subset m' m.
Proof.
  induction 1 as [|x l Hx Hl IH]; intros m l' m'; simpl.
  - intros [= <- <-]. apply fm_subset_refl.
  - destruct (f x m) as [[x1 m1]|e] eqn:Hf; [|done].
    specialize (Hx _ _ _ Hf). destruct (fm_empty m1).
    + by intros [= <- <-].
    + destruct (offer_each f l m1) as [[l2 m2]|e] eqn:Ho; [|done].
      intros [= <- <-]. eapply fm_subset_trans; [|exact Hx]. by eapply IH.
Qed.

Lemma pass_each_shrinks {A} (f : A → FieldMask → A * FieldMask)
    (l : list A) :
  Forall (λ x, ∀ m, fm_subset (f x m).2 m) l →
  ∀ m, fm_subset (pass_each f l m).2 m.
Proof.
  induction 1 as [|x l Hx Hl IH]; intros m; simpl.
  - apply fm_subset_refl.
  - specialize (Hx m). destruct (f x m) as [x1 m1]. simpl in Hx.
    destruct (fm_empty m1); [done|].
    specialize (IH m1). destruct (pass_each f l m1) as [l2 m2]. simpl in *.
    by eapply fm_subset_trans.
Qed.

Lemma sweep_each_shrinks {A} (matches : A → FieldMask → bool * A * FieldMask)
    (descend : A → A → FieldMask → A * FieldMask) (l : list A) :
  (∀ x m, fm_subset (matches x m).2 m) →
  Forall (λ x, ∀ x1 m, fm_subset (descend x x1 m).2 m) l →
  ∀ m, fm_subset (sweep_each matches descend l m).2 m.
Proof.
  intros Hm. induction 1 as [|x l Hx Hl IH]; intros m; simpl.
  - apply fm_subset_refl.
  - specialize (Hm x m). destruct (matches x m) as [[b x1] m1]. simpl in Hm.
    assert (∀ keep m2,
      fm_subset m2 m1 →
      fm_subset
        (if fm_empty m2 then (keep ++ l, m2)
         else let '(l'', rem3) := sweep_each matches descend l m2 in
              (keep ++ l'', rem3)).2 m) as Hrest.
    { intros keep m2 H2. destruct (fm_empty m2).
      - simpl. by eapply fm_subset_trans.
      - specialize (IH m2). destruct (sweep_each _ _ l m2) as [l3 m3].
        simpl in *. eapply fm_subset_trans; [exact IH|].
        by eapply fm_subset_trans. }
    destruct b.
    + apply Hrest, fm_subset_refl.
    + destruct (negb (fm_empty m1)).
      * specialize (Hx x1 m1). destruct (descend x x1 m1) as [x2 m2].
        simpl in Hx. by apply Hrest.
      * apply Hrest, fm_subset_refl.
Qed.

Lemma Acquisition_matches_shrinks a node m :
  fm_subset (Acquisition_matches a node m).2 m.
Proof.
  destruct a as [n acq rs]. unfold Acquisition_matches.
  destruct (negb _); [apply fm_subset_refl|].
  destruct (fm_empty _); [apply fm_subset_refl|].
  destruct (strip_each _ _); [apply fm_subset_diff|apply fm_subset_refl].
Qed.

Lemma Restriction_matches_shrinks r node m :
  fm_subset (Restriction_matches r node m).2 m.
Proof.
  destruct r as [tid n g insts acqs]. unfold Restriction_matches.
  destruct (negb _); [apply fm_subset_refl|].
  destruct (fm_empty _); [apply fm_subset_refl|].
  destruct (strip_each _ _); [|apply fm_subset_refl].
  destruct (fm_empty _); apply fm_subset_diff.
Qed.

Section Shrinking.

Variable dominates : RegionNode → RegionNode → bool.
Variable intersects_with : RegionNode → RegionNode → bool.
Variable get_tree_id : RegionNode → RegionTreeID.

Lemma add_acquisition_shrinks :
  (∀ r node m r' m',
     Restriction_add_acquisition dominates intersects_with r node m
       = Done (r', m') → fm_subset m' m) ∧
  (∀ a node m a' m',
     Acquisition_add_acquisition dominates intersects_with a node m
       = Done (a', m') → fm_subset m' m).
Proof.
  apply tree_ind_both.
  - intros tid n g insts acqs Hall node m r' m'.
    cbn [Restriction_add_acquisition].
    destruct (fm_empty _); [intros [= <- <-]; apply fm_subset_refl|].
    destruct (negb (dominates n node)).
    { destruct (intersects_with n node); [done|].
      intros [= <- <-]. apply fm_subset_refl. }
    destruct (offer_each _ acqs _) as [[acqs' ov]|e]; [|done].
    destruct (fm_empty ov); intros [= <- <-]; apply fm_subset_diff.
  - intros n acq rs Hall node m a' m'.
    cbn [Acquisition_add_acquisition].
    destruct (fm_disjoint _ _); [intros [= <- <-]; apply fm_subset_refl|].
    destruct (negb _); [intros [= <- <-]; apply fm_subset_refl|].
    destruct (offer_each _ rs m) as [[rs' m1]|e] eqn:Ho; [|done].
    destruct (fm_empty m1); [|done]. intros [= <- <-].
    eapply (offer_each_shrinks _ rs); [|exact Ho].
    eapply list.Forall_impl; [exact Hall|]. intros r Hr. apply Hr.
Qed.

Lemma remove_acquisition_shrinks :
  (∀ r node m,
     fm_subset
       (Restriction_remove_acquisition dominates intersects_with r node m).2
       m) ∧
  (∀ a acq node m,
     fm_subset
       (Acquisition_remove_acquisition_at dominates intersects_with
          a acq node m).2 m).
Proof.
  apply tree_ind_both.
  - intros tid n g insts acqs Hall node m.
    cbn [Restriction_remove_acquisition].
    destruct (fm_disjoint _ _); [apply fm_subset_refl|].
    destruct (negb _); [apply fm_subset_refl|].
    destruct (sweep_each _ _ acqs m) as [acqs' m1] eqn:Hsw. simpl.
    change m1 with (acqs', m1).2. rewrite <- Hsw.
    apply sweep_each_shrinks; [intros a m0; apply Acquisition_matches_shrinks|].
    eapply list.Forall_impl; [exact Hall|]. intros a Ha x1 m0. apply Ha.
  - intros n acq0 rs Hall acq node m.
    cbn [Acquisition_remove_acquisition_at].
    destruct (fm_disjoint _ _); [apply fm_subset_refl|].
    destruct (negb _); [apply fm_subset_refl|].
    destruct (pass_each _ rs m) as [rs' m1] eqn:Hp. simpl.
    change m1 with (rs', m1).2. rewrite <- Hp.
    apply pass_each_shrinks.
    eapply list.Forall_impl; [exact Hall|]. intros r Hr m0. apply Hr.
Qed.

Lemma add_restriction_shrinks :
  (∀ r node inst m r' m',
     Restriction_add_restriction dominates intersects_with get_tree_id
       r node inst m = Done (r', m') → fm_subset m' m) ∧
  (∀ a node inst m a' m',
     Acquisition_add_restriction dominates intersects_with get_tree_id
       a node inst m = Done (a', m') → fm_subset m' m).
Proof.
  apply tree_ind_both.
  - intros tid n g insts acqs Hall node inst m r' m'.
    cbn [Restriction_add_restriction].
    destruct (fm_disjoint _ _); [intros [= <- <-]; apply fm_subset_refl|].
    destruct (negb _); [intros [= <- <-]; apply fm_subset_refl|].
    destruct (offer_each _ acqs m) as [[acqs' m1]|e] eqn:Ho; [|done].
    destruct (fm_empty m1); [|done]. intros [= <- <-].
    eapply (offer_each_shrinks _ acqs); [|exact Ho].
    eapply list.Forall_impl; [exact Hall|]. intros a Ha. apply Ha.
  - intros n acq rs Hall node inst m a' m'.
    cbn [Acquisition_add_restriction].
    destruct (fm_empty _); [intros [= <- <-]; apply fm_subset_refl|].
    destruct (negb (dominates n node)).
    { destruct (intersects_with n node); [done|].
      intros [= <- <-]. apply fm_subset_refl. }
    destruct (offer_each _ rs _) as [[rs' ov]|e]; [|done].
    destruct (fm_empty ov); intros [= <- <-]; apply fm_subset_diff.
Qed.

Lemma remove_restriction_shrinks :
  (∀ r restricted insts node m,
     fm_subset
       (Restriction_remove_restriction_at dominates intersects_with
          r restricted insts node m).2 m) ∧
  (∀ a node m,
     fm_subset
       (Acquisition_remove_restriction dominates intersects_with a node m).2
       m).
Proof.
  apply tree_ind_both.
  - intros tid n g0 insts0 acqs Hall g insts node m.
    cbn [Restriction_remove_restriction_at].
    destruct (fm_disjoint _ _); [apply fm_subset_refl|].
    destruct (negb _); [apply fm_subset_refl|].
    destruct (pass_each _ acqs m) as [acqs' m1] eqn:Hp. simpl.
    change m1 with (acqs', m1).2. rewrite <- Hp.
    apply pass_each_shrinks.
    eapply list.Forall_impl; [exact Hall|]. intros a Ha m0. apply Ha.
  - intros n acq rs Hall node m.
    cbn [Acquisition_remove_restriction].
    destruct (fm_disjoint _ _); [apply fm_subset_refl|].
    destruct (negb _); [apply fm_subset_refl|].
    destruct (sweep_each _ _ rs m) as [rs' m1] eqn:Hsw. simpl.
    change m1 with (rs', m1).2. rewrite <- Hsw.
    apply sweep_each_shrinks; [intros r m0; apply Restriction_matches_shrinks|].
    eapply list.Forall_impl; [exact Hall|]. intros r Hr x1 m0. apply Hr.
Qed.

(** X12: none of add_acquisition, remove_acquisition, add_restriction
    and remove_restriction, on any tree of restrictions and
    acquisitions, adds a field to the remaining fields it is given. *)
Theorem remaining_fields_only_shrink (r : Restriction) (node : RegionNode)
    (inst : PhysicalManager) (remaining : FieldMask) :
  match Restriction_add_acquisition dominates intersects_with r node
          remaining with
  | Done (_, remaining') => fm_subset remaining' remaining
  | Fatal _ => True
  end ∧
  fm_subset
    (Restriction_remove_acquisition dominates intersects_with r node
       remaining).2 remaining ∧
  match Restriction_add_restriction dominates intersects_with get_tree_id
          r node inst remaining with
  | Done (_, remaining') => fm_subset remaining' remaining
  | Fatal _ => True
  end ∧
  fm_subset
    (Restriction_remove_restriction dominates intersects_with r node
       remaining).2 remaining.
Proof.
  split_and!.
  - destruct (Restriction_add_acquisition _ _ _ _ _) as [[r' m']|e] eqn:H;
      [|done].
    by eapply (proj1 add_acquisition_shrinks).
  - apply (proj1 remove_acquisition_shrinks).
  - destruct (Restriction_add_restriction _ _ _ _ _ _ _) as [[r' m']|e] eqn:H;
      [|done].
    by eapply (proj1 add_restriction_shrinks).
  - apply (proj1 remove_restriction_shrinks).
Qed.

End Shrinking.

Lemma covered_by_instances_ex : covered_by_instances restriction_ex.
Proof.
  assert (∀ (inst : PhysicalManager) (m : FieldMask),
            instances restriction_ex !! inst = Some m →
            (inst = 8 ∧ m = 3) ∨ (inst = 9 ∧ m = 6)) as Hcases.
  { intros inst m Hl. unfold restriction_ex in Hl. cbn [instances] in Hl.
    apply lookup_insert_Some in Hl as [[<- <-]|[_ Hl]]; [by left|].
    apply lookup_singleton_Some in Hl as [<- <-]. by right. }
  split.
  - intros i. unfold restriction_ex at 1. cbn [restricted_fields].
    change (N.testbit 7 i) with (N.testbit (N.lor 3 6) i).
    rewrite N.lor_spec, orb_true_iff. split.
    + intros [Hi|Hi]; [exists 8, 3|exists 9, 6]; done.
    + intros (inst & m & Hl & Hb).
      destruct (Hcases inst m Hl) as [[_ ->]|[_ ->]]; tauto.
  - intros inst m Hl. by destruct (Hcases inst m Hl) as [[_ ->]|[_ ->]].
Qed.

(** On the restriction of the example, a new instance keeps the
    invariant; a detach of fields 1 and 2 at its node does not match,
    leaves field 0 restricted, takes instance 9 away and leaves instance
    8 with field 0, and the invariant holds of what is left. *)
Lemma covered_by_instances_preserved_witness :
  let left := mkRestriction 0 1 1 {[ 8 := 1 ]} [] in
  covered_by_instances (add_restricted_instance restriction_ex 10 8) ∧
  Restriction_matches restriction_ex 1 6 = (false, left, 0) ∧
  covered_by_instances left.
Proof.
  intros left.
  destruct (covered_by_instances_preserved restriction_ex
              covered_by_instances_ex) as [Hadd Hmatches].
  split; [by apply Hadd|].
  assert (Restriction_matches restriction_ex 1 6 = (false, left, 0)) as Hm
    by (by vm_compute).
  split; [exact Hm|]. exact (Hmatches 1 6 left 0 Hm).
Defined.

Lemma acquire_hides_restriction_witness :
  let r := mkRestriction 0 1 3 {[ 9 := 3 ]} [] in
  let r' := mkRestriction 0 1 3 {[ 9 := 3 ]} [mkAcquisition 1 2 []] in
  Restriction_find_restrictions same_node same_node r 1 2 RestrictInfo_new
    = (0, record_overlaps 2 {[ 9 := 3 ]} RestrictInfo_new) ∧
  Restriction_add_acquisition same_node same_node r 1 2 = Done (r', 0) ∧
  Restriction_find_restrictions same_node same_node r' 1 2 RestrictInfo_new
    = (0, RestrictInfo_new) ∧
  Restriction_remove_acquisition same_node same_node r' 1 2 = (r, 0).
Proof.
  apply (acquire_hides_restriction same_node same_node 0 1 1 3 {[ 9 := 3 ]}
           2 RestrictInfo_new); try reflexivity.
  discriminate.
Defined.


Lemma attach_detach_round_trip_witness :
  let a := mkAcquisition 1 3 [mkRestriction 0 1 4 {[ 8 := 4 ]} []] in
  ∃ a',
    Acquisition_add_restriction same_node same_node tree_zero a 1 9 2
      = Done (a', 0) ∧
    Acquisition_find_restrictions same_node same_node a' 1 2 RestrictInfo_new
      = (0, record_restriction RestrictInfo_new 9 2) ∧
    Acquisition_remove_restriction same_node same_node a' 1 2 = (a, 0).
Proof.
  apply (attach_detach_round_trip same_node same_node tree_zero
           (mkAcquisition 1 3 [mkRestriction 0 1 4 {[ 8 := 4 ]} []]) 1 9 2
           RestrictInfo_new); try reflexivity.
  - discriminate.
  - intros r ->%list_elem_of_singleton. split; [reflexivity|].
    by intros a []%elem_of_nil.
Defined.

End AttachFacts.

(* ===================================================================== *)
(** ** LogicalState: deleted fields, projection epochs, merging *)
(* ===================================================================== *)

Module LogicalStateFacts.
Import Logical.


Lemma subtract_fields_lookup `{Countable K} (d : FieldMask)
    (m : gmap K FieldMask) k f :
  subtract_fields d m !! k = Some f ↔
  ∃ f0, m !! k = Some f0 ∧ f = fm_diff f0 d ∧ f ≠ 0.
Proof.
  unfold subtract_fields. rewrite map_lookup_filter_Some, lookup_fmap. simpl.
  rewrite fm_empty_false. destruct (m !! k) as [f0|]; simpl; naive_solver.
Qed.

Lemma subtract_fields_free `{Countable K} (d : FieldMask)
    (m : gmap K FieldMask) : free_of d (subtract_fields d m).
Proof.
  intros k f (f0 & _ & -> & Hne)%subtract_fields_lookup. split; [done|].
  unfold fm_diff, fm_and. mask_eq i. bits.
Qed.

Lemma fm_diff_twice a d1 d2 :
  fm_diff (fm_diff a d1) d2 = fm_diff a (fm_or d1 d2).
Proof. unfold fm_diff, fm_or. mask_eq i. bits. Qed.

Lemma subtract_fields_twice `{Countable K} (d1 d2 : FieldMask)
    (m : gmap K FieldMask) :
  subtract_fields d2 (subtract_fields d1 m) = subtract_fields (fm_or d1 d2) m.
Proof.
  apply map_eq. intros k. apply option_eq. intros f.
  rewrite !subtract_fields_lookup. split.
  - intros (f1 & (f0 & H0 & -> & Hne1)%subtract_fields_lookup & -> & Hne).
    exists f0. by rewrite <- fm_diff_twice.
  - intros (f0 & H0 & -> & Hne). exists (fm_diff f0 d1).
    rewrite fm_diff_twice. split_and!; try done.
    apply subtract_fields_lookup. exists f0. split_and!; try done.
    intros Hz. apply Hne. rewrite <- fm_diff_twice, Hz.
    unfold fm_diff. apply N.ldiff_0_l.
Qed.

Lemma subtract_fields_empty_twice `{Countable K} (d1 d2 : FieldMask)
    (m : gmap K FieldMask) :
  subtract_fields d1 m = ∅ → subtract_fields (fm_or d1 d2) m = ∅.
Proof.
  intros He. rewrite <- subtract_fields_twice, He.
  unfold subtract_fields. by rewrite fmap_empty, map_filter_empty.
Qed.

Lemma clear_deleted_field_states_twice d1 d2 l :
  clear_deleted_field_states d2 (clear_deleted_field_states d1 l)
  = clear_deleted_field_states (fm_or d1 d2) l.
Proof.
  induction l as [|fs l IH]; [done|]. cbn [clear_deleted_field_states].
  destruct (fm_empty (fm_diff (valid_fields fs) d1)) eqn:Hv1.
  - apply fm_empty_true in Hv1.
    assert (fm_empty (fm_diff (valid_fields fs) (fm_or d1 d2)) = true) as ->.
    { apply fm_empty_true. rewrite <- fm_diff_twice, Hv1.
      unfold fm_diff. apply N.ldiff_0_l. }
    exact IH.
  - case_bool_decide as Hc1.
    + rewrite (subtract_fields_empty_twice d1 d2 _ Hc1).
      rewrite bool_decide_true by done. rewrite IH.
      by destruct (fm_empty (fm_diff (valid_fields fs) (fm_or d1 d2))).
    + cbn [clear_deleted_field_states valid_fields open_children open_state
           fs_redop projection projection_space rebuild_timeout].
      rewrite fm_diff_twice, subtract_fields_twice, IH. done.
Qed.

(** X13: LogicalState::clear_deleted_state for one mask and then for a
    second is clear_deleted_state for the two masks together; so it is
    idempotent. *)
Theorem clear_deleted_state_twice (st : LogicalState) (d1 d2 : FieldMask) :
  clear_deleted_state (clear_deleted_state st d1) d2
  = clear_deleted_state st (fm_or d1 d2).
Proof.
  unfold clear_deleted_state. simpl.
  by rewrite clear_deleted_field_states_twice, fm_diff_twice,
    subtract_fields_twice.
Qed.

Lemma clear_deleted_field_states_elem d l fs :
  fs ∈ clear_deleted_field_states d l →
  ∃ fs0, fs0 ∈ l ∧
    valid_fields fs = fm_diff (valid_fields fs0) d ∧
    open_children fs = subtract_fields d (open_children fs0) ∧
    valid_fields fs ≠ 0 ∧ open_children fs ≠ ∅ ∧
    open_state fs = open_state fs0 ∧ fs_redop fs = fs_redop fs0 ∧
    projection fs = projection fs0 ∧
    projection_space fs = projection_space fs0.
Proof.
  induction l as [|x l IH]; cbn [clear_deleted_field_states].
  - intros []%elem_of_nil.
  - destruct (fm_empty _) eqn:Hv.
    { intros (fs0 & ? & ?)%IH. exists fs0. split; [by right|done]. }
    case_bool_decide as Hc.
    { intros (fs0 & ? & ?)%IH. exists fs0. split; [by right|done]. }
    intros [->|Hin]%elem_of_cons.
    + exists x. simpl. apply fm_empty_false in Hv.
      split_and!; try done. by left.
    + destruct (IH Hin) as (fs0 & ? & ?). exists fs0. split; [by right|done].
Qed.

(** X14: after LogicalState::clear_deleted_state no field state, no open
    child, no outstanding reduction and not reduction_fields holds a
    deleted field, and no field state, open child or outstanding
    reduction is left without a field (or field state without an open
    child); the users and the projection epochs are not touched. *)
Theorem clear_deleted_state_leaves_no_field (st : LogicalState)
    (deleted_mask : FieldMask) :
  let st' := clear_deleted_state st deleted_mask in
  (∀ fs, fs ∈ field_states st' →
         valid_fields fs ≠ 0 ∧ fm_and (valid_fields fs) deleted_mask = 0 ∧
         open_children fs ≠ ∅ ∧ free_of deleted_mask (open_children fs)) ∧
  fm_and (reduction_fields st') deleted_mask = 0 ∧
  free_of deleted_mask (outstanding_reductions st') ∧
  curr_epoch_users st' = curr_epoch_users st ∧
  prev_epoch_users st' = prev_epoch_users st ∧
  projection_epochs st' = projection_epochs st.
Proof.
  simpl. split_and!; try done.
  - intros fs (fs0 & _ & Hv & Hc & Hne & Hce & _)%clear_deleted_field_states_elem.
    split_and!; try done.
    + rewrite Hv. unfold fm_diff, fm_and. mask_eq i. bits.
    + rewrite Hc. apply subtract_fields_free.
  - unfold fm_diff, fm_and. mask_eq i. bits.
  - apply subtract_fields_free.
Qed.

(** X15: if the open children of every field state hold fields of their
    state only, they still do after LogicalState::clear_deleted_state. *)
Theorem clear_deleted_state_keeps_children_covered (st : LogicalState)
    (deleted_mask : FieldMask) :
  Forall children_covered (field_states st) →
  Forall children_covered
    (field_states (clear_deleted_state st deleted_mask)).
Proof.
  rewrite !list.Forall_forall. intros Hall fs
    (fs0 & Hin & Hv & Hc & _)%clear_deleted_field_states_elem.
  intros c m. rewrite Hc, Hv.
  intros (m0 & Hm0 & -> & _)%subtract_fields_lookup.
  specialize (Hall fs0 Hin c m0 Hm0). unfold fm_subset, fm_diff in *.
  mask_eq i. mask_hyp Hall i. bits.
Qed.

Import ProjectionEpochFacts.

Lemma capture_loop_Some l m m' :
  capture_loop l m = Some m' →
  (m ≠ 0 → m' ≠ 0) ∧
  ∀ f, N.testbit m' f = true ↔
       N.testbit m f = true ∧
       ∀ e, e ∈ l → N.testbit (pe_valid_fields e) f = false.
Proof.
  revert m. induction l as [|e l IH]; intros m; cbn [capture_loop].
  - intros [= ->]. split; [done|]. intros f. split; [|tauto].
    intros Hf. split; [done|]. by intros e' []%elem_of_nil.
  - destruct (fm_empty (fm_and _ m)) eqn:Hov.
    + apply fm_empty_true in Hov. intros [Hne Hbits]%IH.
      split; [done|]. intros f. rewrite Hbits. split.
      * intros [Hm Hl]. split; [done|].
        intros e' [->|He']%elem_of_cons; [|by apply Hl].
        unfold fm_and in Hov. mask_hyp Hov f. rewrite Hm in Hov.
        by rewrite andb_true_r in Hov.
      * intros [Hm Hl]. split; [done|]. intros e' He'. apply Hl. by right.
    + destruct (fm_empty (fm_diff m _)) eqn:Hrest; [done|].
      apply fm_empty_false in Hrest. intros [Hne Hbits]%IH.
      split; [auto|]. intros f. rewrite Hbits.
      unfold fm_diff, fm_and. rewrite N.ldiff_spec, N.land_spec. split.
      * intros [Hm Hl]. apply andb_true_iff in Hm as [Hm He].
        split; [done|].
        intros e' [->|He']%elem_of_cons; [|by apply Hl].
        rewrite Hm, andb_true_r in He. by apply negb_true_iff in He.
      * intros [Hm Hl]. split; [|intros e' He'; apply Hl; by right].
        rewrite Hm, (Hl e) by by left. done.
Qed.

Lemma capture_loop_None l m :
  capture_loop l m = None →
  ∀ f, N.testbit m f = true →
       ∃ e, e ∈ l ∧ N.testbit (pe_valid_fields e) f = true.
Proof.
  revert m. induction l as [|e l IH]; intros m; cbn [capture_loop]; [done|].
  destruct (fm_empty (fm_and _ m)) eqn:Hov.
  - intros Hn f Hf. destruct (IH _ Hn f Hf) as (e' & ? & ?).
    exists e'. split; [by right|done].
  - destruct (fm_empty (fm_diff m _)) eqn:Hrest.
    + intros _ f Hf. apply fm_empty_true in Hrest.
      unfold fm_diff, fm_and in Hrest. mask_hyp Hrest f.
      rewrite Hf in Hrest. exists e. split; [by left|].
      destruct (N.testbit (pe_valid_fields e) f); done.
    + intros Hn f Hf.
      destruct (N.testbit (pe_valid_fields e) f) eqn:He.
      * exists e. split; [by left|done].
      * destruct (IH _ Hn f) as (e' & ? & ?).
        { unfold fm_diff, fm_and. rewrite N.ldiff_spec, N.land_spec, Hf, He.
          done. }
        exists e'. split; [by right|done].
Qed.

Lemma covered_dec (l : list ProjectionEpoch) f :
  (∃ e, e ∈ l ∧ N.testbit (pe_valid_fields e) f = true) ∨
  (∀ e, e ∈ l → N.testbit (pe_valid_fields e) f = false).
Proof.
  induction l as [|e l [(e' & He' & Hf)|IH]].
  - right. by intros e []%elem_of_nil.
  - left. exists e'. split; [by right|done].
  - destruct (N.testbit (pe_valid_fields e) f) eqn:Hf.
    + left. exists e. split; [by left|done].
    + right. intros e' [->|He']%elem_of_cons; [done|by apply IH].
Qed.

Section FirstEpochFacts.

Variable first_epoch : ProjectionEpochID.

(** X16: LogicalState::update_projection_epochs for a non-empty capture
    mask keeps the invariant of the list of projection epochs;
    afterwards every captured field lies in an epoch; a field lies in an
    epoch with id k afterwards exactly when it did before or when it is
    a captured field that lay in no epoch, which then lies in an epoch
    with the first epoch id. *)
Theorem update_projection_epochs_invariant (st : LogicalState)
    (capture_mask : FieldMask) :
  capture_mask ≠ 0 →
  epochs_wf (projection_epochs st) →
  let l := projection_epochs st in
  let l' := projection_epochs
              (update_projection_epochs first_epoch st capture_mask) in
  epochs_wf l' ∧
  (∀ f, N.testbit capture_mask f = true → ∃ k, in_epoch l' f k) ∧
  (∀ f k, in_epoch l' f k ↔
          in_epoch l f k ∨
          (k = first_epoch ∧ N.testbit capture_mask f = true ∧
           ∀ k', ¬ in_epoch l f k')).
Proof.
  intros Hne [Hnz Hns]. simpl. unfold update_projection_epochs.
  destruct (capture_loop (projection_epochs st) capture_mask) as [m|] eqn:Hloop.
  - destruct (capture_loop_Some _ _ _ Hloop) as [Hm Hbits]. simpl.
    set (l := projection_epochs st) in *.
    assert (∀ f, N.testbit m f = true ↔
                 N.testbit capture_mask f = true ∧ ∀ k', ¬ in_epoch l f k')
      as Hbits'.
    { intros f. rewrite Hbits. split; intros [Hc Hl]; (split; [done|]).
      - intros k' (e & He & _ & Hf). by rewrite (Hl e He) in Hf.
      - intros e He. destruct (N.testbit (pe_valid_fields e) f) eqn:Hf; [|done].
        destruct (Hl (epoch_id e)). by exists e. }
    assert (∀ f k, in_epoch (l ++ [ProjectionEpoch_new first_epoch m]) f k ↔
                   in_epoch l f k ∨ (k = first_epoch ∧ N.testbit m f = true))
      as Hin.
    { intros f k. unfold in_epoch. split.
      - intros (e & [He| ->%list_elem_of_singleton]%elem_of_app & Hid & Hf).
        + left. by exists e.
        + right. simpl in *. done.
      - intros [(e & He & Hid & Hf)|[-> Hf]].
        + exists e. split; [apply elem_of_app; by left|done].
        + exists (ProjectionEpoch_new first_epoch m).
          split; [apply elem_of_app; right; by apply list_elem_of_singleton|].
          done. }
    split_and!.
    + split.
      * intros e [He| ->%list_elem_of_singleton]%elem_of_app; [by apply Hnz|].
        simpl. auto.
      * apply no_shared_field_app. split_and!; [done|simpl; split; [|done]|].
        { by intros e' []%elem_of_nil. }
        intros a b Ha ->%list_elem_of_singleton _. simpl.
        unfold fm_and. mask_eq f.
        destruct (N.testbit m f) eqn:Hf; [|by rewrite andb_false_r].
        apply Hbits in Hf as [_ Hf]. by rewrite (Hf a Ha).
    + intros f Hf. destruct (N.testbit m f) eqn:Hmf.
      * exists first_epoch. apply Hin. by right.
      * destruct (covered_dec l f) as [(e & He & Hef)|Hno].
        -- exists (epoch_id e). apply Hin. left. by exists e.
        -- assert (N.testbit m f = true) as Hcontra; [|congruence].
           apply Hbits. done.
    + intros f k. rewrite Hin, Hbits'. done.
  - pose proof (capture_loop_None _ _ Hloop) as Hcov.
    split_and!; [done| |].
    + intros f (e & He & Hf)%Hcov. exists (epoch_id e). by exists e.
    + intros f k. split; [by left|]. intros [H|(_ & Hf & Hno)]; [done|].
      apply Hcov in Hf as (e & He & Hf). destruct (Hno (epoch_id e)).
      by exists e.
Qed.

End FirstEpochFacts.

(** *** Merging field states *)



Lemma fm_or_diag a : fm_or a a = a.
Proof. apply N.lor_diag. Qed.

(** X18: when overlaps allows the merge of a state with rhs, the merged
    state can be merged with rhs again, except when a reduction is
    merged on a node all of whose children are disjoint: it then holds
    no reduction operator and overlaps rhs no more. *)
Theorem merge_overlaps (a b : FieldState) (d : bool) :
  overlaps a b = true →
  overlaps (merge a b d) b = negb (d && bool_decide (0 < fs_redop a)).
Proof.
  unfold overlaps, merge. intros H.
  repeat (case_bool_decide; simpl in H; try discriminate H);
    destruct d; simpl; repeat case_bool_decide; simpl in *;
    try done; try lia; try congruence.
  all: match goal with
       | Hv : valid_fields ?x = valid_fields ?y,
         Hn : fm_or (valid_fields ?x) (valid_fields ?y) ≠ valid_fields ?y
         |- _ =>
           rewrite Hv, fm_or_diag in Hn; done
       end.
Qed.

Lemma merge_children_singletons (c1 c2 : LegionColor) (m1 m2 : FieldMask) :
  merge_children {[c1 := m1]} {[c2 := m2]}
  = if decide (c1 = c2) then {[c1 := fm_or m1 m2]}
    else <[c2 := m2]> {[c1 := m1]}.
Proof.
  unfold merge_children. rewrite map_fold_singleton.
  destruct (decide (c1 = c2)) as [->|Hne].
  - rewrite lookup_singleton_eq. by rewrite insert_singleton_eq.
  - by rewrite lookup_singleton_ne.
Qed.

(** X19: two states opened by the user constructor for reductions with
    the same operator and fields overlap; merged, they keep the fields,
    and become OPEN_READ_WRITE without operator when all children of
    the node are disjoint, and otherwise OPEN_SINGLE_REDUCE if the two
    users are on the same child and OPEN_MULTI_REDUCE if not, with the
    operator. *)
Theorem merge_of_two_reducers (u1 u2 : GenericUser) (m : FieldMask)
    (c1 c2 : LegionColor) (d : bool) :
  privilege (usage u1) = REDUCE → privilege (usage u2) = REDUCE →
  redop (usage u1) = redop (usage u2) → 0 < redop (usage u1) →
  let a := FieldState_of_user u1 m c1 in
  let b := FieldState_of_user u2 m c2 in
  overlaps a b = true ∧
  valid_fields (merge a b d) = m ∧
  open_state (merge a b d) =
    (if d then OPEN_READ_WRITE
     else if decide (c1 = c2) then OPEN_SINGLE_REDUCE
          else OPEN_MULTI_REDUCE) ∧
  fs_redop (merge a b d) = (if d then 0 else redop (usage u1)).
Proof.
  intros Hp1 Hp2 Hr Hpos.
  unfold FieldState_of_user, FieldState_of_user_with, IS_READ_ONLY, IS_WRITE,
    IS_REDUCE. rewrite Hp1, Hp2. simpl.
  unfold overlaps, merge. simpl.
  rewrite merge_children_singletons.
  rewrite (bool_decide_true (0 < _)) by done.
  rewrite fm_or_diag. split_and!.
  - rewrite <- Hr. repeat (case_bool_decide; simpl; try done).
  - by destruct d, (decide (c1 = c2)); simpl; repeat case_bool_decide.
  - destruct d; [done|]. destruct (decide (c1 = c2)) as [->|Hne].
    + by rewrite map_size_singleton, bool_decide_true.
    + rewrite map_size_insert_None, map_size_singleton
        by by rewrite lookup_singleton_ne.
      by rewrite bool_decide_false.
  - destruct d; [done|].
    by destruct (bool_decide _).
Qed.

Lemma overlaps_same_projection (a b : FieldState) :
  overlaps a b = true → projection a = projection b.
Proof.
  unfold overlaps. repeat (case_bool_decide; simpl; try done).
Qed.

Section ProjectionFacts.

Variable depth : ProjectionFunction → N.

(** X20: a state opened by the projection constructor and a state opened
    by the user constructor never overlap, whatever the usages and
    fields, in either order. *)
Theorem projection_state_does_not_overlap_user_state
    (usage : RegionUsage) (m : FieldMask) (proj : ProjectionFunction)
    (proj_space : option IndexSpaceNode) (disjoint dirty_reduction : bool)
    (user : GenericUser) (m' : FieldMask) (c : LegionColor) :
  let p := FieldState_of_projection depth usage m proj proj_space disjoint
             dirty_reduction in
  let u := FieldState_of_user user m' c in
  overlaps p u = false ∧ overlaps u p = false.
Proof.
  intros p u.
  assert (projection p = Some proj) as Hp.
  { subst p. unfold FieldState_of_projection.
    by destruct (if IS_READ_ONLY usage then _ else _). }
  assert (projection u = None) as Hu.
  { subst u. unfold FieldState_of_user, FieldState_of_user_with.
    by destruct (if IS_READ_ONLY _ then _ else _). }
  split.
  - destruct (overlaps p u) eqn:Ho; [|done].
    apply overlaps_same_projection in Ho. congruence.
  - destruct (overlaps u p) eqn:Ho; [|done].
    apply overlaps_same_projection in Ho. congruence.
Qed.

End ProjectionFacts.

Lemma FieldState_of_user_covered user m c :
  children_covered (FieldState_of_user user m c).
Proof.
  unfold children_covered, FieldState_of_user, FieldState_of_user_with.
  destruct (if IS_READ_ONLY _ then _ else _) as [st r]. simpl.
  intros c' m' [_ <-]%lookup_singleton_Some. apply fm_diff_diag.
Qed.

Lemma clear_deleted_state_keeps_children_covered_witness :
  Forall children_covered
    (field_states
       (clear_deleted_state
          (mkLogicalState 0 [read_state_ex; reduce_state_ex] [] [] 4
             {[ 7 := 4 ]} [])
          1)).
Proof.
  apply (clear_deleted_state_keeps_children_covered
           (mkLogicalState 0 [read_state_ex; reduce_state_ex] [] [] 4
              {[ 7 := 4 ]} []) 1).
  repeat apply Forall_cons_2; try apply FieldState_of_user_covered.
  apply Forall_nil_2.
Defined.

Lemma update_projection_epochs_invariant_witness :
  let st := mkLogicalState 0 [] [] [] 0 ∅ [ProjectionEpoch_new 4 1] in
  let l := projection_epochs st in
  let l' := projection_epochs (update_projection_epochs 1 st 3) in
  epochs_wf l' ∧
  (∀ f, N.testbit 3 f = true → ∃ k, in_epoch l' f k) ∧
  (∀ f k, in_epoch l' f k ↔
          in_epoch l f k ∨
          (k = 1 ∧ N.testbit 3 f = true ∧ ∀ k', ¬ in_epoch l f k')).
Proof.
  intros st.
  apply (update_projection_epochs_invariant 1 st 3).
  - discriminate.
  - split.
    + intros e ->%list_elem_of_singleton. discriminate.
    + simpl. split; [|done]. by intros e' []%elem_of_nil.
Defined.


Lemma merge_overlaps_witness :
  overlaps (merge reduce_state_ex reduce_state_ex true) reduce_state_ex
  = false.
Proof.
  apply (merge_overlaps reduce_state_ex reduce_state_ex true). reflexivity.
Defined.

Lemma merge_of_two_reducers_witness :
  let u := mkGenericUser (mkUsage REDUCE EXCLUSIVE 7) 4 in
  let a := FieldState_of_user u 4 0 in
  let b := FieldState_of_user u 4 1 in
  overlaps a b = true ∧
  valid_fields (merge a b false) = 4 ∧
  open_state (merge a b false) = OPEN_MULTI_REDUCE ∧
  fs_redop (merge a b false) = 7.
Proof.
  intros u.
  apply (merge_of_two_reducers u u 4 0 1 false); reflexivity.
Defined.

End LogicalStateFacts.

(* ===================================================================== *)
(** ** InstanceSet: the operations on the list of references *)
(* ===================================================================== *)

Module InstanceSetFacts.
Import Instances InstanceFacts.


Lemma fresh_lookup (h : Heap) : h !! fresh (dom h) = None.
Proof. apply not_elem_of_dom, is_fresh. Qed.

Lemma fresh_not_live (h : Heap) p c : h !! p = Some c → fresh (dom h) ≠ p.
Proof. intros Hp Heq. rewrite <- Heq, fresh_lookup in Hp. done. Qed.

Lemma drop_after_new (h : Heap) p c0 c :
  h !! p = Some c → (0 < references c)%nat →
  ∃ h', drop_reference (<[fresh (dom h) := c0]> h) p = Some h' ∧
        h' !! fresh (dom h) = Some c0 ∧
        (∀ q, q ≠ p → q ≠ fresh (dom h) → h' !! q = h !! q).
Proof.
  intros Hp Hn. pose proof (fresh_not_live h p c Hp) as Hf.
  unfold drop_reference. rewrite lookup_insert_ne, Hp by done. simpl.
  destruct (references c) as [|[|n]] eqn:Hr; [lia| |]; eexists; (split; [done|]).
  - rewrite lookup_delete_ne, lookup_insert_eq by done. split; [done|].
    intros q Hq Hq'. by rewrite lookup_delete_ne, lookup_insert_ne.
  - rewrite lookup_insert_ne, lookup_insert_eq by done. split; [done|].
    intros q Hq Hq'. by rewrite !lookup_insert_ne.
Qed.

Lemma vector_resize_all v : vector_resize v (length v) = v.
Proof.
  unfold vector_resize. rewrite firstn_all, Nat.sub_diag. apply app_nil_r.
Qed.

Ltac wf_cases this Hwf :=
  let sg := fresh "sg" in let sh := fresh "sh" in let p := fresh "p" in
  destruct this as [sg sh [p|]]; unfold wf in Hwf; simpl in Hwf;
  [destruct sg; [destruct Hwf as (?r & ?n & Hwf)|destruct Hwf as (?v & ?n & Hwf)]
  |subst sg].

Ltac finish_with H :=
  do 2 eexists; (split; [reflexivity|]);
  unfold contents, load_single, load_multi, wf; simpl;
  rewrite ?lookup_insert_eq, ?H; simpl; split_and?; eauto.

(** X21: InstanceSet::resize(n) on a well-formed set gives the elements
    it had, cut or padded with default references to n, in single
    storage exactly when n is at most 1, and the set is well formed
    again.  The one case left out is resizing vector storage that holds
    no element to 1, where the code copies vector[0]. *)
Theorem resize_contents (this : InstanceSet) (h : Heap) old (n : nat) :
  wf this h → contents this h = Some old →
  (single this = false → n = 1%nat → old ≠ []) →
  ∃ this' h',
    resize this n h = Some (this', h') ∧
    contents this' h' = Some (vector_resize old n) ∧
    single this' = bool_decide (n ≤ 1)%nat ∧
    wf this' h'.
Proof.
  intros Hwf Hc Hne. wf_cases this Hwf;
    unfold contents, load_single, load_multi in Hc; simpl in Hc;
    try rewrite Hwf in Hc; simplify_eq/=.
  - (* single storage, one element *)
    unfold resize, release_storage, new_cell, load_single. simpl.
    destruct n as [|[|k]].
    + destruct (drop_reference_is_Some h p _ Hwf) as [h' Hd]; [simpl; lia|].
      rewrite Hd. simpl. finish_with Hd.
    + finish_with Hwf.
    + rewrite Hwf. simpl.
      edestruct (drop_after_new h p) as (h' & Hd & Hq & _);
        [exact Hwf|simpl; lia|].
      rewrite Hd. simpl. finish_with Hq.
  - (* vector storage *)
    unfold resize, new_cell, load_multi. simpl.
    destruct n as [|[|k]].
    + destruct (drop_reference_is_Some h p _ Hwf) as [h' Hd]; [simpl; lia|].
      rewrite Hd. simpl. finish_with Hd.
    + rewrite Hwf. simpl. destruct old as [|r0 old]; [by destruct Hne|].
      simpl.
      edestruct (drop_after_new h p) as (h' & Hd & Hq & _);
        [exact Hwf|simpl; lia|].
      rewrite Hd. simpl. finish_with Hq.
    + rewrite Hwf. simpl. case_bool_decide as Hlen.
      * destruct sh.
        -- edestruct (drop_after_new h p) as (h' & Hd & Hq & _);
             [exact Hwf|simpl; lia|].
           rewrite Hd. simpl. finish_with Hq.
        -- unfold store_multi. rewrite Hwf. simpl. finish_with Hwf.
      * rewrite <- Hlen, vector_resize_all.
        finish_with Hwf.
  - (* empty, single storage *)
    unfold resize, release_storage, new_cell. simpl.
    destruct n as [|[|k]]; simpl; finish_with Hc.
Qed.

Lemma load_single_lookup (h : Heap) p r n :
  h !! p = Some (CollectableRef r n) → load_single h p = Some r.
Proof. unfold load_single. by intros ->. Qed.

Lemma store_single_lookup (h : Heap) p r0 n r :
  h !! p = Some (CollectableRef r0 n) →
  store_single h p r = Some (<[p := CollectableRef r n]> h).
Proof. unfold store_single. by intros ->. Qed.

(** X22: InstanceSet::clear on a well-formed set succeeds and leaves a
    well-formed set without elements that is not marked shared. *)
Theorem clear_contents (this : InstanceSet) (h : Heap) :
  wf this h →
  ∃ this' h',
    clear this h = Some (this', h') ∧
    contents this' h' = Some [] ∧ shared this' = false ∧ wf this' h'.
Proof.
  intros Hwf. wf_cases this Hwf.
  - unfold clear, release_storage. simpl.
    destruct (drop_reference_is_Some h p _ Hwf) as [h' Hd]; [simpl; lia|].
    rewrite Hd. simpl. finish_with Hd.
  - unfold clear. simpl. rewrite Hwf. simpl.
    destruct sh.
    + destruct n as [|n]; finish_with Hwf.
    + rewrite (load_multi_lookup _ _ _ _ Hwf). simpl.
      rewrite (store_multi_lookup _ _ _ _ [] Hwf). simpl. finish_with Hwf.
  - unfold clear, release_storage. simpl. finish_with Hwf.
Qed.

(** X23: InstanceSet::add_instance on a well-formed set appends the
    reference to the elements and leaves the set well formed. *)
Theorem add_instance_contents (this : InstanceSet) (ref : InstanceRef)
    (h : Heap) old :
  wf this h → contents this h = Some old →
  ∃ this' h',
    add_instance this ref h = Some (this', h') ∧
    contents this' h' = Some (old ++ [ref]) ∧ wf this' h'.
Proof.
  intros Hwf Hc. wf_cases this Hwf;
    unfold contents, load_single, load_multi in Hc; simpl in Hc;
    try rewrite Hwf in Hc; simplify_eq/=.
  - unfold add_instance, new_cell. simpl.
    rewrite (load_single_lookup _ _ _ _ Hwf). simpl.
    edestruct (drop_after_new h p) as (h' & Hd & Hq & _);
      [exact Hwf|simpl; lia|].
    rewrite Hd. simpl. finish_with Hq.
  - unfold add_instance, make_copy, new_cell. simpl. destruct sh.
    + rewrite (load_multi_lookup _ _ _ _ Hwf). simpl.
      edestruct (drop_after_new h p) as (h' & Hd & Hq & _);
        [exact Hwf|simpl; lia|].
      rewrite Hd. simpl.
      rewrite (load_multi_lookup _ _ _ _ Hq). simpl.
      rewrite (store_multi_lookup _ _ _ _ (old ++ [ref]) Hq). simpl.
      finish_with Hq.
    + simpl. rewrite (load_multi_lookup _ _ _ _ Hwf). simpl.
      rewrite (store_multi_lookup _ _ _ _ (old ++ [ref]) Hwf). simpl.
      finish_with Hwf.
  - unfold add_instance, new_cell. simpl. finish_with Hc.
Qed.

(** X24: an assignment through the non-const operator[] at an index
    below the size replaces that element and no other, and leaves the
    set well formed and not marked shared. *)
Theorem assign_at_contents (this : InstanceSet) (idx : nat) (r : InstanceRef)
    (h : Heap) old :
  wf this h → contents this h = Some old → (idx < length old)%nat →
  ∃ this' h',
    assign_at this idx r h = Some (this', h') ∧
    contents this' h' = Some (<[idx := r]> old) ∧
    shared this' = false ∧ wf this' h'.
Proof.
  intros Hwf Hc Hidx. wf_cases this Hwf;
    unfold contents, load_single, load_multi in Hc; simpl in Hc;
    try rewrite Hwf in Hc; simplify_eq/=; [| |lia].
  - assert (idx = O) as -> by lia. simpl.
    unfold assign_at, make_copy, new_cell. simpl. destruct sh.
    + rewrite (load_single_lookup _ _ _ _ Hwf). simpl.
      edestruct (drop_after_new h p) as (h' & Hd & Hq & _);
        [exact Hwf|simpl; lia|].
      rewrite Hd. simpl.
      rewrite (store_single_lookup _ _ _ _ r Hq). simpl.
      finish_with Hq.
    + simpl. rewrite (store_single_lookup _ _ _ _ r Hwf). simpl.
      finish_with Hwf.
  - unfold assign_at, make_copy, new_cell. simpl. destruct sh.
    + rewrite (load_multi_lookup _ _ _ _ Hwf). simpl.
      edestruct (drop_after_new h p) as (h' & Hd & Hq & _);
        [exact Hwf|simpl; lia|].
      rewrite Hd. simpl.
      rewrite (load_multi_lookup _ _ _ _ Hq). simpl.
      rewrite bool_decide_true by done.
      rewrite (store_multi_lookup _ _ _ _ (<[idx := r]> old) Hq). simpl.
      finish_with Hq.
    + simpl. rewrite (load_multi_lookup _ _ _ _ Hwf). simpl.
      rewrite bool_decide_true by done.
      rewrite (store_multi_lookup _ _ _ _ (<[idx := r]> old) Hwf). simpl.
      finish_with Hwf.
Qed.

(** X25: InstanceSet::make_copy on a well-formed set keeps the elements
    and the kind of storage, clears the shared mark, and moves the set,
    unless it is empty, to storage that was not allocated before and
    that counts one reference. *)
Theorem make_copy_contents (this : InstanceSet) (h : Heap) :
  wf this h →
  ∃ this' h',
    make_copy this h = Some (this', h') ∧
    contents this' h' = contents this h ∧
    single this' = single this ∧ shared this' = false ∧ wf this' h' ∧
    (∀ p, refs this' = Some p →
          h !! p = None ∧ ∃ c, h' !! p = Some c ∧ references c = 1%nat).
Proof.
  intros Hwf. pose proof (fresh_lookup h) as Hfresh. wf_cases this Hwf.
  - unfold make_copy, new_cell. simpl.
    rewrite (load_single_lookup _ _ _ _ Hwf). simpl.
    edestruct (drop_after_new h p) as (h' & Hd & Hq & _);
      [exact Hwf|simpl; lia|].
    rewrite Hd. simpl. finish_with Hq; rewrite ?Hwf; try done.
    intros ? [= <-]. eauto.
  - unfold make_copy, new_cell. simpl.
    rewrite (load_multi_lookup _ _ _ _ Hwf). simpl.
    edestruct (drop_after_new h p) as (h' & Hd & Hq & _);
      [exact Hwf|simpl; lia|].
    rewrite Hd. simpl. finish_with Hq; rewrite ?Hwf; try done.
    intros ? [= <-]. eauto.
  - unfold make_copy. simpl. finish_with Hwf. done.
Qed.

Lemma InstanceRef_eq_refl r : InstanceRef_eq r r = true.
Proof. unfold InstanceRef_eq. by rewrite !bool_decide_true. Qed.

Lemma InstanceRef_eq_spec a b :
  InstanceRef_eq a b = true ↔
  valid_fields a = valid_fields b ∧ ready_event a = ready_event b ∧
  manager a = manager b.
Proof.
  unfold InstanceRef_eq. repeat case_bool_decide; simpl; naive_solver.
Qed.

Lemma forallb_zip_refl v :
  forallb (λ ab, negb (InstanceRef_neq ab.1 ab.2)) (zip v v) = true.
Proof.
  induction v as [|r v IH]; [done|]. simpl. unfold InstanceRef_neq at 1.
  by rewrite InstanceRef_eq_refl.
Qed.

Lemma with_references_twice c n k :
  with_references (with_references c n) k = with_references c k.
Proof. by destruct c. Qed.

Lemma with_references_id c : with_references c (references c) = c.
Proof. by destruct c. Qed.

Lemma references_with c n : references (with_references c n) = n.
Proof. by destruct c. Qed.

(** X26: the copy constructor on a well-formed set gives a set with the
    same elements that compares equal to the original under operator==,
    both well formed; destroying the copy gives the heap back as it was
    before the copy. *)
Theorem copy_construct_equal (a : InstanceSet) (h : Heap) :
  wf a h →
  ∃ b a1 h1,
    copy_construct a h = Some (b, a1, h1) ∧
    contents b h1 = contents a h ∧ contents a1 h1 = contents a h ∧
    InstanceSet_eq b a1 h1 = Some true ∧
    wf b h1 ∧ wf a1 h1 ∧
    release_storage b h1 = Some h.
Proof.
  intros Hwf. wf_cases a Hwf.
  - unfold copy_construct, add_reference. simpl. rewrite Hwf. simpl.
    do 3 eexists. split; [done|].
    unfold contents, load_single, InstanceSet_eq, wf, release_storage,
      drop_reference. simpl.
    rewrite !lookup_insert_eq, Hwf. simpl.
    rewrite bool_decide_true by done.
    split_and!; eauto.
    by rewrite insert_insert_eq, insert_id.
  - unfold copy_construct, add_reference. simpl. rewrite Hwf. simpl.
    do 3 eexists. split; [done|].
    unfold contents, InstanceSet_eq, wf, release_storage,
      drop_reference. simpl.
    rewrite (load_multi_lookup _ _ _ _ Hwf).
    rewrite (load_multi_lookup _ p v (S (S n))) by apply lookup_insert_eq.
    rewrite !lookup_insert_eq. simpl.
    rewrite bool_decide_true by done. simpl. rewrite forallb_zip_refl.
    split_and!; eauto.
    by rewrite insert_insert_eq, insert_id.
  - unfold copy_construct. simpl. do 3 eexists. split; [done|].
    unfold contents, InstanceSet_eq, wf, release_storage. simpl.
    split_and!; eauto.
Qed.

(** X27: operator= between well-formed sets that do not share storage
    gives the left side the elements of the right side, equal to it
    under operator==, both well formed. *)
Theorem copy_assign_contents (this rhs : InstanceSet) (h : Heap) :
  wf this h → wf rhs h →
  (refs this = None ∨ refs this ≠ refs rhs) →
  ∃ this' rhs' h',
    copy_assign this rhs h = Some (this', rhs', h') ∧
    contents this' h' = contents rhs h ∧ contents rhs' h' = contents rhs h ∧
    InstanceSet_eq this' rhs' h' = Some true ∧
    wf this' h' ∧ wf rhs' h'.
Proof.
  intros Hwf Hrhs Hne.
  destruct (release_storage_is_Some this h Hwf) as [h0 Hrel].
  assert (∀ q, refs rhs = Some q → h0 !! q = h !! q) as Hkeep.
  { intros q Hq. eapply release_storage_other; [done|].
    destruct Hne as [->| Hne]; congruence. }
  unfold copy_assign. rewrite Hrel. simpl. clear Hwf Hrel Hne.
  wf_cases rhs Hrhs.
  - specialize (Hkeep p eq_refl). rewrite Hrhs in Hkeep.
    unfold add_reference. simpl. rewrite Hkeep. simpl.
    do 3 eexists. split; [done|].
    unfold contents, load_single, InstanceSet_eq, wf. simpl.
    rewrite !lookup_insert_eq, Hrhs. simpl.
    rewrite bool_decide_true by done. split_and!; eauto.
  - specialize (Hkeep p eq_refl). rewrite Hrhs in Hkeep.
    unfold add_reference. simpl. rewrite Hkeep. simpl.
    do 3 eexists. split; [done|].
    unfold contents, InstanceSet_eq, wf. simpl.
    rewrite (load_multi_lookup _ _ _ _ Hrhs).
    rewrite (load_multi_lookup _ p v (S (S n))) by apply lookup_insert_eq.
    rewrite !lookup_insert_eq. simpl.
    rewrite bool_decide_true by done. simpl. rewrite forallb_zip_refl.
    split_and!; eauto.
  - simpl. do 3 eexists. split; [done|].
    unfold contents, InstanceSet_eq, wf. simpl. split_and!; eauto.
Qed.

(** Self-assignment of a set that holds the only reference to its
    storage deletes the storage before it takes the new reference. *)
Example self_assignment_of_unique_storage :
  let h : Heap := {[ 1 := CollectableRef InstanceRef_default 1 ]} in
  let a := mkInstanceSet true false (Some 1) in
  wf a h ∧ copy_assign a a h = None.
Proof. split; [by exists InstanceRef_default, O|reflexivity]. Qed.

(** X28: after a copy, InstanceSet::clear on either of the two sets
    empties that set and leaves the elements of the other as they
    were. *)
Theorem clear_after_copy_frame (a : InstanceSet) (h : Heap) b a1 h1 :
  wf a h → copy_construct a h = Some (b, a1, h1) →
  (∀ b2 h2, clear b h1 = Some (b2, h2) →
            contents a1 h2 = contents a h ∧ contents b2 h2 = Some []) ∧
  (∀ a2 h2, clear a1 h1 = Some (a2, h2) →
            contents b h2 = contents a h ∧ contents a2 h2 = Some []).
Proof.
  intros Hwf Hc. pose proof (copy_construct_wf a h b a1 h1 Hwf Hc) as Hshape.
  destruct (refs a) as [p|] eqn:Hr.
  - destruct Hshape as (-> & -> & c & n & Hp & Hn & ->).
    assert (∀ x h2,
      clear (mkInstanceSet (single a) true (Some p))
        (<[p := with_references c (S (S n))]> h) = Some (x, h2) →
      contents (mkInstanceSet (single a) true (Some p)) h2 = contents a h ∧
      contents x h2 = Some []) as Hframe.
    { intros x h2 Hcl. unfold wf in Hwf. rewrite Hr in Hwf.
      unfold clear, release_storage, drop_reference in Hcl. simpl in Hcl.
      rewrite lookup_insert_eq in Hcl. simpl in Hcl.
      unfold contents, load_single, load_multi. rewrite Hr. simpl.
      destruct (single a).
      - destruct Hwf as (r & k & Hk). rewrite Hk in Hp. simplify_eq/=.
        rewrite lookup_insert_eq, Hk. done.
      - destruct Hwf as (v & k & Hk). rewrite Hk in Hp. simplify_eq/=.
        rewrite lookup_insert_eq, Hk. done. }
    split; exact Hframe.
  - destruct Hshape as (-> & -> & ->).
    unfold wf in Hwf. rewrite Hr in Hwf.
    unfold contents, clear, release_storage. rewrite Hr, Hwf. simpl.
    destruct a as [sg sh rf]; simpl in *; subst.
    split; intros ? ? [= <- <-]; done.
Qed.

Section Observers.
Variable did : PhysicalManager → DistributedID.
Variable is_virtual_manager : PhysicalManager → bool.

(** X29: size, empty, the const operator[] and pack_references read the
    same list of elements from single and from vector storage: size is
    its length, empty tells whether it is empty, operator[] at an index below
    the size gives that element, and pack_references writes the length
    followed by the packed elements in order. *)
Theorem observers_agree_with_contents (this : InstanceSet) (h : Heap) v :
  contents this h = Some v →
  size this h = Some (length v) ∧
  empty this h = Some (bool_decide (v = [])) ∧
  (∀ idx, (idx < length v)%nat → get_at this idx h = v !! idx) ∧
  pack_references did this h
    = Some (W_size (length v) :: concat (pack_reference did <$> v)).
Proof.
  unfold contents, size, empty, get_at, pack_references. intros Hc.
  destruct (single this), (refs this) as [p|]; simplify_eq/=.
  - destruct (load_single h p) as [r|]; simplify_eq/=.
    split_and!; try done.
    intros idx Hidx. by assert (idx = O) as -> by lia.
  - split_and!; try done.
  - rewrite Hc. simpl. split_and!; done.
Qed.

(** X30: InstanceSet::is_virtual_mapping is true for a set without
    elements, false for a set of two or more, and for a set of one
    element in single storage it is is_virtual_ref of that element; for
    one element in vector storage it reads the vector through the
    pointer to a single reference, which is undefined. *)
Theorem is_virtual_mapping_spec (this : InstanceSet) (h : Heap) v :
  contents this h = Some v →
  is_virtual_mapping is_virtual_manager this h =
    match v with
    | [] => Some true
    | [r] => if single this then Some (is_virtual_ref is_virtual_manager r)
             else None
    | _ => Some false
    end.
Proof.
  unfold contents, is_virtual_mapping, size, empty. intros Hc.
  destruct (single this), (refs this) as [p|]; simplify_eq/=.
  - destruct (load_single h p) as [r|] eqn:Hl; simplify_eq/=. done.
  - done.
  - rewrite Hc. simpl. destruct v as [|r [|r' v]]; simpl; try done.
    unfold load_multi in Hc. unfold load_single.
    destruct (h !! p) as [[]|]; simplify_eq/=. done.
Qed.

End Observers.

Lemma wf_vector_set_ex : wf vector_set_ex heap_ex.
Proof. exists [r1_ex; r2_ex], 1%nat. reflexivity. Qed.

Lemma wf_single_set_ex : wf single_set_ex heap_ex.
Proof. exists r1_ex, O. reflexivity. Qed.

Lemma resize_contents_witness :
  ∃ this' h',
    resize vector_set_ex 3 heap_ex = Some (this', h') ∧
    contents this' h' = Some (vector_resize [r1_ex; r2_ex] 3) ∧
    single this' = bool_decide (3 ≤ 1)%nat ∧
    wf this' h'.
Proof.
  apply (resize_contents vector_set_ex heap_ex [r1_ex; r2_ex] 3).
  - exists [r1_ex; r2_ex], 1%nat. reflexivity.
  - reflexivity.
  - intros _ H. discriminate H.
Defined.

Lemma clear_contents_witness :
  ∃ this' h',
    clear vector_set_ex heap_ex = Some (this', h') ∧
    contents this' h' = Some [] ∧ shared this' = false ∧ wf this' h'.
Proof.
  apply (clear_contents vector_set_ex heap_ex).
  exists [r1_ex; r2_ex], 1%nat. reflexivity.
Defined.

Lemma add_instance_contents_witness :
  ∃ this' h',
    add_instance single_set_ex r2_ex heap_ex = Some (this', h') ∧
    contents this' h' = Some ([r1_ex] ++ [r2_ex]) ∧ wf this' h'.
Proof.
  apply (add_instance_contents single_set_ex r2_ex heap_ex [r1_ex]).
  - exists r1_ex, O. reflexivity.
  - reflexivity.
Defined.

Lemma assign_at_contents_witness :
  ∃ this' h',
    assign_at vector_set_ex 1 r1_ex heap_ex = Some (this', h') ∧
    contents this' h' = Some (<[1%nat := r1_ex]> [r1_ex; r2_ex]) ∧
    shared this' = false ∧ wf this' h'.
Proof.
  apply (assign_at_contents vector_set_ex 1 r1_ex heap_ex [r1_ex; r2_ex]).
  - exists [r1_ex; r2_ex], 1%nat. reflexivity.
  - reflexivity.
  - simpl. lia.
Defined.

Lemma make_copy_contents_witness :
  ∃ this' h',
    make_copy vector_set_ex heap_ex = Some (this', h') ∧
    contents this' h' = contents vector_set_ex heap_ex ∧
    single this' = single vector_set_ex ∧ shared this' = false ∧
    wf this' h' ∧
    (∀ p, refs this' = Some p →
          heap_ex !! p = None ∧
          ∃ c, h' !! p = Some c ∧ references c = 1%nat).
Proof.
  apply (make_copy_contents vector_set_ex heap_ex).
  exists [r1_ex; r2_ex], 1%nat. reflexivity.
Defined.

Lemma copy_construct_equal_witness :
  ∃ b a1 h1,
    copy_construct single_set_ex heap_ex = Some (b, a1, h1) ∧
    contents b h1 = contents single_set_ex heap_ex ∧
    contents a1 h1 = contents single_set_ex heap_ex ∧
    InstanceSet_eq b a1 h1 = Some true ∧
    wf b h1 ∧ wf a1 h1 ∧
    release_storage b h1 = Some heap_ex.
Proof.
  apply (copy_construct_equal single_set_ex heap_ex).
  exists r1_ex, O. reflexivity.
Defined.

Lemma copy_assign_contents_witness :
  ∃ this' rhs' h',
    copy_assign single_set_ex vector_set_ex heap_ex
      = Some (this', rhs', h') ∧
    contents this' h' = contents vector_set_ex heap_ex ∧
    contents rhs' h' = contents vector_set_ex heap_ex ∧
    InstanceSet_eq this' rhs' h' = Some true ∧
    wf this' h' ∧ wf rhs' h'.
Proof.
  apply (copy_assign_contents single_set_ex vector_set_ex heap_ex).
  - exists r1_ex, O. reflexivity.
  - exists [r1_ex; r2_ex], 1%nat. reflexivity.
  - right. discriminate.
Defined.

Lemma clear_after_copy_frame_witness :
  let b := mkInstanceSet true true (Some 2) in
  let h1 : Heap :=
    {[ 1 := InternalSet [r1_ex; r2_ex] 2; 2 := CollectableRef r1_ex 2 ]} in
  (∀ b2 h2, clear b h1 = Some (b2, h2) →
            contents b h2 = contents single_set_ex heap_ex ∧
            contents b2 h2 = Some []) ∧
  (∀ a2 h2, clear b h1 = Some (a2, h2) →
            contents b h2 = contents single_set_ex heap_ex ∧
            contents a2 h2 = Some []).
Proof.
  intros b h1.
  apply (clear_after_copy_frame single_set_ex heap_ex b b h1).
  - exists r1_ex, O. reflexivity.
  - reflexivity.
Defined.

Lemma observers_agree_with_contents_witness :
  size vector_set_ex heap_ex = Some (length [r1_ex; r2_ex]) ∧
  empty vector_set_ex heap_ex = Some (bool_decide ([r1_ex; r2_ex] = [])) ∧
  (∀ idx, (idx < length [r1_ex; r2_ex])%nat →
          get_at vector_set_ex idx heap_ex = [r1_ex; r2_ex] !! idx) ∧
  pack_references did_ex vector_set_ex heap_ex
    = Some (W_size (length [r1_ex; r2_ex])
            :: concat (pack_reference did_ex <$> [r1_ex; r2_ex])).
Proof.
  apply (observers_agree_with_contents did_ex vector_set_ex heap_ex
           [r1_ex; r2_ex]).
  reflexivity.
Defined.

Lemma is_virtual_mapping_spec_witness :
  is_virtual_mapping (λ _, false) single_set_ex heap_ex = Some false.
Proof.
  apply (is_virtual_mapping_spec (λ _, false) single_set_ex heap_ex [r1_ex]).
  reflexivity.
Defined.

End InstanceSetFacts.
